(** * The Model of the synchronisation core (internal/model/model.go)

    A shallow embedding of the Model registry, the inbound protocol
    callbacks, the index sender, the scanner driver's second pass and the
    repository state machine, together with the properties the
    specification states about them. *)

From Stdlib Require Import ZArith String Ascii List Lia Bool Permutation Sorted Floats.
From stdpp Require Import gmap strings list sorting.
From Equations Require Import Equations.

Local Open Scope Z_scope.

(** ** Machine integers *)

(** Go's [int64] (and [int] on 64-bit targets): two's complement wrap-around. *)
Definition int64 (z : Z) : Z := (z + 2 ^ 63) mod 2 ^ 64 - 2 ^ 63.

(** Go's [uint64]. *)
Definition uint64 (z : Z) : Z := z mod 2 ^ 64.

(** A value already inside the [int64] range is left alone by the wrap. *)
Definition in_int64 (z : Z) : Prop := - 2 ^ 63 <= z < 2 ^ 63.

(** ** package lamport *)

Module lamport.

(** Modelled from the spec: the logical clock of package lamport, which is
    not part of the model package.  [Tick observed] moves the 64-bit
    counter to [max(local, observed) + 1] and returns the new value. *)
Definition Tick (local observed : Z) : Z := uint64 (Z.max local observed + 1).

End lamport.

(** ** package protocol *)

Module protocol.

(** A peer identity is a 32-byte array. *)
Definition NodeID := list N.

(** [copy(id[:], bs)]: at most 32 bytes are copied into a zeroed array. *)
Definition copyNodeID (bs : list N) : NodeID :=
  take 32 bs ++ replicate (32 - length bs)%nat 0%N.

(** Modelled from the spec: the reserved identity that denotes this node. *)
Definition LocalNodeID : NodeID := replicate 32 255%N.

(** Modelled from the spec: the flag bitset of a FileInfo.  The protocol
    package that fixes the bit positions is not part of the model package;
    the three named flags occupy distinct bits above the permission bits. *)
Definition FlagDeleted : Z := Z.shiftl 1 12.
Definition FlagInvalid : Z := Z.shiftl 1 13.
Definition FlagDirectory : Z := Z.shiftl 1 14.

(** Flags carried by the nodes of a ClusterConfigMessage. *)
Definition FlagShareTrusted : Z := Z.shiftl 1 0.
Definition FlagIntroducer : Z := Z.shiftl 1 2.

Definition IsDeleted (flags : Z) : bool := negb (Z.land flags FlagDeleted =? 0).
Definition IsInvalid (flags : Z) : bool := negb (Z.land flags FlagInvalid =? 0).

Record BlockInfo := mkBlock { bOffset : Z; bSize : Z; bHash : list N }.

Record FileInfo := mkFile {
  Name : string;
  Flags : Z;
  Modified : Z;
  Version : Z;
  LocalVersion : Z;
  Blocks : list BlockInfo
}.

(** The value of [protocol.FileInfo{}]. *)
Definition zeroFileInfo : FileInfo := mkFile "" 0 0 0 0 [].

(** Modelled from the spec: the truncated flavour of a FileInfo has no
    block list; the byte size it reports is kept in its place. *)
Record FileInfoTruncated := mkTrunc {
  tName : string;
  tFlags : Z;
  tModified : Z;
  tVersion : Z;
  tLocalVersion : Z;
  tSize : Z
}.

(** The interface both flavours are visited through. *)
Class FileIntf (F : Type) := {
  Size : F -> Z;
  isDeleted : F -> bool;
  isInvalid : F -> bool
}.

(** Modelled from the spec: the blocks cover the file's bytes, so the size
    of a file is the sum of its block sizes. *)
Definition blocksSize (bs : list BlockInfo) : Z :=
  fold_left (fun acc b => int64 (acc + bSize b)) bs 0.

#[export] Instance FileInfo_intf : FileIntf FileInfo :=
  {| Size f := blocksSize (Blocks f);
     isDeleted f := IsDeleted (Flags f);
     isInvalid f := IsInvalid (Flags f) |}.

#[export] Instance FileInfoTruncated_intf : FileIntf FileInfoTruncated :=
  {| Size f := tSize f;
     isDeleted f := IsDeleted (tFlags f);
     isInvalid f := IsInvalid (tFlags f) |}.

Definition truncate (f : FileInfo) : FileInfoTruncated :=
  mkTrunc (Name f) (Flags f) (Modified f) (Version f) (LocalVersion f) (Size f).

(** The cluster configuration a peer announces. *)
Record Node := mkNode { nID : list N; nFlags : Z }.
Record Repository := mkRepository { rID : string; rNodes : list Node }.
Record ClusterConfigMessage := mkClusterConfig {
  ClientName : string;
  ClientVersion : string;
  Options : list (string * string);
  cmRepositories : list Repository
}.

Definition GetOption (cm : ClusterConfigMessage) (key : string) : string :=
  match List.find (fun o => String.eqb (fst o) key) (Options cm) with
  | Some o => snd o
  | None => ""
  end.

End protocol.

(** ** package ignore *)

Module ignore.

(** Modelled from the spec: a pattern list of package ignore, represented
    by the predicate on names it decides. *)
Record Patterns := mkPatterns { Match : string -> bool }.

(** The nil pattern list, which a missing map entry yields: matches nothing. *)
Definition nilPatterns : Patterns := mkPatterns (fun _ => false).

End ignore.

(** ** package files *)

Module files.
Import protocol.

(** A generic ordered traversal: the visitor threads the variables its
    closure captures and answers whether the traversal continues. *)
Fixpoint traverse {A S : Type} (fn : S -> A -> S * bool) (st : S) (l : list A) : S :=
  match l with
  | [] => st
  | x :: l' => let '(st', continue) := fn st x in
               if continue then traverse fn st' l' else st'
  end.

(** Modelled from the spec: the multi-replica index of package files.  A
    replica is the list of its entries in lexicographic order of name,
    names unique, with the highest local version it has assigned. *)
Record Set_ := mkSet {
  replicas : gmap NodeID (list FileInfo);
  localVersions : gmap NodeID Z
}.

Definition NewSet : Set_ := mkSet ∅ ∅.

Definition have (s : Set_) (node : NodeID) : list FileInfo :=
  default [] (replicas s !! node).

Definition LocalVersion (s : Set_) (node : NodeID) : Z :=
  default 0 (localVersions s !! node).

Fixpoint lookupName (name : string) (l : list FileInfo) : option FileInfo :=
  match l with
  | [] => None
  | f :: l' => if String.eqb (Name f) name then Some f else lookupName name l'
  end.

(** Modelled from the spec: [get] returns the replica's current entry or a
    zero-value FileInfo if absent. *)
Definition Get (s : Set_) (node : NodeID) (name : string) : FileInfo :=
  default zeroFileInfo (lookupName name (have s node)).

(** Insertion that keeps the lexicographic order and overwrites an entry of
    the same name. *)
Fixpoint upsert (f : FileInfo) (l : list FileInfo) : list FileInfo :=
  match l with
  | [] => [f]
  | g :: l' =>
      match String.compare (Name f) (Name g) with
      | Lt => f :: l
      | Eq => f :: l'
      | Gt => g :: upsert f l'
      end
  end.

Definition withLocalVersion (lv : Z) (f : FileInfo) : FileInfo :=
  mkFile (Name f) (Flags f) (Modified f) (Version f) lv (Blocks f).

(** Each inserted entry receives the next local version of the replica. *)
Fixpoint insertAll (fs : list FileInfo) (acc : list FileInfo * Z) : list FileInfo * Z :=
  match fs with
  | [] => acc
  | f :: fs' =>
      let lv := uint64 (snd acc + 1) in
      insertAll fs' (upsert (withLocalVersion lv f) (fst acc), lv)
  end.

(** Modelled from the spec: [replace] sets the replica to exactly [fs]. *)
Definition Replace (s : Set_) (node : NodeID) (fs : list FileInfo) : Set_ :=
  let '(l, lv) := insertAll fs ([], LocalVersion s node) in
  mkSet (<[node := l]> (replicas s)) (<[node := lv]> (localVersions s)).

(** Modelled from the spec: [update] is an upsert; nothing is removed. *)
Definition Update (s : Set_) (node : NodeID) (fs : list FileInfo) : Set_ :=
  let '(l, lv) := insertAll fs (have s node, LocalVersion s node) in
  mkSet (<[node := l]> (replicas s)) (<[node := lv]> (localVersions s)).

Fixpoint nodeLtb (a b : NodeID) : bool :=
  match a, b with
  | [], [] => false
  | [], _ :: _ => true
  | _ :: _, [] => false
  | x :: a', y :: b' => (x <? y)%N || ((x =? y)%N && nodeLtb a' b')
  end.

(** Modelled from the spec: the entry with the greater version wins, ties
    broken by the greater NodeID. *)
Definition beats (c old : NodeID * FileInfo) : bool :=
  (Version (snd old) <? Version (snd c))
  || ((Version (snd old) =? Version (snd c)) && nodeLtb (fst old) (fst c)).

Fixpoint offer (c : NodeID * FileInfo) (l : list (NodeID * FileInfo))
  : list (NodeID * FileInfo) :=
  match l with
  | [] => [c]
  | g :: l' =>
      match String.compare (Name (snd c)) (Name (snd g)) with
      | Lt => c :: l
      | Eq => (if beats c g then c else g) :: l'
      | Gt => g :: offer c l'
      end
  end.

(** The global view: the winning entry of every name, in name order. *)
Definition globalView (s : Set_) : list FileInfo :=
  snd <$> foldr offer []
    (flat_map (fun '(n, l) => (fun f => (n, f)) <$> l) (map_to_list (replicas s))).

(** Modelled from the spec: the names on which the replica lags the global
    view, the global entry not being Invalid. *)
Definition needView (s : Set_) (node : NodeID) : list FileInfo :=
  filter (fun g => Version (Get s node (Name g)) < Version g
                   ∧ IsInvalid (Flags g) = false) (globalView s).

Definition WithHave {S} (s : Set_) (node : NodeID) (fn : S -> FileInfo -> S * bool) (st : S) : S :=
  traverse fn st (have s node).
Definition WithHaveTruncated {S} (s : Set_) (node : NodeID)
    (fn : S -> FileInfoTruncated -> S * bool) (st : S) : S :=
  traverse fn st (truncate <$> have s node).
Definition WithGlobalTruncated {S} (s : Set_)
    (fn : S -> FileInfoTruncated -> S * bool) (st : S) : S :=
  traverse fn st (truncate <$> globalView s).
Definition WithNeed {S} (s : Set_) (node : NodeID) (fn : S -> FileInfo -> S * bool) (st : S) : S :=
  traverse fn st (needView s node).
Definition WithNeedTruncated {S} (s : Set_) (node : NodeID)
    (fn : S -> FileInfoTruncated -> S * bool) (st : S) : S :=
  traverse fn st (truncate <$> needView s node).

End files.

(** ** package config *)

Module config.
Import protocol.

Record NodeConfiguration := mkNodeCfg {
  nodeID : NodeID;
  nodeName : string;
  Introducer : bool
}.

Record RepositoryConfiguration := mkRepoCfg {
  ID : string;
  Directory : string;
  Nodes : list NodeID;
  IgnorePerms : bool;
  RescanIntervalS : Z
}.

(** The value of [config.RepositoryConfiguration{}]. *)
Definition zeroRepoCfg : RepositoryConfiguration := mkRepoCfg "" "" [] false 0.

(** [saves] counts the calls of [Save]. *)
Record Configuration := mkCfg {
  Repositories : list RepositoryConfiguration;
  cfgNodes : list NodeConfiguration;
  saves : nat
}.

(** Modelled from the spec: the configuration entry of a node, nil if the
    node is unknown. *)
Definition GetNodeConfiguration (c : Configuration) (id : NodeID) : option NodeConfiguration :=
  List.find (fun n => bool_decide (nodeID n = id)) (cfgNodes c).

Definition GetRepoConfiguration (c : Configuration) (id : string) : option RepositoryConfiguration :=
  List.find (fun r => String.eqb (ID r) id) (Repositories c).

Definition Save (c : Configuration) : Configuration :=
  mkCfg (Repositories c) (cfgNodes c) (S (saves c)).

(** [node.Name = name] through the pointer GetNodeConfiguration returned. *)
Fixpoint setName (id : NodeID) (name : string) (l : list NodeConfiguration)
  : list NodeConfiguration :=
  match l with
  | [] => []
  | n :: l' => if bool_decide (nodeID n = id)
               then mkNodeCfg (nodeID n) name (Introducer n) :: l'
               else n :: setName id name l'
  end.

(** [repoCfg.Nodes = append(repoCfg.Nodes, ...)] through the pointer
    GetRepoConfiguration returned. *)
Fixpoint shareWith (repo : string) (id : NodeID) (l : list RepositoryConfiguration)
  : list RepositoryConfiguration :=
  match l with
  | [] => []
  | r :: l' => if String.eqb (ID r) repo
               then mkRepoCfg (ID r) (Directory r) (Nodes r ++ [id]) (IgnorePerms r)
                      (RescanIntervalS r) :: l'
               else r :: shareWith repo id l'
  end.

End config.

(** ** The model *)

Inductive repoState := RepoIdle | RepoScanning | RepoSyncing | RepoCleaning.

#[export] Instance repoState_eq_dec : EqDecision repoState.
Proof. solve_decision. Defined.

Definition repoState_String (s : repoState) : string :=
  match s with
  | RepoIdle => "idle"
  | RepoScanning => "scanning"
  | RepoCleaning => "cleaning"
  | RepoSyncing => "syncing"
  end.

(** How many files to send in each Index/IndexUpdate message. *)
Definition indexTargetSize : Z := 250 * 1024.
Definition indexPerFileSize : Z := 250.
Definition IndexPerBlockSize : Z := 40.
Definition indexBatchSize : nat := 1000.

Module events.
Import protocol.

(** The events the model logs on [events.Default], with their payloads.
    The [from] and [duration] keys of StateChanged are optional. *)
Inductive Event :=
| RepoRejected (repo : string) (node : NodeID)
| RemoteIndexUpdated (node : NodeID) (repo : string) (items : Z) (version : Z)
| LocalIndexUpdated (repo name : string) (modified flags size : Z)
| NodeDisconnected (id : NodeID) (error : string)
| StateChanged (repo : string) (from : option repoState) (to : repoState)
               (duration : option Z).

End events.

Import protocol.

(** A message handed to a connection, and the connection as the sender sees
    it: the calls made on it so far, each with whether it succeeded, and the
    verdicts of the calls to come (a call beyond the list succeeds). *)
Inductive Message :=
| MsgIndex (repo : string) (batch : list FileInfo)
| MsgIndexUpdate (repo : string) (batch : list FileInfo).

Record Connection := mkConn {
  connID : NodeID;
  calls : list (Message * bool);
  verdicts : list bool
}.

Record RawConn := mkRaw { isTLS : bool }.

Record Model := mkModel {
  cfg : config.Configuration;
  repoCfgs : gmap string config.RepositoryConfiguration;
  repoFiles : gmap string files.Set_;
  repoNodes : gmap string (list NodeID);
  nodeRepos : gmap NodeID (list string);
  repoIgnores : gmap string ignore.Patterns;
  repoStates : gmap string repoState;
  repoStateChanged : gmap string Z;
  protoConn : gmap NodeID Connection;
  rawConn : gmap NodeID RawConn;
  nodeVer : gmap NodeID string;
  addedRepo : bool;
  started : bool
}.

Definition NewModel (c : config.Configuration) : Model :=
  mkModel c ∅ ∅ ∅ ∅ ∅ ∅ ∅ ∅ ∅ ∅ false false.

(** What [os.Stat] and [os.Open] find at a path. *)
Inductive DiskEntry :=
| File (content : list N)
| NotExist
| Unreadable.

(** The model together with the process-wide state it acts on: the lamport
    clock, the event log, the wall clock (the n-th reading of [time.Now] is
    [wall n]) and the disk, addressed by directory and name. *)
Record World := mkWorld {
  mdl : Model;
  lamportDefault : Z;
  eventsDefault : list events.Event;
  timeReads : nat;
  wall : nat -> Z;
  disk : string -> string -> DiskEntry
}.

(** ** A state monad with panics *)

Definition M (A : Type) : Type := World -> option (A * World).

Definition ret {A} (a : A) : M A := fun w => Some (a, w).
Definition bind {A B} (c : M A) (k : A -> M B) : M B :=
  fun w => match c w with Some (a, w') => k a w' | None => None end.
Definition panic {A} : M A := fun _ => None.
Definition gets {A} (f : World -> A) : M A := fun w => Some (f w, w).
Definition modify (f : World -> World) : M unit := fun w => Some (tt, f w).

Notation "'do' x <- c ; k" := (bind c (fun x => k))
  (at level 10, x name, c at level 100, k at level 200).
Notation "'run' c ; k" := (bind c (fun _ => k))
  (at level 10, c at level 100, k at level 200).

Definition setModel (f : Model -> Model) : M unit :=
  modify (fun w => mkWorld (f (mdl w)) (lamportDefault w) (eventsDefault w)
                           (timeReads w) (wall w) (disk w)).

(** [events.Default.Log] *)
Definition Log (e : events.Event) : M unit :=
  modify (fun w => mkWorld (mdl w) (lamportDefault w) (eventsDefault w ++ [e])
                           (timeReads w) (wall w) (disk w)).

(** [lamport.Default.Tick] *)
Definition Tick (v : Z) : M Z :=
  fun w => let c := lamport.Tick (lamportDefault w) v in
           Some (c, mkWorld (mdl w) c (eventsDefault w) (timeReads w) (wall w) (disk w)).

(** [time.Now] *)
Definition Now : M Z :=
  fun w => Some (wall w (timeReads w),
                 mkWorld (mdl w) (lamportDefault w) (eventsDefault w)
                         (S (timeReads w)) (wall w) (disk w)).

(** ** Request *)

(** The errors [Request] returns: the two of the model, and any error of
    the packages os and io. *)
Inductive error := ErrNoSuchFile | ErrInvalid | ErrOS.

(** Request returns the specified data segment by reading it from local disk. *)
Definition Request (nodeID : NodeID) (repo name : string) (offset size : Z)
  : M (list N + error) :=
  do r <- gets (fun w => repoFiles (mdl w) !! repo);
  match r with
  | None => ret (inr ErrNoSuchFile)
  | Some r =>
      let lf := files.Get r LocalNodeID name in
      if IsInvalid (Flags lf) || IsDeleted (Flags lf) then ret (inr ErrInvalid)
      else if Size lf <? offset then ret (inr ErrNoSuchFile)
      else
        do dir <- gets (fun w =>
          config.Directory (default config.zeroRepoCfg (repoCfgs (mdl w) !! repo)));
        do fd <- gets (fun w => disk w dir name);
        match fd with
        | File content =>
            (* buf := make([]byte, size); fd.ReadAt(buf, offset) *)
            if size <? 0 then panic
            else if offset <? 0 then ret (inr ErrOS)
            else if size =? 0 then ret (inl [])
            else if offset + size <=? Z.of_nat (length content)
                 then ret (inl (take (Z.to_nat size) (drop (Z.to_nat offset) content)))
                 else ret (inr ErrOS)
        | NotExist | Unreadable => ret (inr ErrOS)
        end
  end.

(** The entry of the local replica has the Invalid or Deleted flag set. *)
Definition flagged (lf : FileInfo) : bool :=
  IsInvalid (Flags lf) || IsDeleted (Flags lf).

(** The statement of C1 at one call: NoSuchFile exactly when the repo is
    unknown, the name is absent locally or the offset exceeds the entry's
    size; Invalid when the entry is flagged; no change on any error. *)
Definition Request_spec_as_stated (w : World) (nodeID : NodeID) (repo name : string)
    (offset size : Z) : Prop :=
  forall res w', Request nodeID repo name offset size w = Some (res, w') ->
    (res = inr ErrNoSuchFile <->
       match repoFiles (mdl w) !! repo with
       | None => True
       | Some r =>
           files.lookupName name (files.have r LocalNodeID) = None
           \/ Size (files.Get r LocalNodeID name) < offset
       end)
    /\ (forall r, repoFiles (mdl w) !! repo = Some r ->
          flagged (files.Get r LocalNodeID name) = true -> res = inr ErrInvalid)
    /\ (forall e, res = inr e -> w' = w).

(** ** Field updates of the model *)

Definition with_cfg (v : config.Configuration) (m : Model) : Model :=
  mkModel v (repoCfgs m) (repoFiles m) (repoNodes m) (nodeRepos m) (repoIgnores m)
    (repoStates m) (repoStateChanged m) (protoConn m) (rawConn m) (nodeVer m)
    (addedRepo m) (started m).
Definition with_repoCfgs (v : gmap string config.RepositoryConfiguration) (m : Model) : Model :=
  mkModel (cfg m) v (repoFiles m) (repoNodes m) (nodeRepos m) (repoIgnores m)
    (repoStates m) (repoStateChanged m) (protoConn m) (rawConn m) (nodeVer m)
    (addedRepo m) (started m).
Definition with_repoFiles (v : gmap string files.Set_) (m : Model) : Model :=
  mkModel (cfg m) (repoCfgs m) v (repoNodes m) (nodeRepos m) (repoIgnores m)
    (repoStates m) (repoStateChanged m) (protoConn m) (rawConn m) (nodeVer m)
    (addedRepo m) (started m).
Definition with_repoNodes (v : gmap string (list NodeID)) (m : Model) : Model :=
  mkModel (cfg m) (repoCfgs m) (repoFiles m) v (nodeRepos m) (repoIgnores m)
    (repoStates m) (repoStateChanged m) (protoConn m) (rawConn m) (nodeVer m)
    (addedRepo m) (started m).
Definition with_nodeRepos (v : gmap NodeID (list string)) (m : Model) : Model :=
  mkModel (cfg m) (repoCfgs m) (repoFiles m) (repoNodes m) v (repoIgnores m)
    (repoStates m) (repoStateChanged m) (protoConn m) (rawConn m) (nodeVer m)
    (addedRepo m) (started m).
Definition with_repoIgnores (v : gmap string ignore.Patterns) (m : Model) : Model :=
  mkModel (cfg m) (repoCfgs m) (repoFiles m) (repoNodes m) (nodeRepos m) v
    (repoStates m) (repoStateChanged m) (protoConn m) (rawConn m) (nodeVer m)
    (addedRepo m) (started m).
Definition with_repoStates (v : gmap string repoState) (m : Model) : Model :=
  mkModel (cfg m) (repoCfgs m) (repoFiles m) (repoNodes m) (nodeRepos m) (repoIgnores m)
    v (repoStateChanged m) (protoConn m) (rawConn m) (nodeVer m)
    (addedRepo m) (started m).
Definition with_repoStateChanged (v : gmap string Z) (m : Model) : Model :=
  mkModel (cfg m) (repoCfgs m) (repoFiles m) (repoNodes m) (nodeRepos m) (repoIgnores m)
    (repoStates m) v (protoConn m) (rawConn m) (nodeVer m)
    (addedRepo m) (started m).
Definition with_conns (p : gmap NodeID Connection) (r : gmap NodeID RawConn)
    (v : gmap NodeID string) (m : Model) : Model :=
  mkModel (cfg m) (repoCfgs m) (repoFiles m) (repoNodes m) (nodeRepos m) (repoIgnores m)
    (repoStates m) (repoStateChanged m) p r v (addedRepo m) (started m).
Definition with_addedRepo (v : bool) (m : Model) : Model :=
  mkModel (cfg m) (repoCfgs m) (repoFiles m) (repoNodes m) (nodeRepos m) (repoIgnores m)
    (repoStates m) (repoStateChanged m) (protoConn m) (rawConn m) (nodeVer m)
    v (started m).

Definition setClock (c : Z) : M unit :=
  modify (fun w => mkWorld (mdl w) c (eventsDefault w) (timeReads w) (wall w) (disk w)).

(** ** Index and IndexUpdate *)

Fixpoint containsRepo (repo : string) (l : list string) : bool :=
  match l with
  | [] => false
  | nrepo :: l' => if String.eqb nrepo repo then true else containsRepo repo l'
  end.

Definition repoSharedWith (m : Model) (repo : string) (nodeID : NodeID) : bool :=
  containsRepo repo (default [] (nodeRepos m !! nodeID)).

(** Case analysis that keeps the equation between the scrutinee and its value. *)
Definition inspect {A} (a : A) : {b : A | a = b} := exist _ a eq_refl.

(** The receive loop of Index and IndexUpdate, from index [i] on: every
    entry examined is ticked into the clock; an ignored entry is overwritten
    by the last one and the slice shortened by one. *)
Equations? dropIgnored (ignores : ignore.Patterns) (i : nat) (fs : list FileInfo) (clock : Z)
  : list FileInfo * Z by wf (length fs - i)%nat lt :=
  dropIgnored ignores i fs clock with inspect (fs !! i) => {
    | exist _ None _ => (fs, clock);
    | exist _ (Some f) Hf with inspect (ignore.Match ignores (Name f)) => {
        | exist _ true _ =>
            dropIgnored ignores i
              (take (length fs - 1) (<[i := default f (last fs)]> fs))
              (lamport.Tick clock (Version f));
        | exist _ false _ =>
            dropIgnored ignores (S i) fs (lamport.Tick clock (Version f)) } }.
Proof.
  all: apply lookup_lt_Some in Hf.
  - rewrite length_take, length_insert. lia.
  - lia.
Qed.

(** Index is called when a new node is connected and we receive their full index. *)
Definition Index (nodeID : NodeID) (repo : string) (fs : list FileInfo) : M unit :=
  do shared <- gets (fun w => repoSharedWith (mdl w) repo nodeID);
  if negb shared then Log (events.RepoRejected repo nodeID)
  else
    do files <- gets (fun w => repoFiles (mdl w) !! repo);
    do ignores <- gets (fun w => default ignore.nilPatterns (repoIgnores (mdl w) !! repo));
    match files with
    | None => panic
    | Some files =>
        do clock <- gets lamportDefault;
        let '(fs', clock') := dropIgnored ignores 0 fs clock in
        run setClock clock';
        let files' := files.Replace files nodeID fs' in
        run setModel (fun m => with_repoFiles (<[repo := files']> (repoFiles m)) m);
        Log (events.RemoteIndexUpdated nodeID repo (Z.of_nat (length fs'))
               (files.LocalVersion files' nodeID))
    end.

(** IndexUpdate is called for incremental updates to connected nodes' indexes. *)
Definition IndexUpdate (nodeID : NodeID) (repo : string) (fs : list FileInfo) : M unit :=
  do shared <- gets (fun w => repoSharedWith (mdl w) repo nodeID);
  if negb shared then ret tt
  else
    do files <- gets (fun w => repoFiles (mdl w) !! repo);
    do ignores <- gets (fun w => default ignore.nilPatterns (repoIgnores (mdl w) !! repo));
    match files with
    | None => panic
    | Some files =>
        do clock <- gets lamportDefault;
        let '(fs', clock') := dropIgnored ignores 0 fs clock in
        run setClock clock';
        let files' := files.Update files nodeID fs' in
        run setModel (fun m => with_repoFiles (<[repo := files']> (repoFiles m)) m);
        Log (events.RemoteIndexUpdated nodeID repo (Z.of_nat (length fs'))
               (files.LocalVersion files' nodeID))
    end.

(** ** ClusterConfig *)

(** A loop whose body may panic. *)
Fixpoint forEach {A} (l : list A) (body : A -> M unit) : M unit :=
  match l with
  | [] => ret tt
  | x :: l' => run body x; forEach l' body
  end.

(** The body of the [nextNode] loop: [changed] is the local variable of
    ClusterConfig, [repoID] the announced repository. *)
Definition introduceNode (nodeID : NodeID) (repoID : string) (node : Node)
    (changed : bool) : M bool :=
  let id := copyNodeID (nID node) in
  do known <- gets (fun w => config.GetNodeConfiguration (cfg (mdl w)) id);
  do changed <-
    match known with
    | None =>
        let newNodeCfg :=
          config.mkNodeCfg id "" (negb (Z.land (nFlags node) FlagIntroducer =? 0)) in
        run setModel (fun m =>
          with_cfg (config.mkCfg (config.Repositories (cfg m))
                      (config.cfgNodes (cfg m) ++ [newNodeCfg])
                      (config.saves (cfg m))) m);
        ret true
    | Some _ => ret changed
    end;
  do shared <- gets (fun w => containsRepo repoID (default [] (nodeRepos (mdl w) !! id)));
  if shared then ret changed
  else
    run setModel (fun m =>
      with_nodeRepos (<[id := default [] (nodeRepos m !! id) ++ [repoID]]> (nodeRepos m)) m);
    run setModel (fun m =>
      with_repoNodes (<[repoID := default [] (repoNodes m !! repoID) ++ [id]]> (repoNodes m)) m);
    do repoCfg <- gets (fun w => config.GetRepoConfiguration (cfg (mdl w)) repoID);
    match repoCfg with
    | None => panic
    | Some _ =>
        run setModel (fun m =>
          with_cfg (config.mkCfg (config.shareWith repoID id (config.Repositories (cfg m)))
                      (config.cfgNodes (cfg m)) (config.saves (cfg m))) m);
        ret true
    end.

Fixpoint introduceNodes (nodeID : NodeID) (repoID : string) (nodes : list Node)
    (changed : bool) : M bool :=
  match nodes with
  | [] => ret changed
  | node :: nodes' =>
      do changed <- introduceNode nodeID repoID node changed;
      introduceNodes nodeID repoID nodes' changed
  end.

Fixpoint introduceRepos (nodeID : NodeID) (repos : list Repository) (changed : bool)
  : M bool :=
  match repos with
  | [] => ret changed
  | repo :: repos' =>
      do have <- gets (fun w => repoNodes (mdl w) !! rID repo);
      match have with
      | None => introduceRepos nodeID repos' changed
      | Some _ =>
          do changed <- introduceNodes nodeID (rID repo) (rNodes repo) changed;
          introduceRepos nodeID repos' changed
      end
  end.

Definition saveCfg : M unit :=
  setModel (fun m => with_cfg (config.Save (cfg m)) m).

Definition ClusterConfig (nodeID : NodeID) (cm : ClusterConfigMessage) : M unit :=
  let ver := if String.eqb (ClientName cm) "syncthing" then ClientVersion cm
             else (ClientName cm +:+ " " +:+ ClientVersion cm)%string in
  run setModel (fun m =>
    with_conns (protoConn m) (rawConn m) (<[nodeID := ver]> (nodeVer m)) m);
  let name := GetOption cm "name" in
  run (if negb (String.eqb name "") then
         do node <- gets (fun w => config.GetNodeConfiguration (cfg (mdl w)) nodeID);
         match node with
         | Some n =>
             if String.eqb (config.nodeName n) "" then
               run setModel (fun m =>
                 with_cfg (config.mkCfg (config.Repositories (cfg m))
                             (config.setName nodeID name (config.cfgNodes (cfg m)))
                             (config.saves (cfg m))) m);
               saveCfg
             else ret tt
         | None => ret tt
         end
       else ret tt);
  do node <- gets (fun w => config.GetNodeConfiguration (cfg (mdl w)) nodeID);
  match node with
  | None => panic
  | Some n =>
      if config.Introducer n then
        do changed <- introduceRepos nodeID (cmRepositories cm) false;
        if changed then saveCfg else ret tt
      else ret tt
  end.

(** ** Close *)

Definition Close (node : NodeID) (err : string) : M unit :=
  run Log (events.NodeDisconnected node err);
  do repos <- gets (fun w => default [] (nodeRepos (mdl w) !! node));
  run forEach repos (fun repo =>
    do s <- gets (fun w => repoFiles (mdl w) !! repo);
    match s with
    | None => panic
    | Some s =>
        setModel (fun m => with_repoFiles (<[repo := files.Replace s node []]> (repoFiles m)) m)
    end);
  setModel (fun m =>
    with_conns (delete node (protoConn m)) (delete node (rawConn m))
               (delete node (nodeVer m)) m).

(** ** AddRepo *)

(** The value of [protocol.NodeID{}]. *)
Definition zeroNodeID : NodeID := replicate 32 0%N.

(** The loop [for i, node := range cfg.Nodes], from index [i] on. *)
Fixpoint addRepoNodes (repoID : string) (i : nat) (nodes : list NodeID) : M unit :=
  match nodes with
  | [] => ret tt
  | node :: nodes' =>
      run setModel (fun m =>
        with_repoNodes
          (<[repoID := <[i := node]> (default [] (repoNodes m !! repoID))]> (repoNodes m)) m);
      run setModel (fun m =>
        with_nodeRepos (<[node := default [] (nodeRepos m !! node) ++ [repoID]]> (nodeRepos m)) m);
      addRepoNodes repoID (S i) nodes'
  end.

Definition AddRepo (c : config.RepositoryConfiguration) : M unit :=
  do isStarted <- gets (fun w => started (mdl w));
  if isStarted then panic
  else if (String.length (config.ID c) =? 0)%nat then panic
  else
    run setModel (fun m => with_repoCfgs (<[config.ID c := c]> (repoCfgs m)) m);
    run setModel (fun m => with_repoFiles (<[config.ID c := files.NewSet]> (repoFiles m)) m);
    run setModel (fun m =>
      with_repoNodes
        (<[config.ID c := replicate (length (config.Nodes c)) zeroNodeID]> (repoNodes m)) m);
    run addRepoNodes (config.ID c) 0 (config.Nodes c);
    setModel (with_addedRepo true).

(** ** The repository state machine *)

Definition setState (repo : string) (state : repoState) : M unit :=
  do oldState <- gets (fun w => default RepoIdle (repoStates (mdl w) !! repo));
  do changed <- gets (fun w => repoStateChanged (mdl w) !! repo);
  if bool_decide (state ≠ oldState) then
    run setModel (fun m => with_repoStates (<[repo := state]> (repoStates m)) m);
    do now <- Now;
    run setModel (fun m => with_repoStateChanged (<[repo := now]> (repoStateChanged m)) m);
    match changed with
    | Some t =>
        do now' <- Now;
        Log (events.StateChanged repo (Some oldState) state (Some (now' - t)))
    | None => Log (events.StateChanged repo None state None)
    end
  else ret tt.

(** ** Sizes and completion *)

(** Go's conversion [float64(n)] of an integer: the nearest binary64 value. *)
Definition float64 (z : Z) : float :=
  SF2Prim (binary_normalize prec emax z 0 false).

Definition sizeOfFile {F} `{FileIntf F} (f : F) : Z * Z * Z :=
  let files := if negb (isDeleted f) then int64 (0 + 1) else 0 in
  let deleted := if negb (isDeleted f) then 0 else int64 (0 + 1) in
  (files, deleted, int64 (0 + Size f)).

(** Returns the completion status, in percent, for the given node and repo. *)
Definition Completion (m : Model) (node : NodeID) (repo : string) : float :=
  match repoFiles m !! repo with
  | None => float64 0
  | Some rf =>
      let tot := files.WithGlobalTruncated rf (fun tot f =>
        (if negb (isDeleted f) then int64 (tot + Size f) else tot, true)) 0 in
      if tot =? 0 then float64 100
      else
        let need := files.WithNeedTruncated rf node (fun need f =>
          (if negb (isDeleted f) then int64 (need + Size f) else need, true)) 0 in
        PrimFloat.mul (float64 100)
          (PrimFloat.sub (float64 1) (PrimFloat.div (float64 need) (float64 tot)))
  end.

(** GlobalSize returns the number of files, deleted files and total bytes
    for all files in the global model. *)
Definition GlobalSize (m : Model) (repo : string) : Z * Z * Z :=
  match repoFiles m !! repo with
  | Some rf =>
      files.WithGlobalTruncated rf (fun '(files, deleted, bytes) f =>
        let '(fs, de, by_) := sizeOfFile f in
        ((int64 (files + fs), int64 (deleted + de), int64 (bytes + by_)), true)) (0, 0, 0)
  | None => (0, 0, 0)
  end.

(** LocalSize returns the number of files, deleted files and total bytes
    for all files in the local repository. *)
Definition LocalSize (m : Model) (repo : string) : Z * Z * Z :=
  match repoFiles m !! repo with
  | Some rf =>
      files.WithHaveTruncated rf LocalNodeID (fun '(files, deleted, bytes) f =>
        if isInvalid f then ((files, deleted, bytes), true)
        else
          let '(fs, de, by_) := sizeOfFile f in
          ((int64 (files + fs), int64 (deleted + de), int64 (bytes + by_)), true)) (0, 0, 0)
  | None => (0, 0, 0)
  end.

(** NeedSize returns the number and total size of currently needed files. *)
Definition NeedSize (m : Model) (repo : string) : Z * Z :=
  match repoFiles m !! repo with
  | Some rf =>
      files.WithNeedTruncated rf LocalNodeID (fun '(files, bytes) f =>
        let '(fs, de, by_) := sizeOfFile f in
        ((int64 (files + int64 (fs + de)), int64 (bytes + by_)), true)) (0, 0)
  | None => (0, 0)
  end.

(** ** NeedFilesRepoLimited *)

(** NeedFiles returns the list of currently needed files, stopping at
    maxFiles files or maxBlocks blocks. Limits <= 0 are ignored.

    The outer [None] is a run-time panic ([make] with a negative capacity);
    the inner [None] is the nil slice. *)
Definition NeedFilesRepoLimited (m : Model) (repo : string) (maxFiles maxBlocks : Z)
  : option (option (list FileInfo)) :=
  match repoFiles m !! repo with
  | Some rf =>
      (* fs := make([]protocol.FileInfo, 0, maxFiles) *)
      if maxFiles <? 0 then None
      else
        let '(fs, _) := files.WithNeed rf LocalNodeID (fun '(fs, nblocks) fi =>
          let fs := fs ++ [fi] in
          let nblocks := int64 (nblocks + Z.of_nat (length (Blocks fi))) in
          ((fs, nblocks),
           ((maxFiles <=? 0) || (Z.of_nat (length fs) <? maxFiles))
           && ((maxBlocks <=? 0) || (nblocks <? maxBlocks)))) ([], 0) in
        Some (Some fs)
  | None => Some None
  end.

Definition totalBlocks (fs : list FileInfo) : Z :=
  foldr (fun f acc => Z.of_nat (length (Blocks f)) + acc) 0 fs.

(** ** The index sender *)

(** A call on the connection: recorded, and answered by the next verdict. *)
Definition send (msg : Message) (conn : Connection) : Connection * bool :=
  match verdicts conn with
  | [] => (mkConn (connID conn) (calls conn ++ [(msg, true)]) [], true)
  | ok :: rest => (mkConn (connID conn) (calls conn ++ [(msg, ok)]) rest, ok)
  end.

(** The variables the visitor of sendIndexTo captures; [sErr] is [err != nil]. *)
Record sender := mkSender {
  sBatch : list FileInfo;
  sCurrentBatchSize : Z;
  sMaxLocalVer : Z;
  sErr : bool;
  sInitial : bool;
  sConn : Connection
}.

Definition sendIndexVisit (minLocalVer : Z) (repo : string) (ignores : ignore.Patterns)
    (st : sender) (f : FileInfo) : sender * bool :=
  if LocalVersion f <=? minLocalVer then (st, true)
  else
    let st := if sMaxLocalVer st <? LocalVersion f
              then mkSender (sBatch st) (sCurrentBatchSize st) (LocalVersion f)
                     (sErr st) (sInitial st) (sConn st)
              else st in
    if ignore.Match ignores (Name f) then (st, true)
    else
      let flushed :=
        if (length (sBatch st) =? indexBatchSize)%nat
           || (indexTargetSize <? sCurrentBatchSize st)
        then
          let msg := if sInitial st then MsgIndex repo (sBatch st)
                     else MsgIndexUpdate repo (sBatch st) in
          let '(conn, ok) := send msg (sConn st) in
          if ok then inl (mkSender [] 0 (sMaxLocalVer st) (sErr st) false conn)
          else inr (mkSender (sBatch st) (sCurrentBatchSize st) (sMaxLocalVer st)
                      true (sInitial st) conn)
        else inl st in
      match flushed with
      | inr st => (st, false)
      | inl st =>
          (mkSender (sBatch st ++ [f])
             (int64 (sCurrentBatchSize st
                     + (indexPerFileSize + Z.of_nat (length (Blocks f)) * IndexPerBlockSize)))
             (sMaxLocalVer st) (sErr st) (sInitial st) (sConn st), true)
      end.

(** Returns the new watermark, whether an error occurred, and the connection. *)
Definition sendIndexTo (initial : bool) (minLocalVer : Z) (conn : Connection)
    (repo : string) (fs : files.Set_) (ignores : ignore.Patterns)
  : Z * bool * Connection :=
  let st := files.WithHave fs LocalNodeID (sendIndexVisit minLocalVer repo ignores)
              (mkSender [] 0 0 false initial conn) in
  if sInitial st && negb (sErr st) then
    let '(conn, ok) := send (MsgIndex repo (sBatch st)) (sConn st) in
    (sMaxLocalVer st, negb ok, conn)
  else if (0 <? length (sBatch st))%nat && negb (sErr st) then
    let '(conn, ok) := send (MsgIndexUpdate repo (sBatch st)) (sConn st) in
    (sMaxLocalVer st, negb ok, conn)
  else (sMaxLocalVer st, sErr st, sConn st).

(** ** The scanner driver *)

(** A traversal whose visitor acts on the world. *)
Fixpoint traverseM {A S : Type} (fn : S -> A -> M (S * bool)) (st : S) (l : list A) : M S :=
  match l with
  | [] => ret st
  | x :: l' =>
      do r <- fn st x;
      if snd r then traverseM fn (fst r) l' else ret (fst r)
  end.

(** [fs.Update(protocol.LocalNodeID, batch)] on the set of the repository. *)
Definition updateLocalSet (repo : string) (batch : list FileInfo) : M unit :=
  setModel (fun m =>
    with_repoFiles (alter (fun s => files.Update s LocalNodeID batch) repo (repoFiles m)) m).

Definition batchSize : nat := 100.

(** The first pass: the files the walker delivers are committed in batches. *)
Fixpoint scanFirstPass (repo : string) (fchan : list FileInfo) (batch : list FileInfo)
  : M (list FileInfo) :=
  match fchan with
  | [] => ret batch
  | f :: fchan' =>
      run Log (events.LocalIndexUpdated repo (Name f) (Modified f) (Flags f) (Size f));
      do batch <- (if (length batch =? batchSize)%nat
                   then run updateLocalSet repo batch; ret []
                   else ret batch);
      scanFirstPass repo fchan' (batch ++ [f])
  end.

(** The visitor of the second pass; it captures [batch] and [seenPrefix]. *)
Definition scanVisit (repo sub dir : string) (ignores : ignore.Patterns)
    (st : list FileInfo * bool) (f : FileInfoTruncated)
  : M (list FileInfo * bool * bool) :=
  let '(batch, seenPrefix) := st in
  if negb (String.prefix sub (tName f)) then ret (batch, seenPrefix, negb seenPrefix)
  else if negb (IsDeleted (tFlags f)) then
    if isInvalid f then ret (batch, true, true)
    else
      do batch <- (if (length batch =? batchSize)%nat
                   then run updateLocalSet repo batch; ret []
                   else ret batch);
      if ignore.Match ignores (tName f) then
        let nf := mkFile (tName f) (Z.lor (tFlags f) FlagInvalid) (tModified f)
                    (tVersion f) 0 [] in
        run Log (events.LocalIndexUpdated repo (tName f) (tModified f) (tFlags f) (Size f));
        ret (batch ++ [nf], true, true)
      else
        do st <- gets (fun w => disk w dir (tName f));
        match st with
        | NotExist =>
            do v <- Tick (tVersion f);
            let nf := mkFile (tName f) (Z.lor (tFlags f) FlagDeleted) (tModified f) v 0 [] in
            run Log (events.LocalIndexUpdated repo (tName f) (tModified f) (tFlags f) (Size f));
            ret (batch ++ [nf], true, true)
        | File _ | Unreadable => ret (batch, true, true)
        end
  else ret (batch, true, true).

(** The second pass over the local replica, as it stands when the pass starts. *)
Definition scanSecondPass (repo sub dir : string) (ignores : ignore.Patterns) : M unit :=
  do snapshot <- gets (fun w =>
    files.have (default files.NewSet (repoFiles (mdl w) !! repo)) LocalNodeID);
  do st <- traverseM (scanVisit repo sub dir ignores) ([], false) (truncate <$> snapshot);
  if (0 <? length (fst st))%nat then updateLocalSet repo (fst st) else ret tt.

(** ScanRepoSub.  The collaborators' answers are arguments: [escapes] is the
    outcome of the test on the cleaned path, [ignores] what [ignore.Load]
    read from [.stignore], [walk] what the walker delivered ([None]: it
    failed).  The result is the error, if any. *)
Definition ScanRepoSub (repo sub : string) (escapes : bool) (ignores : ignore.Patterns)
    (walk : option (list FileInfo)) : M (option string) :=
  if escapes then ret (Some "invalid subpath")
  else
    do fs <- gets (fun w => repoFiles (mdl w) !! repo);
    do dir <- gets (fun w =>
      config.Directory (default config.zeroRepoCfg (repoCfgs (mdl w) !! repo)));
    run setModel (fun m => with_repoIgnores (<[repo := ignores]> (repoIgnores m)) m);
    match fs with
    | None => ret (Some "no such repo")
    | Some _ =>
        run setState repo RepoScanning;
        match walk with
        | None => ret (Some "walk failed")
        | Some fchan =>
            do batch <- scanFirstPass repo fchan [];
            run (if (0 <? length batch)%nat then updateLocalSet repo batch else ret tt);
            run scanSecondPass repo sub dir ignores;
            run setState repo RepoIdle;
            ret None
        end
    end.

(** ** Override *)

(** The visitor of Override; it captures [batch].  [fs.Get] reads the set
    as it stands, batches committed so far included. *)
Definition overrideVisit (repo : string) (batch : list FileInfo) (need : FileInfo)
  : M (list FileInfo * bool) :=
  do batch <- (if (length batch =? indexBatchSize)%nat
               then run updateLocalSet repo batch; ret []
               else ret batch);
  do have <- gets (fun w =>
    files.Get (default files.NewSet (repoFiles (mdl w) !! repo)) LocalNodeID (Name need));
  let need :=
    if negb (String.eqb (Name have) (Name need)) then
      (* We are missing the file *)
      mkFile (Name need) (Z.lor (Flags need) FlagDeleted) (Modified need) (Version need)
        (LocalVersion need) []
    else
      (* We have the file, replace with our version *)
      have in
  do v <- Tick (Version need);
  ret (batch ++ [mkFile (Name need) (Flags need) (Modified need) v 0 (Blocks need)], true).

(** Override.  The need view is traversed as it stands when the traversal
    starts; without an index set for the repo the traversal dereferences a
    nil pointer. *)
Definition Override (repo : string) : M unit :=
  do fs <- gets (fun w => repoFiles (mdl w) !! repo);
  run setState repo RepoScanning;
  match fs with
  | None => panic
  | Some _ =>
      do snapshot <- gets (fun w =>
        files.needView (default files.NewSet (repoFiles (mdl w) !! repo)) LocalNodeID);
      do batch <- traverseM (overrideVisit repo) [] snapshot;
      run (if (0 <? length batch)%nat then updateLocalSet repo batch else ret tt);
      setState repo RepoIdle
  end.

(** ** The announcement to a peer *)

(** The inner loop of clusterConfig over the nodes that share one repo;
    [GetNodeConfiguration] returns nil for a node without an entry, and the
    read of its Introducer field panics. *)
Fixpoint announceNodes (c : config.Configuration) (nodes : list NodeID) (crNodes : list Node)
  : option (list Node) :=
  match nodes with
  | [] => Some crNodes
  | node :: nodes' =>
      match config.GetNodeConfiguration c node with
      | None => None
      | Some nodeCfg =>
          let flags := FlagShareTrusted in
          let flags := if config.Introducer nodeCfg then Z.lor flags FlagIntroducer
                       else flags in
          announceNodes c nodes' (crNodes ++ [mkNode node flags])
      end
  end.

(** The outer loop over the repos of the peer. *)
Fixpoint announceRepos (m : Model) (repos : list string) (cmRepos : list Repository)
  : option (list Repository) :=
  match repos with
  | [] => Some cmRepos
  | repo :: repos' =>
      match announceNodes (cfg m) (default [] (repoNodes m !! repo)) [] with
      | None => None
      | Some crNodes => announceRepos m repos' (cmRepos ++ [mkRepository repo crNodes])
      end
  end.

(** clusterConfig returns a ClusterConfigMessage that is correct for the
    given peer node.  [clientName], [clientVersion] and [nodeName] are the
    model's fields of these names, which it alone reads; [None] is a panic. *)
Definition clusterConfig (clientName clientVersion nodeName : string) (m : Model)
    (node : NodeID) : option ClusterConfigMessage :=
  match announceRepos m (default [] (nodeRepos m !! node)) [] with
  | None => None
  | Some repos =>
      Some (mkClusterConfig clientName clientVersion [("name"%string, nodeName)] repos)
  end.

(** State returns the name of the repo's state and the time of its last
    change ([None]: the zero time). *)
Definition State (m : Model) (repo : string) : string * option Z :=
  (repoState_String (default RepoIdle (repoStates m !! repo)), repoStateChanged m !! repo).

(** ** Reachable states *)

(** The operations that act on the model. *)
Inductive Op :=
| OpAddRepo (c : config.RepositoryConfiguration)
| OpClusterConfig (nodeID : NodeID) (cm : ClusterConfigMessage)
| OpClose (node : NodeID) (err : string)
| OpIndex (nodeID : NodeID) (repo : string) (fs : list FileInfo)
| OpIndexUpdate (nodeID : NodeID) (repo : string) (fs : list FileInfo)
| OpRequest (nodeID : NodeID) (repo name : string) (offset size : Z)
| OpSetState (repo : string) (state : repoState)
| OpScanRepoSub (repo sub : string) (escapes : bool) (ignores : ignore.Patterns)
    (walk : option (list FileInfo)).

Definition exec (op : Op) : M unit :=
  match op with
  | OpAddRepo c => AddRepo c
  | OpClusterConfig nodeID cm => ClusterConfig nodeID cm
  | OpClose node err => Close node err
  | OpIndex nodeID repo fs => Index nodeID repo fs
  | OpIndexUpdate nodeID repo fs => IndexUpdate nodeID repo fs
  | OpRequest nodeID repo name offset size =>
      run Request nodeID repo name offset size; ret tt
  | OpSetState repo state => setState repo state
  | OpScanRepoSub repo sub escapes ignores walk =>
      run ScanRepoSub repo sub escapes ignores walk; ret tt
  end.

Fixpoint execAll (ops : list Op) : M unit :=
  match ops with
  | [] => ret tt
  | op :: ops' => run exec op; execAll ops'
  end.

(** The world a fresh model starts in. *)
Definition initWorld (c : config.Configuration) (wallClock : nat -> Z)
    (d : string -> string -> DiskEntry) : World :=
  mkWorld (NewModel c) 0 [] 0 wallClock d.

(** The sharing graph is symmetric. *)
Definition symmetric (m : Model) : Prop :=
  forall (r : string) (n : NodeID),
    n ∈ default [] (repoNodes m !! r) <-> r ∈ default [] (nodeRepos m !! n).

(** The repository identifiers the operations add. *)
Fixpoint addedIDs (ops : list Op) : list string :=
  match ops with
  | [] => []
  | OpAddRepo c :: ops' => config.ID c :: addedIDs ops'
  | _ :: ops' => addedIDs ops'
  end.

(** ** Concrete states *)

(** A peer, a repository it shares, and two files. *)
Definition nodeN : NodeID := replicate 32 1%N.
Definition nodeM : NodeID := replicate 32 2%N.

Definition photosCfg : config.RepositoryConfiguration :=
  config.mkRepoCfg "photos" "/data/photos" [nodeN] false 60.

Definition a_jpg : FileInfo :=
  mkFile "a.jpg" 420 1400000000 1 0 [mkBlock 0 10 []].
Definition b_jpg : FileInfo :=
  mkFile "b.jpg" 420 1400000000 7 0 [mkBlock 0 5 []].

Definition noDisk : string -> string -> DiskEntry := fun _ _ => NotExist.

(** The disk holds /data/photos/a.jpg, ten bytes. *)
Definition photosDisk : string -> string -> DiskEntry :=
  fun dir name =>
    if String.eqb dir "/data/photos" && String.eqb name "a.jpg"
    then File [48; 49; 50; 51; 52; 53; 54; 55; 56; 57]%N
    else NotExist.

Definition withDisk (d : string -> string -> DiskEntry) (w : World) : World :=
  mkWorld (mdl w) (lamportDefault w) (eventsDefault w) (timeReads w) (wall w) d.

Definition cfg0 : config.Configuration :=
  config.mkCfg [photosCfg] [config.mkNodeCfg nodeN "" false] 0.

Definition wall0 : nat -> Z := fun n => 1000 * Z.of_nat n.

Definition world0 : World := initWorld cfg0 wall0 photosDisk.

(** The world an operation leaves, or the world itself if it panics. *)
Definition after (ops : list Op) (w : World) : World :=
  match execAll ops w with
  | Some (_, w') => w'
  | None => w
  end.

(** The repository is added and the peer's index of one file received. *)
Definition world1 : World :=
  Eval vm_compute in after [OpAddRepo photosCfg; OpIndex nodeN "photos" [b_jpg]] world0.

(** The pattern list of an ignore file that holds [*.jpg]. *)
Definition jpgPatterns : ignore.Patterns :=
  ignore.mkPatterns (fun name =>
    String.eqb (String.substring (String.length name - 4) 4 name) ".jpg").

(** Cold start: the repository is added and scanned, the walker finds a.jpg. *)
Definition world2 : World :=
  Eval vm_compute in
    after [OpAddRepo photosCfg;
           OpScanRepoSub "photos" "" false ignore.nilPatterns (Some [a_jpg])] world0.

(** A rescan after [*.jpg] was put into the ignore file. *)
Definition world3 : World :=
  Eval vm_compute in
    after [OpScanRepoSub "photos" "" false jpgPatterns (Some [])] world2.

(** A rescan after a.jpg was removed from the disk. *)
Definition world4 : World :=
  Eval vm_compute in
    after [OpScanRepoSub "photos" "" false ignore.nilPatterns (Some [])]
      (withDisk noDisk world2).

(** The peer is an introducer and announces that [nodeM] shares photos too. *)
Definition introCfg : config.Configuration :=
  config.mkCfg [photosCfg] [config.mkNodeCfg nodeN "" true] 0.

Definition introWorld0 : World := initWorld introCfg wall0 photosDisk.

Definition announcePhotos : ClusterConfigMessage :=
  mkClusterConfig "syncthing" "v0.9" [("name", "peer")]
    [mkRepository "photos" [mkNode nodeN FlagShareTrusted; mkNode nodeM FlagShareTrusted]].

(** The introducer's announcement has been taken in. *)
Definition introWorld1 : World :=
  Eval vm_compute in
    after [OpAddRepo photosCfg; OpClusterConfig nodeN announcePhotos] introWorld0.

(** The repository is added a second time, now shared with nobody. *)
Definition photosAlone : config.RepositoryConfiguration :=
  config.mkRepoCfg "photos" "/data/photos" [] false 60.

Definition worldTwice : World :=
  Eval vm_compute in after [OpAddRepo photosCfg; OpAddRepo photosAlone] world0.

(** The peer announces a newer a.jpg than the one the scan found. *)
Definition a_jpg_new : FileInfo :=
  mkFile "a.jpg" 420 1400000500 5 0 [mkBlock 0 12 []].

Definition world5 : World :=
  Eval vm_compute in after [OpIndex nodeN "photos" [a_jpg_new]] world2.

(** * Properties *)

(** ** Machine arithmetic *)

Lemma int64_add_l (x y : Z) : int64 (int64 x + y) = int64 (x + y).
Proof.
  unfold int64.
  replace ((x + 2 ^ 63) mod 2 ^ 64 - 2 ^ 63 + y + 2 ^ 63)
    with ((x + 2 ^ 63) mod 2 ^ 64 + y) by lia.
  rewrite Zplus_mod_idemp_l. f_equal. f_equal. lia.
Qed.

Lemma int64_add_r (x y : Z) : int64 (x + int64 y) = int64 (x + y).
Proof. rewrite Z.add_comm, int64_add_l. f_equal. lia. Qed.

Lemma int64_small (z : Z) : in_int64 z -> int64 z = z.
Proof.
  unfold in_int64, int64. intros Hz.
  rewrite Z.mod_small; lia.
Qed.

Lemma int64_0 : int64 0 = 0.
Proof. reflexivity. Qed.

(** ** Traversals *)

(** A visitor that always continues folds over the whole view. *)
Lemma traverse_all {A S} (step : S -> A -> S) (l : list A) (st : S) :
  files.traverse (fun st x => (step st x, true)) st l = fold_left step l st.
Proof.
  revert st. induction l as [|x l IH]; intros st; simpl; [reflexivity|]. apply IH.
Qed.

(** ** Sizes *)

(** The bytes of a view, and the bytes of its entries that are not deleted. *)
Definition bytesOf {F} `{FileIntf F} (l : list F) : Z :=
  foldr (fun f acc => Size f + acc) 0 l.

Definition countOf {F} (p : F -> bool) (l : list F) : Z :=
  Z.of_nat (length (List.filter p l)).

Definition present {F} `{FileIntf F} (f : F) : bool := negb (isDeleted f).
Definition valid {F} `{FileIntf F} (f : F) : bool := negb (isInvalid f).

Lemma traverse_ext {A S} (f g : S -> A -> S * bool) (l : list A) (st : S) :
  (forall st x, f st x = g st x) -> files.traverse f st l = files.traverse g st l.
Proof.
  intros Hfg. revert st. induction l as [|x l IH]; intros st; cbn [files.traverse];
    [reflexivity|].
  rewrite Hfg. destruct (g st x) as [st' [|]]; [apply IH | reflexivity].
Qed.

Lemma bytesOf_cons {F} `{FileIntf F} (f : F) (l : list F) :
  bytesOf (f :: l) = Size f + bytesOf l.
Proof. reflexivity. Qed.

Lemma bytesOf_truncate (l : list FileInfo) (p : FileInfoTruncated -> bool) (q : FileInfo -> bool) :
  (forall f, p (truncate f) = q f) ->
  bytesOf (List.filter p (truncate <$> l)) = bytesOf (List.filter q l).
Proof.
  intros Hpq. induction l as [|f l IH]; [reflexivity|].
  rewrite fmap_cons. cbn [List.filter]. rewrite Hpq.
  destruct (q f); [|exact IH].
  rewrite !bytesOf_cons, IH. reflexivity.
Qed.

Lemma bytesOf_fmap_truncate (l : list FileInfo) :
  bytesOf (truncate <$> l) = bytesOf l.
Proof.
  induction l as [|f l IH]; [reflexivity|].
  rewrite fmap_cons, !bytesOf_cons, IH. reflexivity.
Qed.

Lemma countOf_cons {F} (p : F -> bool) (f : F) (l : list F) :
  countOf p (f :: l) = (if p f then 1 else 0) + countOf p l.
Proof.
  unfold countOf. cbn [List.filter]. destruct (p f); cbn [length]; lia.
Qed.

Lemma countOf_truncate (l : list FileInfo) (p : FileInfoTruncated -> bool) (q : FileInfo -> bool) :
  (forall f, p (truncate f) = q f) ->
  countOf p (truncate <$> l) = countOf q l.
Proof.
  intros Hpq. induction l as [|f l IH]; [reflexivity|].
  rewrite fmap_cons, !countOf_cons, Hpq, IH. reflexivity.
Qed.

Lemma filter_truncate (l : list FileInfo) (p : FileInfoTruncated -> bool) (q : FileInfo -> bool) :
  (forall f, p (truncate f) = q f) ->
  List.filter p (truncate <$> l) = truncate <$> List.filter q l.
Proof.
  intros Hpq. induction l as [|f l IH]; [reflexivity|].
  rewrite fmap_cons. cbn [List.filter]. rewrite Hpq, IH.
  destruct (q f); reflexivity.
Qed.

(** The accumulation of Completion: the wrapped sum of the sizes of the
    entries that are not deleted. *)
Lemma live_bytes_fold {F} `{FileIntf F} (l : list F) (acc : Z) :
  fold_left (fun tot f => if negb (isDeleted f) then int64 (tot + Size f) else tot)
    l (int64 acc)
  = int64 (acc + bytesOf (List.filter present l)).
Proof.
  revert acc. induction l as [|f l IH]; intros acc; cbn [fold_left List.filter].
  - f_equal. cbn. lia.
  - assert (Hp : present f = negb (isDeleted f)) by reflexivity. rewrite Hp.
    destruct (negb (isDeleted f)).
    + rewrite int64_add_l, IH, bytesOf_cons. f_equal. lia.
    + apply IH.
Qed.

(** One step of the accumulation of LocalSize. *)
Definition localSizeStep {F} `{FileIntf F} : Z * Z * Z -> F -> Z * Z * Z :=
  fun '(files, deleted, bytes) f =>
    if isInvalid f then (files, deleted, bytes)
    else let '(fs, de, by_) := sizeOfFile f in
         (int64 (files + fs), int64 (deleted + de), int64 (bytes + by_)).

Lemma localSizeStep_eq {F} `{FileIntf F} (a b c : Z) (f : F) :
  localSizeStep (int64 a, int64 b, int64 c) f =
    if isInvalid f then (int64 a, int64 b, int64 c)
    else (int64 (a + if isDeleted f then 0 else 1),
          int64 (b + if isDeleted f then 1 else 0),
          int64 (c + Size f)).
Proof.
  unfold localSizeStep, sizeOfFile.
  destruct (isInvalid f); [reflexivity|].
  destruct (isDeleted f); cbn [negb];
    rewrite ?int64_add_l, ?int64_add_r; reflexivity.
Qed.

Lemma local_size_fold {F} `{FileIntf F} (l : list F) (a b c : Z) :
  fold_left localSizeStep l (int64 a, int64 b, int64 c)
  = (int64 (a + countOf present (List.filter valid l)),
     int64 (b + countOf isDeleted (List.filter valid l)),
     int64 (c + bytesOf (List.filter valid l))).
Proof.
  revert a b c. induction l as [|f l IH]; intros a b c; cbn [fold_left List.filter].
  - unfold countOf; cbn. repeat f_equal; lia.
  - rewrite localSizeStep_eq.
    assert (Hv : valid f = negb (isInvalid f)) by reflexivity. rewrite Hv.
    destruct (isInvalid f); cbn [negb]; [apply IH|].
    rewrite IH, !countOf_cons, bytesOf_cons.
    assert (Hp : present f = negb (isDeleted f)) by reflexivity. rewrite Hp.
    destruct (isDeleted f); cbn [negb]; (f_equal; [f_equal|]); f_equal; lia.
Qed.

(** C9. LocalSize skips every Invalid entry of the local replica: the three
    results are the number of valid entries that are not deleted, the number
    of valid deleted entries, and the bytes of all valid entries, deleted or
    not (each as the 64-bit accumulator holds it). *)
Theorem LocalSize_skips_invalid (m : Model) (repo : string) :
  LocalSize m repo =
    match repoFiles m !! repo with
    | None => (0, 0, 0)
    | Some rf =>
        let counted := List.filter valid (files.have rf LocalNodeID) in
        (int64 (countOf present counted),
         int64 (countOf isDeleted counted),
         int64 (bytesOf counted))
    end.
Proof.
  unfold LocalSize. destruct (repoFiles m !! repo) as [rf|]; [|reflexivity].
  unfold files.WithHaveTruncated. cbv zeta.
  erewrite (traverse_ext _ (fun st f => (localSizeStep st f, true))).
  2: { intros [[a b] c] f. unfold localSizeStep.
       destruct (isInvalid f); [reflexivity|]. destruct (sizeOfFile f) as [[? ?] ?].
       reflexivity. }
  rewrite traverse_all.
  change (0, 0, 0) with (int64 0, int64 0, int64 0).
  rewrite local_size_fold, !Z.add_0_l.
  rewrite (filter_truncate _ _ valid) by reflexivity.
  rewrite (countOf_truncate _ present present) by reflexivity.
  rewrite (countOf_truncate _ isDeleted isDeleted) by reflexivity.
  rewrite bytesOf_fmap_truncate. reflexivity.
Qed.

(** ** Completion *)

Lemma live_bytes_traverse (l : list FileInfo) :
  files.traverse
    (fun tot (f : FileInfoTruncated) =>
       (if negb (isDeleted f) then int64 (tot + Size f) else tot, true)) 0 (truncate <$> l)
  = int64 (bytesOf (List.filter present l)).
Proof.
  rewrite (traverse_all
    (fun tot (f : FileInfoTruncated) =>
       if negb (isDeleted f) then int64 (tot + Size f) else tot)).
  change 0 with (int64 0) at 1. rewrite live_bytes_fold, Z.add_0_l.
  rewrite (bytesOf_truncate _ _ present) by reflexivity. reflexivity.
Qed.

(** C5. Completion is 0 for an unknown repo, 100 when the global view holds
    no bytes, and otherwise 100 * (1 - need_bytes / total_bytes) in binary64
    arithmetic, where total_bytes sums the sizes of the files of the global
    view that are not deleted and need_bytes those of the node's need view
    (both as the code's int64 accumulators hold them). *)
Theorem Completion_percentage (m : Model) (node : NodeID) (repo : string) :
  Completion m node repo =
    match repoFiles m !! repo with
    | None => float64 0
    | Some rf =>
        let total_bytes := int64 (bytesOf (List.filter present (files.globalView rf))) in
        let need_bytes := int64 (bytesOf (List.filter present (files.needView rf node))) in
        if total_bytes =? 0 then float64 100
        else PrimFloat.mul (float64 100)
               (PrimFloat.sub (float64 1)
                  (PrimFloat.div (float64 need_bytes) (float64 total_bytes)))
    end.
Proof.
  unfold Completion. destruct (repoFiles m !! repo) as [rf|]; [|reflexivity].
  unfold files.WithGlobalTruncated, files.WithNeedTruncated. cbv zeta.
  rewrite !live_bytes_traverse. reflexivity.
Qed.

(** ** NeedFilesRepoLimited *)

Lemma totalBlocks_app (l1 l2 : list FileInfo) :
  totalBlocks (l1 ++ l2) = totalBlocks l1 + totalBlocks l2.
Proof.
  unfold totalBlocks. induction l1 as [|f l1 IH]; cbn [app foldr]; [lia|].
  rewrite IH. lia.
Qed.

Lemma totalBlocks_nonneg (l : list FileInfo) : 0 <= totalBlocks l.
Proof.
  unfold totalBlocks. induction l as [|f l IH]; cbn [foldr]; lia.
Qed.

(** The visitor of NeedFilesRepoLimited. *)
Definition needVisit (maxFiles maxBlocks : Z) : list FileInfo * Z -> FileInfo
    -> list FileInfo * Z * bool :=
  fun '(fs, nblocks) fi =>
    let fs := fs ++ [fi] in
    let nblocks := int64 (nblocks + Z.of_nat (length (Blocks fi))) in
    ((fs, nblocks),
     ((maxFiles <=? 0) || (Z.of_nat (length fs) <? maxFiles))
     && ((maxBlocks <=? 0) || (nblocks <? maxBlocks))).

(** What the traversal collects from [l] on top of [acc]: a prefix of [l],
    cut after the entry that reaches a limit. *)
Lemma needVisit_traverse (maxFiles maxBlocks : Z) (l acc : list FileInfo) :
  totalBlocks (acc ++ l) < 2 ^ 63 ->
  exists taken,
    files.traverse (needVisit maxFiles maxBlocks) (acc, totalBlocks acc) l
      = (acc ++ taken, totalBlocks (acc ++ taken))
    /\ taken `prefix_of` l
    /\ (0 < maxFiles -> Z.of_nat (length acc) < maxFiles ->
        Z.of_nat (length (acc ++ taken)) <= maxFiles)
    /\ (0 < maxBlocks -> totalBlocks acc < maxBlocks ->
        taken = [] \/ exists init last,
          acc ++ taken = init ++ [last] /\ totalBlocks init < maxBlocks)
    /\ (maxFiles <= 0 -> maxBlocks <= 0 -> taken = l).
Proof.
  revert acc. induction l as [|x l IH]; intros acc Hrange.
  - exists []. cbn [files.traverse]. rewrite app_nil_r.
    repeat split; auto using prefix_nil; lia.
  - cbn [files.traverse needVisit].
    assert (Hnb : int64 (totalBlocks acc + Z.of_nat (length (Blocks x)))
                  = totalBlocks (acc ++ [x])).
    { rewrite totalBlocks_app. cbn [totalBlocks foldr]. rewrite Z.add_0_r.
      apply int64_small. unfold in_int64.
      rewrite !totalBlocks_app in Hrange. cbn [totalBlocks foldr] in Hrange.
      fold (totalBlocks l) in Hrange.
      pose proof (totalBlocks_nonneg acc). pose proof (totalBlocks_nonneg l). lia. }
    rewrite Hnb.
    destruct (((maxFiles <=? 0) || (Z.of_nat (length (acc ++ [x])) <? maxFiles))
              && ((maxBlocks <=? 0) || (totalBlocks (acc ++ [x]) <? maxBlocks))) eqn:Hcont.
    + destruct (IH (acc ++ [x])) as (taken & Heq & Hpre & Hfiles & Hblocks & Hall).
      { rewrite <- app_assoc. exact Hrange. }
      exists (x :: taken). rewrite Heq, <- !app_assoc. cbn [app].
      apply andb_true_iff in Hcont as [Hf Hb].
      apply orb_true_iff in Hf. apply orb_true_iff in Hb.
      split; [reflexivity|]. split; [apply prefix_cons; exact Hpre|].
      split; [|split].
      * intros Hpos Hlen. rewrite <- app_assoc in Hfiles. apply Hfiles; [lia|].
        destruct Hf as [Hf|Hf]; lia.
      * intros Hpos Hacc. right.
        destruct Hb as [Hb|Hb]; [lia|]. apply Z.ltb_lt in Hb.
        destruct (Hblocks Hpos Hb) as [->|(init & last & Hfs & Hinit)].
        -- exists acc, x. split; [reflexivity | exact Hacc].
        -- exists init, last. rewrite <- app_assoc in Hfs. split; assumption.
      * intros H1 H2. f_equal. apply Hall; assumption.
    + exists [x]. split; [reflexivity|]. split; [apply prefix_cons, prefix_nil|].
      split; [|split].
      * intros Hpos Hlen. rewrite length_app. cbn [length]. lia.
      * intros Hpos Hacc. right. exists acc, x. split; [reflexivity | exact Hacc].
      * intros H1 H2. exfalso.
        apply Z.leb_le in H1. apply Z.leb_le in H2. rewrite H1, H2 in Hcont.
        discriminate.
Qed.

(** With a capacity that [make] accepts, the call returns a prefix of the
    need view that honours both limits. *)
Lemma NeedFilesRepoLimited_bounds (m : Model) (repo : string) (rf : files.Set_)
    (maxFiles maxBlocks : Z) :
  repoFiles m !! repo = Some rf ->
  0 <= maxFiles ->
  totalBlocks (files.needView rf LocalNodeID) < 2 ^ 63 ->
  exists fs,
    NeedFilesRepoLimited m repo maxFiles maxBlocks = Some (Some fs)
    /\ fs `prefix_of` files.needView rf LocalNodeID
    /\ (0 < maxFiles -> Z.of_nat (length fs) <= maxFiles)
    /\ (0 < maxBlocks ->
        fs = [] \/ exists init last, fs = init ++ [last] /\ totalBlocks init < maxBlocks)
    /\ (maxFiles <= 0 -> maxBlocks <= 0 -> fs = files.needView rf LocalNodeID).
Proof.
  intros Hrf Hcap Hrange. unfold NeedFilesRepoLimited. rewrite Hrf.
  destruct (maxFiles <? 0) eqn:Hneg; [apply Z.ltb_lt in Hneg; lia|].
  unfold files.WithNeed.
  destruct (needVisit_traverse maxFiles maxBlocks (files.needView rf LocalNodeID) [])
    as (taken & Heq & Hpre & Hfiles & Hblocks & Hall); [exact Hrange|].
  exists taken.
  erewrite (traverse_ext _ (needVisit maxFiles maxBlocks)).
  2: { intros [fs nb] x. reflexivity. }
  change 0 with (totalBlocks []) at 1. rewrite Heq. cbn [app].
  split; [reflexivity|]. split; [exact Hpre|].
  split; [|split].
  - intros Hpos. apply Hfiles; [exact Hpos | cbn; lia].
  - intros Hpos. apply Hblocks; [exact Hpos | cbn; lia].
  - exact Hall.
Qed.

(** An unknown repo yields the nil slice, whatever the limits. *)
Lemma NeedFilesRepoLimited_unknown (m : Model) (repo : string) (maxFiles maxBlocks : Z) :
  repoFiles m !! repo = None ->
  NeedFilesRepoLimited m repo maxFiles maxBlocks = Some None.
Proof. intros Hrf. unfold NeedFilesRepoLimited. rewrite Hrf. reflexivity. Qed.

(** C10. With a negative maxFiles, a limit the documentation says is
    ignored, the call on a known repo does not return: [make] panics on the
    negative capacity. *)
Theorem NeedFilesRepoLimited_negative_maxFiles :
  is_Some (repoFiles (mdl world1) !! "photos")
  /\ NeedFilesRepoLimited (mdl world1) "photos" (-1) 0 = None.
Proof. split; [eexists|]; vm_compute; reflexivity. Qed.

(** ** The repository state machine *)

(** The statement of C7 at one call: nothing happens on a no-op transition;
    a real one stamps the change time and emits StateChanged with [from],
    [to] and [duration]. *)
Definition setState_spec_as_stated (w : World) (repo : string) (s : repoState) : Prop :=
  forall w', setState repo s w = Some (tt, w') ->
    let old := default RepoIdle (repoStates (mdl w) !! repo) in
    if decide (s = old)
    then eventsDefault w' = eventsDefault w
         /\ repoStateChanged (mdl w') = repoStateChanged (mdl w)
    else exists now prev,
         repoStateChanged (mdl w') !! repo = Some now
         /\ repoStateChanged (mdl w) !! repo = Some prev
         /\ eventsDefault w' =
              eventsDefault w ++ [events.StateChanged repo (Some old) s (Some (now - prev))].

(** The first transition of a repository has no previous change time: the
    event carries neither [from] nor [duration]. *)
Lemma setState_first_transition_bare : ~ setState_spec_as_stated world0 "photos" RepoScanning.
Proof.
  intros Hspec.
  specialize (Hspec (after [OpSetState "photos" RepoScanning] world0) eq_refl).
  cbv zeta in Hspec. destruct (decide _) as [Heq|_]; [discriminate Heq|].
  destruct Hspec as (now & prev & _ & Hprev & _).
  vm_compute in Hprev. discriminate Hprev.
Qed.

(** C7 (amended). A call with the current state changes nothing.  A real
    transition records the new state, stamps the change time with the clock
    reading, and emits one StateChanged event with [repo] and [to]; the event
    carries [from] and [duration] (the next clock reading minus the previous
    change time) exactly when a previous change time was recorded. *)
Theorem setState_transition (w : World) (repo : string) (s : repoState) :
  let old := default RepoIdle (repoStates (mdl w) !! repo) in
  exists w', setState repo s w = Some (tt, w')
    /\ if decide (s = old) then w' = w
       else repoStates (mdl w') !! repo = Some s
            /\ repoStateChanged (mdl w') !! repo = Some (wall w (timeReads w))
            /\ eventsDefault w' = eventsDefault w ++
                 [match repoStateChanged (mdl w) !! repo with
                  | Some prev =>
                      events.StateChanged repo (Some old) s
                        (Some (wall w (S (timeReads w)) - prev))
                  | None => events.StateChanged repo None s None
                  end].
Proof.
  intros old. unfold setState, bind, gets. fold old.
  destruct (decide (s = old)) as [Heq|Hne].
  - rewrite bool_decide_eq_false_2 by (intros Hne; apply Hne, Heq).
    exists w. destruct w. split; reflexivity.
  - rewrite bool_decide_eq_true_2 by exact Hne.
    destruct (repoStateChanged (mdl w) !! repo) as [prev|] eqn:Hprev;
      (eexists; split; [reflexivity|]); cbn;
      rewrite !lookup_insert_eq; repeat split; reflexivity.
Qed.

(** ** Index messages from a node that does not share the repo *)

(** The statement of C2 for one callback: the index sets are unchanged, a
    RepoRejected event is emitted and the connections are kept. *)
Definition rejected_as_stated (callback : NodeID -> string -> list FileInfo -> M unit)
    (w : World) (nodeID : NodeID) (repo : string) (fs : list FileInfo) : Prop :=
  repoSharedWith (mdl w) repo nodeID = false ->
  exists w', callback nodeID repo fs w = Some (tt, w')
    /\ repoFiles (mdl w') = repoFiles (mdl w)
    /\ eventsDefault w' = eventsDefault w ++ [events.RepoRejected repo nodeID]
    /\ protoConn (mdl w') = protoConn (mdl w)
    /\ rawConn (mdl w') = rawConn (mdl w).

(** IndexUpdate from a stranger emits no event. *)
Lemma IndexUpdate_emits_no_RepoRejected :
  ~ rejected_as_stated IndexUpdate world1 nodeM "photos" [a_jpg].
Proof.
  intros Hspec. destruct Hspec as (w' & Hrun & _ & Hev & _); [reflexivity|].
  vm_compute in Hrun. injection Hrun as <-.
  vm_compute in Hev. discriminate Hev.
Qed.

(** C2 (amended). An Index or IndexUpdate from a node that does not share
    the repo returns normally and leaves the model as it was: the index
    sets, the sharing graph and the connection maps; the clock is not
    ticked.  Index emits one RepoRejected event. *)
Theorem unauthorized_index_dropped (w : World) (nodeID : NodeID) (repo : string)
    (fs : list FileInfo) :
  repoSharedWith (mdl w) repo nodeID = false ->
  (exists w', Index nodeID repo fs w = Some (tt, w')
     /\ mdl w' = mdl w
     /\ lamportDefault w' = lamportDefault w
     /\ eventsDefault w' = eventsDefault w ++ [events.RepoRejected repo nodeID])
  /\ (exists w', IndexUpdate nodeID repo fs w = Some (tt, w')
     /\ mdl w' = mdl w
     /\ lamportDefault w' = lamportDefault w).
Proof.
  intros Hshared. split.
  - unfold Index, bind, gets. rewrite Hshared. cbn [negb].
    eexists. split; [reflexivity|]. repeat split.
  - unfold IndexUpdate, bind, gets. rewrite Hshared. cbn [negb].
    exists w. repeat split.
Qed.

Lemma unauthorized_index_dropped_witness :
  repoSharedWith (mdl world1) "photos" nodeM = false
  /\ (exists w', Index nodeM "photos" [a_jpg] world1 = Some (tt, w')
        /\ mdl w' = mdl world1
        /\ lamportDefault w' = lamportDefault world1
        /\ eventsDefault w' = eventsDefault world1 ++ [events.RepoRejected "photos" nodeM])
  /\ (exists w', IndexUpdate nodeM "photos" [a_jpg] world1 = Some (tt, w')
        /\ mdl w' = mdl world1
        /\ lamportDefault w' = lamportDefault world1).
Proof.
  split; [reflexivity|].
  apply (unauthorized_index_dropped world1 nodeM "photos" [a_jpg]). reflexivity.
Defined.

(** ** Request *)

(** The entry of a.jpg is Invalid and the offset lies beyond its size: the
    flag is tested first and the result is Invalid, not NoSuchFile. *)
Lemma Request_invalid_before_offset :
  ~ Request_spec_as_stated world3 nodeN "photos" "a.jpg" 11 1.
Proof.
  intros Hspec.
  destruct (Hspec (inr ErrInvalid) world3 eq_refl) as [[_ Hback] _].
  assert (Hno : @inr (list N) error ErrInvalid = inr ErrNoSuchFile).
  { apply Hback. vm_compute. right. reflexivity. }
  discriminate Hno.
Qed.

(** A name that is absent from the local replica, asked for at offset 0,
    passes both tests and is looked for on disk. *)
Example Request_absent_name_offset_0 :
  fst <$> Request nodeN "photos" "c.jpg" 0 1 world2 = Some (inr ErrOS).
Proof. reflexivity. Qed.

Lemma Get_present (r : files.Set_) (node : NodeID) (name : string) (lf : FileInfo) :
  files.lookupName name (files.have r node) = Some lf -> files.Get r node name = lf.
Proof. intros Hlf. unfold files.Get. rewrite Hlf. reflexivity. Qed.

Lemma Get_absent (r : files.Set_) (node : NodeID) (name : string) :
  files.lookupName name (files.have r node) = None -> files.Get r node name = zeroFileInfo.
Proof. intros Hlf. unfold files.Get. rewrite Hlf. reflexivity. Qed.

(** What Request answers once the entry [lf] has been fetched. *)
Lemma Request_known (w : World) (nodeID : NodeID) (repo name : string) (offset size : Z)
    (r : files.Set_) (res : list N + error) (w' : World) :
  repoFiles (mdl w) !! repo = Some r ->
  Request nodeID repo name offset size w = Some (res, w') ->
  let lf := files.Get r LocalNodeID name in
  w' = w
  /\ (res = inr ErrInvalid <-> flagged lf = true)
  /\ (res = inr ErrNoSuchFile <-> flagged lf = false /\ Size lf < offset).
Proof.
  intros Hr Hrun lf. unfold Request, bind, gets in Hrun. rewrite Hr in Hrun.
  fold lf in Hrun. fold (flagged lf) in Hrun.
  destruct (flagged lf) eqn:Hflag.
  { injection Hrun as <- <-. repeat split; try done. intros [? _]; done. }
  destruct (Size lf <? offset) eqn:Hoff.
  { injection Hrun as <- <-. apply Z.ltb_lt in Hoff. repeat split; try done. }
  apply Z.ltb_ge in Hoff.
  assert (Hres : w' = w /\ res <> inr ErrInvalid /\ res <> inr ErrNoSuchFile).
  { destruct (disk w _ name) as [content| |].
    - destruct (size <? 0); [discriminate Hrun|].
      destruct (offset <? 0); [injection Hrun as <- <-; done|].
      destruct (size =? 0); [injection Hrun as <- <-; done|].
      destruct (offset + size <=? _); injection Hrun as <- <-; done.
    - injection Hrun as <- <-; done.
    - injection Hrun as <- <-; done. }
  destruct Hres as (-> & Hinv & Hno).
  repeat split; try done. intros [_ ?]; lia.
Qed.

(** C1 (amended). Request never modifies the state.  It returns NoSuchFile
    when the repo is unknown.  For a known repo whose local replica holds an
    entry for the name, the result is Invalid exactly when the entry has the
    Invalid or Deleted flag set, and NoSuchFile exactly when neither flag is
    set and the offset exceeds the entry's size.  For a name absent from the
    local replica the result is NoSuchFile when the offset is positive. *)
Theorem Request_errors (w : World) (nodeID : NodeID) (repo name : string)
    (offset size : Z) (res : list N + error) (w' : World) :
  Request nodeID repo name offset size w = Some (res, w') ->
  w' = w
  /\ match repoFiles (mdl w) !! repo with
     | None => res = inr ErrNoSuchFile
     | Some r =>
         match files.lookupName name (files.have r LocalNodeID) with
         | Some lf =>
             (res = inr ErrInvalid <-> flagged lf = true)
             /\ (res = inr ErrNoSuchFile <-> flagged lf = false /\ Size lf < offset)
         | None => 0 < offset -> res = inr ErrNoSuchFile
         end
     end.
Proof.
  intros Hrun. destruct (repoFiles (mdl w) !! repo) as [r|] eqn:Hr.
  - destruct (Request_known _ _ _ _ _ _ _ _ _ Hr Hrun) as (Hw & Hinv & Hno).
    split; [exact Hw|].
    destruct (files.lookupName name (files.have r LocalNodeID)) as [lf|] eqn:Hlf.
    + rewrite (Get_present _ _ _ _ Hlf) in Hinv, Hno. split; assumption.
    + rewrite (Get_absent _ _ _ Hlf) in Hno. intros Hpos. apply Hno.
      split; [reflexivity | exact Hpos].
  - unfold Request, bind, gets in Hrun. rewrite Hr in Hrun.
    injection Hrun as <- <-. split; reflexivity.
Qed.

Lemma Request_errors_witness :
  Request nodeN "photos" "a.jpg" 11 1 world3 = Some (inr ErrInvalid, world3)
  /\ world3 = world3
  /\ match repoFiles (mdl world3) !! "photos" with
     | None => @inr (list N) error ErrInvalid = inr ErrNoSuchFile
     | Some r =>
         match files.lookupName "a.jpg" (files.have r LocalNodeID) with
         | Some lf =>
             (@inr (list N) error ErrInvalid = inr ErrInvalid <-> flagged lf = true)
             /\ (@inr (list N) error ErrInvalid = inr ErrNoSuchFile
                 <-> flagged lf = false /\ Size lf < 11)
         | None => 0 < 11 -> @inr (list N) error ErrInvalid = inr ErrNoSuchFile
         end
     end.
Proof.
  split; [reflexivity|].
  apply (Request_errors world3 nodeN "photos" "a.jpg" 11 1 (inr ErrInvalid) world3).
  reflexivity.
Defined.

(** ** Index from a node that shares the repo *)

Lemma dropIgnored_step (ignores : ignore.Patterns) (i : nat) (fs : list FileInfo) (clock : Z) :
  dropIgnored ignores i fs clock =
    match fs !! i with
    | None => (fs, clock)
    | Some f =>
        if ignore.Match ignores (Name f)
        then dropIgnored ignores i
               (take (length fs - 1) (<[i := default f (last fs)]> fs))
               (lamport.Tick clock (Version f))
        else dropIgnored ignores (S i) fs (lamport.Tick clock (Version f))
    end.
Proof.
  match goal with |- _ = ?r => remember r as rhs eqn:Hrhs end.
  simp dropIgnored.
  generalize (inspect (fs !! i)). intros [o Ho]. rewrite Ho in Hrhs.
  destruct o as [f|]; simp dropIgnored; [|subst rhs; reflexivity].
  generalize (inspect (ignore.Match ignores (Name f))). intros [b Hb].
  rewrite Hb in Hrhs. destruct b; simp dropIgnored; subst rhs; simp dropIgnored; reflexivity.
Qed.

(** Overwriting the entry at [length pre] by the last one and cutting the
    slice by one. *)
Lemma swap_remove_last (pre : list FileInfo) (f : FileInfo) :
  take (length (pre ++ [f]) - 1) (<[length pre := default f (last (pre ++ [f]))]> (pre ++ [f]))
  = pre.
Proof.
  rewrite last_snoc. cbn [default].
  rewrite insert_app_r_alt by lia. rewrite Nat.sub_diag. cbn [insert list_insert].
  rewrite length_app. cbn [length].
  replace (length pre + 1 - 1)%nat with (length pre) by lia.
  apply take_app_length.
Qed.

Lemma swap_remove_mid (pre : list FileInfo) (f : FileInfo) (rest : list FileInfo) (l : FileInfo) :
  take (length (pre ++ f :: rest ++ [l]) - 1)
    (<[length pre := default f (last (pre ++ f :: rest ++ [l]))]> (pre ++ f :: rest ++ [l]))
  = pre ++ l :: rest.
Proof.
  replace (pre ++ f :: rest ++ [l]) with ((pre ++ f :: rest) ++ [l])
    by (rewrite <- app_assoc; reflexivity).
  rewrite last_snoc. cbn [default].
  rewrite <- app_assoc. cbn [app].
  rewrite insert_app_r_alt by lia. rewrite Nat.sub_diag. cbn [insert list_insert].
  replace (length (pre ++ f :: rest ++ [l]) - 1)%nat with (length (pre ++ l :: rest)).
  - change (pre ++ id l :: rest ++ [l]) with (pre ++ (l :: rest) ++ [l]).
    rewrite app_assoc. apply take_app_length.
  - rewrite !length_app. cbn [length]. rewrite length_app. cbn [length]. lia.
Qed.

Definition kept (ignores : ignore.Patterns) (f : FileInfo) : bool :=
  negb (ignore.Match ignores (Name f)).

(** The receive loop from index [length pre] on: the entries before the
    index stay, of the others exactly those not ignored remain, in some
    order, and each of them has been ticked into the clock once. *)
Lemma dropIgnored_spec (ignores : ignore.Patterns) (n : nat) :
  forall (pre rest : list FileInfo) (clock : Z),
    length rest = n ->
    exists remaining order,
      dropIgnored ignores (length pre) (pre ++ rest) clock
        = (pre ++ remaining, fold_left lamport.Tick (Version <$> order) clock)
      /\ order ≡ₚ rest
      /\ remaining ≡ₚ List.filter (kept ignores) rest.
Proof.
  induction n as [|n IH]; intros pre rest clock Hlen.
  - destruct rest; [|discriminate Hlen]. exists [], [].
    rewrite dropIgnored_step, app_nil_r, lookup_ge_None_2 by lia.
    repeat split; reflexivity.
  - destruct rest as [|f rest]; [discriminate Hlen|].
    injection Hlen as Hlen.
    rewrite dropIgnored_step, list_lookup_middle by reflexivity.
    destruct (ignore.Match ignores (Name f)) eqn:Hign.
    + induction rest as [|l rest0 _] using rev_ind.
      * rewrite swap_remove_last.
        destruct (IH pre [] (lamport.Tick clock (Version f)) Hlen)
          as (remaining & order & Hrun & Hord & Hrem).
        rewrite app_nil_r in Hrun. exists remaining, (f :: order).
        split; [exact Hrun|]. split; [rewrite Hord; reflexivity|].
        cbn [List.filter].
        assert (Hf : kept ignores f = false) by (unfold kept; rewrite Hign; reflexivity).
        rewrite Hf. exact Hrem.
      * rewrite swap_remove_mid.
        destruct (IH pre (l :: rest0) (lamport.Tick clock (Version f)))
          as (remaining & order & Hrun & Hord & Hrem).
        { rewrite length_app in Hlen. cbn [length] in *. lia. }
        exists remaining, (f :: order).
        split; [exact Hrun|]. split.
        -- rewrite Hord. apply perm_skip. apply Permutation_cons_append.
        -- rewrite Hrem. cbn [List.filter].
           assert (Hf : kept ignores f = false) by (unfold kept; rewrite Hign; reflexivity).
           rewrite Hf, List.filter_app. cbn [List.filter].
           destruct (kept ignores l); [|rewrite app_nil_r; reflexivity].
           apply Permutation_cons_append.
    + destruct (IH (pre ++ [f]) rest (lamport.Tick clock (Version f)) Hlen)
        as (remaining & order & Hrun & Hord & Hrem).
      rewrite length_app in Hrun. cbn [length] in Hrun.
      replace (length pre + 1)%nat with (S (length pre)) in Hrun by lia.
      rewrite <- !app_assoc in Hrun. cbn [app] in Hrun.
      exists (f :: remaining), (f :: order).
      split; [exact Hrun|]. split; [rewrite Hord; reflexivity|].
      cbn [List.filter].
      assert (Hf : kept ignores f = true) by (unfold kept; rewrite Hign; reflexivity).
      rewrite Hf, Hrem. reflexivity.
Qed.

(** C6. An authorized Index ticks the version of every incoming entry into
    the lamport clock, once each; drops the entries whose name the repo's
    ignore patterns match; hands exactly the remaining entries, as a set, to
    Replace for the node's replica; and emits RemoteIndexUpdated with the
    number of remaining entries as its items. *)
Theorem Index_authorized (w : World) (nodeID : NodeID) (repo : string)
    (fs : list FileInfo) (rf : files.Set_) :
  repoSharedWith (mdl w) repo nodeID = true ->
  repoFiles (mdl w) !! repo = Some rf ->
  let ignores := default ignore.nilPatterns (repoIgnores (mdl w) !! repo) in
  exists remaining order w',
    Index nodeID repo fs w = Some (tt, w')
    /\ order ≡ₚ fs
    /\ lamportDefault w' = fold_left lamport.Tick (Version <$> order) (lamportDefault w)
    /\ remaining ≡ₚ List.filter (kept ignores) fs
    /\ repoFiles (mdl w') = <[repo := files.Replace rf nodeID remaining]> (repoFiles (mdl w))
    /\ eventsDefault w' = eventsDefault w ++
         [events.RemoteIndexUpdated nodeID repo
            (Z.of_nat (length (List.filter (kept ignores) fs)))
            (files.LocalVersion (files.Replace rf nodeID remaining) nodeID)].
Proof.
  intros Hshared Hrf ignores.
  destruct (dropIgnored_spec ignores (length fs) [] fs (lamportDefault w) eq_refl)
    as (remaining & order & Hloop & Hord & Hrem).
  cbn [app length] in Hloop.
  exists remaining, order.
  unfold Index, bind, gets. cbv beta. rewrite Hshared. cbn [negb]. cbv beta iota.
  rewrite Hrf. fold ignores. cbv beta iota. rewrite Hloop.
  eexists. split; [reflexivity|]. cbn.
  repeat split; try assumption.
  rewrite (Permutation_length Hrem). reflexivity.
Qed.

Lemma Index_authorized_witness :
  repoSharedWith (mdl world3) "photos" nodeN = true
  /\ is_Some (repoFiles (mdl world3) !! "photos")
  /\ exists rf remaining order w',
       repoFiles (mdl world3) !! "photos" = Some rf
       /\ Index nodeN "photos" [b_jpg] world3 = Some (tt, w')
       /\ order ≡ₚ [b_jpg]
       /\ lamportDefault w' = fold_left lamport.Tick (Version <$> order) (lamportDefault world3)
       /\ remaining ≡ₚ []
       /\ eventsDefault w' = eventsDefault world3 ++
            [events.RemoteIndexUpdated nodeN "photos" 0
               (files.LocalVersion (files.Replace rf nodeN remaining) nodeN)].
Proof.
  split; [vm_compute; reflexivity|]. split; [eexists; vm_compute; reflexivity|].
  destruct (repoFiles (mdl world3) !! "photos") as [rf|] eqn:Hrf; [|discriminate Hrf].
  destruct (Index_authorized world3 nodeN "photos" [b_jpg] rf eq_refl Hrf)
    as (remaining & order & w' & Hrun & Hord & Hclock & Hrem & _ & Hev).
  exists rf, remaining, order, w'. repeat split; assumption.
Defined.

(** ** The index sender *)

Definition isIndexUpdate (c : Message * bool) : Prop :=
  match fst c with
  | MsgIndexUpdate _ _ => True
  | MsgIndex _ _ => False
  end.

(** The calls made since [before]: one Index, then IndexUpdates only. *)
Definition indexThenUpdates (repo : string) (before now : list (Message * bool)) : Prop :=
  exists batch ok later,
    now = before ++ (MsgIndex repo batch, ok) :: later /\ Forall isIndexUpdate later.

Lemma send_calls (msg : Message) (conn : Connection) :
  calls (fst (send msg conn)) = calls conn ++ [(msg, snd (send msg conn))].
Proof. unfold send. destruct (verdicts conn); reflexivity. Qed.

Lemma indexThenUpdates_first (repo : string) (before : list (Message * bool))
    (batch : list FileInfo) (conn : Connection) :
  calls conn = before ->
  indexThenUpdates repo before (calls (fst (send (MsgIndex repo batch) conn))).
Proof.
  intros <-. rewrite send_calls. exists batch, (snd (send (MsgIndex repo batch) conn)), [].
  split; [reflexivity | constructor].
Qed.

Lemma indexThenUpdates_next (repo : string) (before : list (Message * bool))
    (batch : list FileInfo) (conn : Connection) :
  indexThenUpdates repo before (calls conn) ->
  indexThenUpdates repo before (calls (fst (send (MsgIndexUpdate repo batch) conn))).
Proof.
  intros (b0 & ok & later & Hcalls & Hlater). rewrite send_calls, Hcalls.
  exists b0, ok, (later ++ [(MsgIndexUpdate repo batch, snd (send (MsgIndexUpdate repo batch) conn))]).
  split; [rewrite <- app_assoc; reflexivity|].
  apply Forall_app. split; [exact Hlater|]. repeat constructor.
Qed.

(** While no send has failed: nothing was sent yet and the batch to come is
    the initial one, or the Index went out and updates followed. *)
Definition sending (repo : string) (before : list (Message * bool)) (st : sender) : Prop :=
  sErr st = false
  /\ if sInitial st then calls (sConn st) = before
     else indexThenUpdates repo before (calls (sConn st)).

(** After a failed send the traversal has stopped. *)
Definition failed (repo : string) (before : list (Message * bool)) (st : sender) : Prop :=
  sErr st = true /\ indexThenUpdates repo before (calls (sConn st)).

Lemma sendIndexVisit_step (minLocalVer : Z) (repo : string) (ignores : ignore.Patterns)
    (before : list (Message * bool)) (st : sender) (f : FileInfo) :
  sending repo before st ->
  let '(st', continue) := sendIndexVisit minLocalVer repo ignores st f in
  if continue then sending repo before st' else failed repo before st'.
Proof.
  intros [Herr Hcalls]. unfold sendIndexVisit.
  destruct (LocalVersion f <=? minLocalVer); [split; assumption|].
  set (st1 := if sMaxLocalVer st <? LocalVersion f then _ else st).
  assert (Hst1 : sErr st1 = sErr st /\ sInitial st1 = sInitial st /\ sConn st1 = sConn st).
  { subst st1. destruct (sMaxLocalVer st <? LocalVersion f); repeat split. }
  destruct Hst1 as (He1 & Hi1 & Hc1).
  destruct (ignore.Match ignores (Name f)).
  { split; [congruence|]. rewrite Hi1, Hc1. exact Hcalls. }
  destruct ((length (sBatch st1) =? indexBatchSize)%nat
            || (indexTargetSize <? sCurrentBatchSize st1)).
  - rewrite Hi1, Hc1.
    destruct (sInitial st) eqn:Hinit.
    + pose proof (indexThenUpdates_first repo before (sBatch st1) (sConn st) Hcalls) as Hsent.
      destruct (send (MsgIndex repo (sBatch st1)) (sConn st)) as [conn [|]];
        cbn [fst] in Hsent; (split; [cbn; congruence | exact Hsent]).
    + pose proof (indexThenUpdates_next repo before (sBatch st1) (sConn st) Hcalls) as Hsent.
      destruct (send (MsgIndexUpdate repo (sBatch st1)) (sConn st)) as [conn [|]];
        cbn [fst] in Hsent; (split; [cbn; congruence | exact Hsent]).
  - split; [cbn; congruence|]. cbn. rewrite Hi1, Hc1. exact Hcalls.
Qed.

Lemma sendIndexVisit_traverse (minLocalVer : Z) (repo : string) (ignores : ignore.Patterns)
    (before : list (Message * bool)) (l : list FileInfo) (st : sender) :
  sending repo before st ->
  let st' := files.traverse (sendIndexVisit minLocalVer repo ignores) st l in
  sending repo before st' \/ failed repo before st'.
Proof.
  revert st. induction l as [|f l IH]; intros st Hst; cbn [files.traverse].
  - left. exact Hst.
  - pose proof (sendIndexVisit_step minLocalVer repo ignores before st f Hst) as Hstep.
    destruct (sendIndexVisit minLocalVer repo ignores st f) as [st' [|]].
    + apply IH. exact Hstep.
    + right. exact Hstep.
Qed.

(** C8. With [initial] set, the first call sendIndexTo makes on the
    connection is an Index, whatever the replica holds and whatever the
    patterns ignore, and every later call of the same run is an IndexUpdate. *)
Theorem sendIndexTo_initial_index (minLocalVer : Z) (conn : Connection) (repo : string)
    (fs : files.Set_) (ignores : ignore.Patterns) :
  exists batch ok later,
    calls (snd (sendIndexTo true minLocalVer conn repo fs ignores))
      = calls conn ++ (MsgIndex repo batch, ok) :: later
    /\ Forall isIndexUpdate later.
Proof.
  change (indexThenUpdates repo (calls conn)
            (calls (snd (sendIndexTo true minLocalVer conn repo fs ignores)))).
  unfold sendIndexTo, files.WithHave.
  pose proof (sendIndexVisit_traverse minLocalVer repo ignores (calls conn)
                (files.have fs LocalNodeID) (mkSender [] 0 0 false true conn)) as Hrun.
  cbv zeta in Hrun.
  set (st := files.traverse _ _ _) in *.
  destruct Hrun as [[Herr Hcalls]|[Herr Hsent]]; [split; reflexivity| |].
  - rewrite Herr. cbn [negb]. rewrite andb_true_r.
    destruct (sInitial st).
    + pose proof (indexThenUpdates_first repo (calls conn) (sBatch st) (sConn st) Hcalls) as Hsent.
      destruct (send (MsgIndex repo (sBatch st)) (sConn st)) as [c ok]. exact Hsent.
    + rewrite andb_true_r. destruct (0 <? length (sBatch st))%nat; [|exact Hcalls].
      pose proof (indexThenUpdates_next repo (calls conn) (sBatch st) (sConn st) Hcalls) as Hsent.
      destruct (send (MsgIndexUpdate repo (sBatch st)) (sConn st)) as [c ok]. exact Hsent.
  - rewrite Herr. cbn [negb]. rewrite !andb_false_r. exact Hsent.
Qed.

(** An empty replica: the one message is an Index with an empty batch. *)
Example sendIndexTo_empty_initial :
  calls (snd (sendIndexTo true 0 (mkConn nodeN [] []) "photos" files.NewSet ignore.nilPatterns))
  = [(MsgIndex "photos" [], true)].
Proof. reflexivity. Qed.

(** ** The sharing graph *)

Definition graphOf (w : World) : gmap string (list NodeID) * gmap NodeID (list string) :=
  (repoNodes (mdl w), nodeRepos (mdl w)).

(** A computation that leaves the sharing graph alone. *)
Definition keeps {A} (c : M A) : Prop :=
  forall w a w', c w = Some (a, w') -> graphOf w' = graphOf w.

Lemma keeps_ret {A} (a : A) : keeps (ret a).
Proof. intros w a' w' H. injection H as <- <-. reflexivity. Qed.

Lemma keeps_panic {A} : keeps (@panic A).
Proof. intros w a w' H. discriminate H. Qed.

Lemma keeps_gets {A} (f : World -> A) : keeps (gets f).
Proof. intros w a w' H. injection H as <- <-. reflexivity. Qed.

Lemma keeps_bind {A B} (c : M A) (k : A -> M B) :
  keeps c -> (forall a, keeps (k a)) -> keeps (bind c k).
Proof.
  intros Hc Hk w b w' H. unfold bind in H.
  destruct (c w) as [[a w1]|] eqn:Hcw; [|discriminate H].
  rewrite (Hk a _ _ _ H). exact (Hc _ _ _ Hcw).
Qed.

Lemma keeps_Log (e : events.Event) : keeps (Log e).
Proof. intros w a w' H. injection H as <- <-. reflexivity. Qed.

Lemma keeps_Tick (v : Z) : keeps (Tick v).
Proof. intros w a w' H. injection H as <- <-. reflexivity. Qed.

Lemma keeps_Now : keeps Now.
Proof. intros w a w' H. injection H as <- <-. reflexivity. Qed.

Lemma keeps_setClock (c : Z) : keeps (setClock c).
Proof. intros w a w' H. injection H as <- <-. reflexivity. Qed.

Lemma keeps_setModel (f : Model -> Model) :
  (forall m, repoNodes (f m) = repoNodes m) ->
  (forall m, nodeRepos (f m) = nodeRepos m) ->
  keeps (setModel f).
Proof.
  intros Hr Hn w a w' H. injection H as <- <-. unfold graphOf. cbn.
  rewrite Hr, Hn. reflexivity.
Qed.

Lemma keeps_forEach {A} (l : list A) (body : A -> M unit) :
  (forall x, keeps (body x)) -> keeps (forEach l body).
Proof.
  intros Hbody. induction l as [|x l IH]; cbn [forEach].
  - apply keeps_ret.
  - apply keeps_bind; [apply Hbody | intros _; exact IH].
Qed.

Lemma keeps_traverseM {A S} (fn : S -> A -> M (S * bool)) (l : list A) (st : S) :
  (forall st x, keeps (fn st x)) -> keeps (traverseM fn st l).
Proof.
  intros Hfn. revert st. induction l as [|x l IH]; intros st; cbn [traverseM].
  - apply keeps_ret.
  - apply keeps_bind; [apply Hfn|]. intros [st' [|]]; cbn [fst snd];
      [apply IH | apply keeps_ret].
Qed.

Create HintDb keeps.
#[local] Hint Resolve keeps_ret keeps_panic keeps_gets keeps_Log keeps_Tick keeps_Now
  keeps_setClock : keeps.

(** Walks through a computation built from the pieces above. *)
Ltac keeps_step :=
  first
    [ solve [auto with keeps nocore]
    | apply keeps_setModel; intros; reflexivity
    | apply keeps_bind; [|intros ?]
    | match goal with
      | |- keeps (if ?b then _ else _) => destruct b
      | |- keeps (match ?x with _ => _ end) => destruct x
      end ].

Ltac keeps_auto := repeat keeps_step.

Lemma keeps_updateLocalSet (repo : string) (batch : list FileInfo) :
  keeps (updateLocalSet repo batch).
Proof. unfold updateLocalSet. keeps_auto. Qed.
#[local] Hint Resolve keeps_updateLocalSet : keeps.

Lemma keeps_setState (repo : string) (s : repoState) : keeps (setState repo s).
Proof. unfold setState. keeps_auto. Qed.
#[local] Hint Resolve keeps_setState : keeps.

Lemma keeps_Request (nodeID : NodeID) (repo name : string) (offset size : Z) :
  keeps (Request nodeID repo name offset size).
Proof. unfold Request. keeps_auto. Qed.

Lemma keeps_Index (nodeID : NodeID) (repo : string) (fs : list FileInfo) :
  keeps (Index nodeID repo fs).
Proof. unfold Index. keeps_auto. Qed.

Lemma keeps_IndexUpdate (nodeID : NodeID) (repo : string) (fs : list FileInfo) :
  keeps (IndexUpdate nodeID repo fs).
Proof. unfold IndexUpdate. keeps_auto. Qed.

Lemma keeps_Close (node : NodeID) (err : string) : keeps (Close node err).
Proof.
  unfold Close. keeps_auto. apply keeps_forEach. intros repo. keeps_auto.
Qed.

Lemma keeps_scanFirstPass (repo : string) (fchan batch : list FileInfo) :
  keeps (scanFirstPass repo fchan batch).
Proof.
  revert batch. induction fchan as [|f fchan IH]; intros batch; cbn [scanFirstPass].
  - apply keeps_ret.
  - keeps_auto.
Qed.
#[local] Hint Resolve keeps_scanFirstPass : keeps.

Lemma keeps_scanVisit (repo sub dir : string) (ignores : ignore.Patterns)
    (st : list FileInfo * bool) (f : FileInfoTruncated) :
  keeps (scanVisit repo sub dir ignores st f).
Proof.
  unfold scanVisit. destruct st as [batch seenPrefix].
  keeps_auto.
Qed.
#[local] Hint Resolve keeps_scanVisit : keeps.

Lemma keeps_scanSecondPass (repo sub dir : string) (ignores : ignore.Patterns) :
  keeps (scanSecondPass repo sub dir ignores).
Proof.
  unfold scanSecondPass.
  apply keeps_bind; [apply keeps_gets | intros snapshot].
  apply keeps_bind; [apply keeps_traverseM; intros; apply keeps_scanVisit | intros st].
  destruct (0 <? length (fst st))%nat; [apply keeps_updateLocalSet | apply keeps_ret].
Qed.
#[local] Hint Resolve keeps_scanSecondPass : keeps.

Lemma keeps_ScanRepoSub (repo sub : string) (escapes : bool) (ignores : ignore.Patterns)
    (walk : option (list FileInfo)) :
  keeps (ScanRepoSub repo sub escapes ignores walk).
Proof.
  unfold ScanRepoSub. keeps_auto.
Qed.

(** The invariant: the graph is symmetric, and every repository that has a
    sharing list was added under an identifier of [seen]. *)
Definition good (seen : list string) (m : Model) : Prop :=
  symmetric m /\ forall r, is_Some (repoNodes m !! r) -> r ∈ seen.

Lemma good_graph (seen : list string) (w w' : World) :
  graphOf w' = graphOf w -> good seen (mdl w) -> good seen (mdl w').
Proof.
  unfold graphOf, good, symmetric. intros Hg. injection Hg as -> ->. auto.
Qed.

(** The loop of AddRepo fills the sharing list of the repo slot by slot and
    appends the repo to the list of every node it passes. *)
Lemma addRepoNodes_spec (repoID : string) (rest : list NodeID) :
  forall (done : list NodeID) (w : World),
    repoNodes (mdl w) !! repoID = Some (done ++ replicate (length rest) zeroNodeID) ->
    exists w', addRepoNodes repoID (length done) rest w = Some (tt, w')
      /\ repoNodes (mdl w') = <[repoID := done ++ rest]> (repoNodes (mdl w))
      /\ forall n r,
           r ∈ default [] (nodeRepos (mdl w') !! n)
           <-> r ∈ default [] (nodeRepos (mdl w) !! n) \/ (r = repoID /\ n ∈ rest).
Proof.
  induction rest as [|node rest IH]; intros done w Hslot.
  - exists w. cbn [addRepoNodes]. split; [reflexivity|]. split.
    + cbn [length replicate] in Hslot. rewrite insert_id; [reflexivity | exact Hslot].
    + intros n r. split; [auto|]. intros [H|[_ H]]; [exact H | inversion H].
  - cbn [addRepoNodes]. unfold bind, setModel, modify. cbn [mdl].
    set (w1 := mkWorld _ _ _ _ _ _).
    destruct (IH (done ++ [node]) w1) as (w' & Hrun & Hnodes & Hrepos).
    { subst w1. cbn. rewrite lookup_insert_eq, Hslot. cbn [default length replicate].
      unfold id. rewrite insert_app_r_alt by lia. rewrite Nat.sub_diag. cbn [insert list_insert].
      rewrite <- app_assoc. reflexivity. }
    rewrite length_app in Hrun. cbn [length] in Hrun.
    replace (length done + 1)%nat with (S (length done)) in Hrun by lia.
    exists w'. split; [exact Hrun|]. split.
    + rewrite Hnodes. subst w1. cbn. rewrite insert_insert_eq, <- app_assoc. reflexivity.
    + intros n r. rewrite Hrepos. subst w1. cbn.
      destruct (decide (node = n)) as [->|Hne].
      * rewrite lookup_insert_eq. cbn. rewrite elem_of_app, list_elem_of_singleton.
        rewrite elem_of_cons. intuition auto.
      * rewrite lookup_insert_ne by exact Hne. rewrite elem_of_cons. intuition congruence.
Qed.

(** Adding a repository under a fresh identifier keeps the graph symmetric. *)
Lemma AddRepo_good (seen : list string) (c : config.RepositoryConfiguration) (w w' : World) :
  good seen (mdl w) -> config.ID c ∉ seen ->
  AddRepo c w = Some (tt, w') ->
  good (config.ID c :: seen) (mdl w').
Proof.
  intros [Hsym Hkeys] Hfresh Hrun. unfold AddRepo, bind, gets in Hrun.
  destruct (started (mdl w)); [discriminate Hrun|].
  destruct (String.length (config.ID c) =? 0)%nat; [discriminate Hrun|].
  unfold setModel, modify in Hrun. cbn [mdl] in Hrun.
  match type of Hrun with
  | match addRepoNodes _ _ _ ?x with _ => _ end = _ => set (w1 := x) in *
  end.
  destruct (addRepoNodes_spec (config.ID c) (config.Nodes c) [] w1)
    as (w2 & Hloop & Hnodes & Hrepos).
  { subst w1. cbn. rewrite lookup_insert_eq. reflexivity. }
  cbn [length] in Hloop. rewrite Hloop in Hrun. injection Hrun as <-.
  cbn [mdl app] in Hnodes. subst w1. cbn in Hnodes, Hrepos.
  rewrite insert_insert_eq in Hnodes.
  split.
  - intros r n. cbn. rewrite Hnodes, Hrepos.
    destruct (decide (config.ID c = r)) as [<-|Hne].
    + rewrite lookup_insert_eq. cbn [default]. split; [auto|].
      intros [Hold|[_ H]]; [|exact H]. exfalso. apply Hfresh, Hkeys.
      apply Hsym in Hold. destruct (repoNodes (mdl w) !! config.ID c); [eauto|].
      inversion Hold.
    + rewrite lookup_insert_ne by exact Hne. rewrite (Hsym r n). intuition congruence.
  - intros r. cbn. rewrite Hnodes.
    destruct (decide (config.ID c = r)) as [<-|Hne]; [intros _; left|].
    rewrite lookup_insert_ne by exact Hne. intros H. right. apply Hkeys, H.
Qed.

(** Symmetry of a pair of maps, and its preservation when a node and a repo
    are entered in each other's list. *)
Definition symmetricMaps (rn : gmap string (list NodeID)) (nr : gmap NodeID (list string))
  : Prop :=
  forall (r : string) (n : NodeID),
    n ∈ default [] (rn !! r) <-> r ∈ default [] (nr !! n).

Lemma symmetricMaps_share (rn : gmap string (list NodeID)) (nr : gmap NodeID (list string))
    (repoID : string) (peer : NodeID) :
  symmetricMaps rn nr ->
  symmetricMaps (<[repoID := default [] (rn !! repoID) ++ [peer]]> rn)
                (<[peer := default [] (nr !! peer) ++ [repoID]]> nr).
Proof.
  intros Hsym r n. specialize (Hsym r n).
  destruct (decide (repoID = r)) as [<-|Hr]; destruct (decide (peer = n)) as [<-|Hn];
    rewrite ?lookup_insert_eq, ?lookup_insert_ne by assumption; cbn [default];
    unfold Datatypes.id;
    rewrite ?elem_of_app, ?list_elem_of_singleton; intuition congruence.
Qed.

Lemma introduceNode_good (seen : list string) (nodeID : NodeID) (repoID : string)
    (node : Node) (changed b : bool) (w w' : World) :
  good seen (mdl w) -> is_Some (repoNodes (mdl w) !! repoID) ->
  introduceNode nodeID repoID node changed w = Some (b, w') ->
  good seen (mdl w') /\ is_Some (repoNodes (mdl w') !! repoID).
Proof.
  intros [Hsym Hkeys] Hrepo Hrun.
  unfold introduceNode, bind, gets, setModel, modify, ret in Hrun.
  set (peer := copyNodeID (nID node)) in *.
  assert (Hshare : forall m : Model,
    repoNodes m = repoNodes (mdl w) -> nodeRepos m = nodeRepos (mdl w) ->
    forall m' : Model,
    repoNodes m' = <[repoID := default [] (repoNodes m !! repoID) ++ [peer]]> (repoNodes m) ->
    nodeRepos m' = <[peer := default [] (nodeRepos m !! peer) ++ [repoID]]> (nodeRepos m) ->
    good seen m' /\ is_Some (repoNodes m' !! repoID)).
  { intros m Hrn Hnr m' Hrn' Hnr'. split; [split|].
    - unfold symmetric. rewrite Hrn', Hnr', Hrn, Hnr.
      apply symmetricMaps_share. exact Hsym.
    - intros r. rewrite Hrn', Hrn. destruct (decide (repoID = r)) as [<-|Hne].
      + intros _. apply Hkeys, Hrepo.
      + rewrite lookup_insert_ne by exact Hne. apply Hkeys.
    - rewrite Hrn', lookup_insert_eq. eauto. }
  destruct (config.GetNodeConfiguration (cfg (mdl w)) peer); cbn [mdl] in Hrun.
  - destruct (containsRepo repoID (default [] (nodeRepos (mdl w) !! peer))).
    + injection Hrun as <- <-. split; [split|]; assumption.
    + cbn in Hrun.
      match type of Hrun with
      | match ?x with _ => _ end _ = _ => destruct x; [|discriminate Hrun]
      end.
      injection Hrun as <- <-. cbn [mdl].
      eapply (Hshare (mdl w)); reflexivity.
  - cbn in Hrun.
    destruct (containsRepo repoID (default [] (nodeRepos (mdl w) !! peer))).
    + injection Hrun as <- <-. split; [split|]; assumption.
    + cbn in Hrun.
      match type of Hrun with
      | match ?x with _ => _ end _ = _ => destruct x; [|discriminate Hrun]
      end.
      injection Hrun as <- <-. cbn [mdl].
      eapply (Hshare (mdl w)); reflexivity.
Qed.

Lemma introduceNodes_good (seen : list string) (nodeID : NodeID) (repoID : string)
    (nodes : list Node) :
  forall (changed b : bool) (w w' : World),
    good seen (mdl w) -> is_Some (repoNodes (mdl w) !! repoID) ->
    introduceNodes nodeID repoID nodes changed w = Some (b, w') ->
    good seen (mdl w') /\ is_Some (repoNodes (mdl w') !! repoID).
Proof.
  induction nodes as [|node nodes IH]; intros changed b w w' Hgood Hrepo Hrun;
    cbn [introduceNodes] in Hrun.
  - injection Hrun as <- <-. split; assumption.
  - unfold bind in Hrun.
    destruct (introduceNode nodeID repoID node changed w) as [[c w1]|] eqn:Hstep;
      [|discriminate Hrun].
    destruct (introduceNode_good _ _ _ _ _ _ _ _ Hgood Hrepo Hstep) as [Hgood1 Hrepo1].
    exact (IH _ _ _ _ Hgood1 Hrepo1 Hrun).
Qed.

Lemma introduceRepos_good (seen : list string) (nodeID : NodeID) (repos : list Repository) :
  forall (changed b : bool) (w w' : World),
    good seen (mdl w) ->
    introduceRepos nodeID repos changed w = Some (b, w') ->
    good seen (mdl w').
Proof.
  induction repos as [|repo repos IH]; intros changed b w w' Hgood Hrun;
    cbn [introduceRepos] in Hrun.
  - injection Hrun as <- <-. exact Hgood.
  - unfold bind, gets in Hrun.
    destruct (repoNodes (mdl w) !! rID repo) as [l|] eqn:Hrepo.
    + destruct (introduceNodes nodeID (rID repo) (rNodes repo) changed w)
        as [[c w1]|] eqn:Hnodes; [|discriminate Hrun].
      destruct (introduceNodes_good seen _ _ _ _ _ _ _ Hgood (mk_is_Some _ _ Hrepo) Hnodes)
        as [Hgood1 _].
      exact (IH _ _ _ _ Hgood1 Hrun).
    + exact (IH _ _ _ _ Hgood Hrun).
Qed.

Lemma keeps_saveCfg : keeps saveCfg.
Proof. unfold saveCfg. keeps_auto. Qed.
#[local] Hint Resolve keeps_saveCfg : keeps.

Lemma ClusterConfig_good (seen : list string) (nodeID : NodeID) (cm : ClusterConfigMessage)
    (w w' : World) :
  good seen (mdl w) -> ClusterConfig nodeID cm w = Some (tt, w') -> good seen (mdl w').
Proof.
  intros Hgood Hrun. unfold ClusterConfig in Hrun.
  unfold bind at 1 in Hrun.
  match type of Hrun with
  | match ?c w with _ => _ end = _ =>
      destruct (c w) as [[[] w1]|] eqn:H1; [|discriminate Hrun];
      assert (Hk1 : keeps c) by keeps_auto
  end.
  apply Hk1 in H1. apply (good_graph seen _ _ H1) in Hgood. clear H1 Hk1.
  unfold bind at 1 in Hrun.
  match type of Hrun with
  | match ?c w1 with _ => _ end = _ =>
      destruct (c w1) as [[[] w2]|] eqn:H2; [|discriminate Hrun];
      assert (Hk2 : keeps c) by keeps_auto
  end.
  apply Hk2 in H2. apply (good_graph seen _ _ H2) in Hgood. clear H2 Hk2.
  unfold bind, gets in Hrun.
  destruct (config.GetNodeConfiguration (cfg (mdl w2)) nodeID) as [n|]; [|discriminate Hrun].
  destruct (config.Introducer n).
  - destruct (introduceRepos nodeID (cmRepositories cm) false w2) as [[c w3]|] eqn:H3;
      [|discriminate Hrun].
    apply (introduceRepos_good seen) in H3; [|exact Hgood].
    destruct c.
    + apply (good_graph seen w3); [|exact H3]. exact (keeps_saveCfg _ _ _ Hrun).
    + injection Hrun as <-. exact H3.
  - injection Hrun as <-. exact Hgood.
Qed.

Lemma exec_good (seen : list string) (op : Op) (w w' : World) :
  good seen (mdl w) ->
  (forall r, r ∈ addedIDs [op] -> r ∉ seen) ->
  exec op w = Some (tt, w') ->
  good (addedIDs [op] ++ seen) (mdl w').
Proof.
  intros Hgood Hfresh Hrun.
  destruct op; cbn [exec addedIDs app] in *.
  - apply (AddRepo_good seen _ w); [exact Hgood | | exact Hrun].
    apply Hfresh. left.
  - exact (ClusterConfig_good seen _ _ _ _ Hgood Hrun).
  - apply (good_graph seen w); [|exact Hgood]. exact (keeps_Close _ _ _ _ _ Hrun).
  - apply (good_graph seen w); [|exact Hgood]. exact (keeps_Index _ _ _ _ _ _ Hrun).
  - apply (good_graph seen w); [|exact Hgood]. exact (keeps_IndexUpdate _ _ _ _ _ _ Hrun).
  - apply (good_graph seen w); [|exact Hgood]. revert Hrun.
    apply keeps_bind; [apply keeps_Request | intros; apply keeps_ret].
  - apply (good_graph seen w); [|exact Hgood]. exact (keeps_setState _ _ _ _ _ Hrun).
  - apply (good_graph seen w); [|exact Hgood]. revert Hrun.
    apply keeps_bind; [apply keeps_ScanRepoSub | intros; apply keeps_ret].
Qed.

Lemma execAll_good (ops : list Op) :
  forall (seen : list string) (w w' : World),
    good seen (mdl w) ->
    NoDup (addedIDs ops) ->
    (forall r, r ∈ addedIDs ops -> r ∉ seen) ->
    execAll ops w = Some (tt, w') ->
    exists seen', good seen' (mdl w').
Proof.
  induction ops as [|op ops IH]; intros seen w w' Hgood Hnodup Hfresh Hrun;
    cbn [execAll] in Hrun.
  - injection Hrun as <-. eauto.
  - unfold bind in Hrun. destruct (exec op w) as [[[] w1]|] eqn:Hop; [|discriminate Hrun].
    assert (Hsplit : addedIDs (op :: ops) = addedIDs [op] ++ addedIDs ops).
    { destruct op; reflexivity. }
    rewrite Hsplit in Hnodup, Hfresh.
    apply NoDup_app in Hnodup as (_ & Hdisj & Hnodup).
    apply (IH (addedIDs [op] ++ seen) w1 w'); [| exact Hnodup | | exact Hrun].
    + apply (exec_good seen op w); [exact Hgood | | exact Hop].
      intros r Hr. apply Hfresh, elem_of_app. left. exact Hr.
    + intros r Hr Hin. apply elem_of_app in Hin as [Hin|Hin].
      * exact (Hdisj r Hin Hr).
      * apply (Hfresh r); [apply elem_of_app; right; exact Hr | exact Hin].
Qed.

(** The statement of C3: every state a sequence of operations reaches from
    a fresh model has a symmetric sharing graph. *)
Definition symmetric_as_stated : Prop :=
  forall (c : config.Configuration) (wallClock : nat -> Z)
         (d : string -> string -> DiskEntry) (ops : list Op) (w' : World),
    execAll ops (initWorld c wallClock d) = Some (tt, w') -> symmetric (mdl w').

(** Adding a repository again under the same identifier overwrites its
    sharing list but leaves the identifier in the lists of the nodes. *)
Lemma readded_repo_not_symmetric : ~ symmetric_as_stated.
Proof.
  intros Hspec.
  assert (Hrun : execAll [OpAddRepo photosCfg; OpAddRepo photosAlone]
                   (initWorld cfg0 wall0 photosDisk) = Some (tt, worldTwice))
    by (vm_compute; reflexivity).
  apply Hspec in Hrun.
  destruct (Hrun "photos" nodeN) as [_ Hback].
  assert (Hin : nodeN ∈ default [] (repoNodes (mdl worldTwice) !! "photos")).
  { apply Hback. vm_compute. left. }
  vm_compute in Hin. inversion Hin.
Qed.

(** C3 (amended). In every state reached from a fresh model by a sequence of
    operations that adds no repository identifier twice, a node is in the
    sharing list of a repo if and only if the repo is in the list of the
    node. *)
Theorem sharing_graph_symmetric (c : config.Configuration) (wallClock : nat -> Z)
    (d : string -> string -> DiskEntry) (ops : list Op) (w' : World) :
  NoDup (addedIDs ops) ->
  execAll ops (initWorld c wallClock d) = Some (tt, w') ->
  symmetric (mdl w').
Proof.
  intros Hnodup Hrun.
  destruct (execAll_good ops [] (initWorld c wallClock d) w') as (seen & Hsym & _);
    [ | exact Hnodup | | exact Hrun | exact Hsym ].
  - split.
    + intros r n. cbn. rewrite !lookup_empty. cbn. split; intros H; inversion H.
    + intros r [l Hl]. cbn in Hl. rewrite lookup_empty in Hl. discriminate Hl.
  - intros r _ Hin. inversion Hin.
Qed.

Lemma sharing_graph_symmetric_witness :
  NoDup (addedIDs [OpAddRepo photosCfg; OpClusterConfig nodeN announcePhotos])
  /\ execAll [OpAddRepo photosCfg; OpClusterConfig nodeN announcePhotos]
       (initWorld introCfg wall0 photosDisk) = Some (tt, introWorld1)
  /\ symmetric (mdl introWorld1).
Proof.
  assert (Hnodup : NoDup (addedIDs [OpAddRepo photosCfg; OpClusterConfig nodeN announcePhotos])).
  { cbn. apply NoDup_singleton. }
  assert (Hrun : execAll [OpAddRepo photosCfg; OpClusterConfig nodeN announcePhotos]
                   (initWorld introCfg wall0 photosDisk) = Some (tt, introWorld1)).
  { vm_compute. reflexivity. }
  split; [exact Hnodup|]. split; [exact Hrun|].
  exact (sharing_graph_symmetric introCfg wall0 photosDisk
           [OpAddRepo photosCfg; OpClusterConfig nodeN announcePhotos] introWorld1
           Hnodup Hrun).
Defined.

(** ** The second pass of a scan *)

(** Names are compared byte by byte. *)
Definition nameLt (a b : string) : Prop := String.compare a b = Lt.

(** Between two names that start with [p], every name starts with [p]. *)
Lemma prefix_between (p : string) :
  forall a b c : string,
    nameLt a b -> nameLt b c ->
    String.prefix p a = true -> String.prefix p c = true -> String.prefix p b = true.
Proof.
  unfold nameLt. induction p as [|x p IH]; intros a b c Hab Hbc Ha Hc.
  - destruct b; reflexivity.
  - destruct a as [|a0 a]; [discriminate Ha|].
    destruct c as [|c0 c]; [discriminate Hc|].
    cbn [String.prefix] in Ha, Hc.
    destruct (ascii_dec x a0) as [<-|]; [|discriminate Ha].
    destruct (ascii_dec x c0) as [<-|]; [|discriminate Hc].
    destruct b as [|b0 b]; [discriminate Hab|].
    cbn [String.compare String.prefix] in *.
    rewrite (Ascii.compare_antisym b0 x) in Hbc.
    destruct (Ascii.compare x b0) eqn:Hxb; cbn [CompOpp] in Hbc;
      [|discriminate Hbc|discriminate Hab].
    apply Ascii.compare_eq_iff in Hxb as <-.
    destruct (ascii_dec x x) as [_|Hne]; [|exfalso; apply Hne; reflexivity].
    exact (IH a b c Hab Hbc Ha Hc).
Qed.

Lemma compare_eq_eqb (a b : string) : String.compare a b = Eq <-> String.eqb a b = true.
Proof.
  rewrite String.eqb_eq. split; [apply String.compare_eq_iff|].
  intros ->. induction b as [|x b IH]; [reflexivity|].
  cbn [String.compare]. unfold Ascii.compare. rewrite N.compare_refl. exact IH.
Qed.

Lemma nameLt_neq (a b : string) : nameLt a b -> String.eqb a b = false.
Proof.
  unfold nameLt. intros Hlt. destruct (String.eqb a b) eqn:Heq; [|reflexivity].
  apply compare_eq_eqb in Heq. congruence.
Qed.

(** *** Lookups after insertions *)

Lemma lookupName_upsert (name : string) (f : FileInfo) (l : list FileInfo) :
  files.lookupName name (files.upsert f l) =
    if String.eqb (Name f) name then Some f else files.lookupName name l.
Proof.
  induction l as [|g l IH]; cbn [files.upsert files.lookupName]; [reflexivity|].
  destruct (String.compare (Name f) (Name g)) eqn:Hcmp; cbn [files.lookupName].
  - apply String.compare_eq_iff in Hcmp. rewrite <- Hcmp.
    destruct (String.eqb (Name f) name); reflexivity.
  - reflexivity.
  - rewrite IH. destruct (String.eqb (Name g) name) eqn:Hg; [|reflexivity].
    destruct (String.eqb (Name f) name) eqn:Hf; [|reflexivity].
    apply String.eqb_eq in Hg, Hf. rewrite Hg, <- Hf in Hcmp.
    assert (Heq : String.compare (Name f) (Name f) = Eq) by (apply compare_eq_eqb, String.eqb_refl).
    congruence.
Qed.

Lemma insertAll_app (fs1 fs2 : list FileInfo) (acc : list FileInfo * Z) :
  files.insertAll (fs1 ++ fs2) acc = files.insertAll fs2 (files.insertAll fs1 acc).
Proof.
  revert acc. induction fs1 as [|f fs1 IH]; intros acc; cbn [app files.insertAll];
    [reflexivity | apply IH].
Qed.

(** Entries written under other names do not change what a lookup finds. *)
Lemma lookupName_insertAll_other (name : string) (ws : list FileInfo) :
  forall acc : list FileInfo * Z,
    (forall nf, nf ∈ ws -> Name nf <> name) ->
    files.lookupName name (fst (files.insertAll ws acc)) = files.lookupName name (fst acc).
Proof.
  induction ws as [|w ws IH]; intros acc Hother; cbn [files.insertAll]; [reflexivity|].
  rewrite IH by (intros nf Hin; apply Hother; right; exact Hin).
  cbn [fst]. rewrite lookupName_upsert. cbn [files.withLocalVersion Name].
  destruct (String.eqb (Name w) name) eqn:Hw; [|reflexivity].
  apply String.eqb_eq in Hw. exfalso. apply (Hother w); [left | exact Hw].
Qed.

(** The local replica and its watermark once [batch] is committed too. *)
Definition pending (s : files.Set_) (batch : list FileInfo) : list FileInfo * Z :=
  files.insertAll batch (files.have s LocalNodeID, files.LocalVersion s LocalNodeID).

Lemma pending_Update (s : files.Set_) (batch : list FileInfo) :
  pending (files.Update s LocalNodeID batch) [] = pending s batch.
Proof.
  unfold pending, files.Update. cbn [files.insertAll].
  destruct (files.insertAll batch _) as [l lv].
  unfold files.have, files.LocalVersion. cbn [files.replicas files.localVersions].
  rewrite !lookup_insert_eq. reflexivity.
Qed.

Lemma pending_snoc (s : files.Set_) (batch ws : list FileInfo) :
  pending s (batch ++ ws) = files.insertAll ws (pending s batch).
Proof. unfold pending. apply insertAll_app. Qed.

(** What the visitor does with one entry, given the clock: the entries it
    appends to the batch and the clock it leaves. *)
Definition scanEntry (sub dir : string) (ignores : ignore.Patterns)
    (d : string -> string -> DiskEntry) (clock : Z) (f : FileInfoTruncated)
  : list FileInfo * Z :=
  if negb (String.prefix sub (tName f)) then ([], clock)
  else if IsDeleted (tFlags f) || IsInvalid (tFlags f) then ([], clock)
  else if ignore.Match ignores (tName f) then
    ([mkFile (tName f) (Z.lor (tFlags f) FlagInvalid) (tModified f) (tVersion f) 0 []], clock)
  else match d dir (tName f) with
       | NotExist =>
           let v := lamport.Tick clock (tVersion f) in
           ([mkFile (tName f) (Z.lor (tFlags f) FlagDeleted) (tModified f) v 0 []], v)
       | File _ | Unreadable => ([], clock)
       end.

(** The same over a whole view, without stopping. *)
Fixpoint scanAll (sub dir : string) (ignores : ignore.Patterns)
    (d : string -> string -> DiskEntry) (l : list FileInfoTruncated) (clock : Z)
  : list FileInfo * Z :=
  match l with
  | [] => ([], clock)
  | f :: l' =>
      let '(ws, c) := scanEntry sub dir ignores d clock f in
      let '(ws', c') := scanAll sub dir ignores d l' c in
      (ws ++ ws', c')
  end.

Lemma scanAll_app (sub dir : string) (ignores : ignore.Patterns)
    (d : string -> string -> DiskEntry) (l1 l2 : list FileInfoTruncated) (clock : Z) :
  scanAll sub dir ignores d (l1 ++ l2) clock =
    (fst (scanAll sub dir ignores d l1 clock)
       ++ fst (scanAll sub dir ignores d l2 (snd (scanAll sub dir ignores d l1 clock))),
     snd (scanAll sub dir ignores d l2 (snd (scanAll sub dir ignores d l1 clock)))).
Proof.
  revert clock. induction l1 as [|f l1 IH]; intros clock; cbn [app scanAll fst snd].
  - destruct (scanAll sub dir ignores d l2 clock); reflexivity.
  - destruct (scanEntry sub dir ignores d clock f) as [ws c]. rewrite IH.
    destruct (scanAll sub dir ignores d l1 c) as [ws1 c1]. cbn [fst snd].
    destruct (scanAll sub dir ignores d l2 c1) as [ws2 c2]. cbn [fst snd].
    rewrite app_assoc. reflexivity.
Qed.

Lemma scanAll_outside (sub dir : string) (ignores : ignore.Patterns)
    (d : string -> string -> DiskEntry) (l : list FileInfoTruncated) (clock : Z) :
  Forall (fun f => String.prefix sub (tName f) = false) l ->
  scanAll sub dir ignores d l clock = ([], clock).
Proof.
  induction 1 as [|f l Hf _ IH]; cbn [scanAll]; [reflexivity|].
  unfold scanEntry. rewrite Hf. cbn [negb]. rewrite IH. reflexivity.
Qed.

(** Every entry written carries the name of an entry under the subpath. *)
Lemma scanAll_names (sub dir : string) (ignores : ignore.Patterns)
    (d : string -> string -> DiskEntry) (l : list FileInfoTruncated) :
  forall (clock : Z) (nf : FileInfo),
    nf ∈ fst (scanAll sub dir ignores d l clock) ->
    exists f, f ∈ l /\ tName f = Name nf /\ String.prefix sub (tName f) = true.
Proof.
  induction l as [|f l IH]; intros clock nf Hin; cbn [scanAll] in Hin.
  - inversion Hin.
  - destruct (scanEntry sub dir ignores d clock f) as [ws c] eqn:Hentry.
    destruct (scanAll sub dir ignores d l c) as [ws' c'] eqn:Hrest.
    cbn [fst] in Hin. apply elem_of_app in Hin as [Hin|Hin].
    + exists f. split; [left|]. unfold scanEntry in Hentry.
      destruct (String.prefix sub (tName f)); cbn [negb] in Hentry;
        [|injection Hentry as <- <-; inversion Hin].
      split; [|reflexivity].
      destruct (IsDeleted (tFlags f) || IsInvalid (tFlags f));
        [injection Hentry as <- <-; inversion Hin|].
      destruct (ignore.Match ignores (tName f)).
      * injection Hentry as <- <-. apply list_elem_of_singleton in Hin as ->. reflexivity.
      * destruct (d dir (tName f)); injection Hentry as <- <-;
          try (inversion Hin; fail).
        apply list_elem_of_singleton in Hin as ->. reflexivity.
    + destruct (IH c nf) as (g & Hg & Hname & Hpre); [rewrite Hrest; exact Hin|].
      exists g. split; [right; exact Hg | split; assumption].
Qed.

Lemma updateLocalSet_spec (repo : string) (batch : list FileInfo) (w : World)
    (cur : files.Set_) :
  repoFiles (mdl w) !! repo = Some cur ->
  exists w', updateLocalSet repo batch w = Some (tt, w')
    /\ repoFiles (mdl w') !! repo = Some (files.Update cur LocalNodeID batch)
    /\ lamportDefault w' = lamportDefault w
    /\ disk w' = disk w.
Proof.
  intros Hcur. eexists. split; [reflexivity|]. cbn.
  rewrite lookup_alter_eq, Hcur. repeat split.
Qed.

(** Committing a full batch before going on changes nothing that is pending. *)
Lemma flush_spec (repo : string) (batch : list FileInfo) (w : World) (cur : files.Set_) :
  repoFiles (mdl w) !! repo = Some cur ->
  exists batch1 w1 cur1,
    (if (length batch =? batchSize)%nat
     then run updateLocalSet repo batch; ret []
     else ret batch) w = Some (batch1, w1)
    /\ repoFiles (mdl w1) !! repo = Some cur1
    /\ pending cur1 batch1 = pending cur batch
    /\ lamportDefault w1 = lamportDefault w
    /\ disk w1 = disk w.
Proof.
  intros Hcur. destruct (length batch =? batchSize)%nat.
  - destruct (updateLocalSet_spec repo batch w cur Hcur) as (w' & Hrun & Hcur' & Hclock & Hdisk).
    exists [], w', (files.Update cur LocalNodeID batch).
    unfold bind. rewrite Hrun. split; [reflexivity|]. split; [exact Hcur'|].
    split; [apply pending_Update|]. split; assumption.
  - exists batch, w, cur. repeat split. exact Hcur.
Qed.

(** One call of the visitor, against [scanEntry]. *)
Lemma scanVisit_spec (repo sub dir : string) (ignores : ignore.Patterns)
    (batch : list FileInfo) (seen : bool) (f : FileInfoTruncated) (w : World)
    (cur : files.Set_) :
  repoFiles (mdl w) !! repo = Some cur ->
  exists batch' w' cur',
    scanVisit repo sub dir ignores (batch, seen) f w
      = Some ((batch', seen || String.prefix sub (tName f),
               String.prefix sub (tName f) || negb seen), w')
    /\ repoFiles (mdl w') !! repo = Some cur'
    /\ disk w' = disk w
    /\ pending cur' batch'
       = files.insertAll (fst (scanEntry sub dir ignores (disk w) (lamportDefault w) f))
           (pending cur batch)
    /\ lamportDefault w' = snd (scanEntry sub dir ignores (disk w) (lamportDefault w) f).
Proof.
  intros Hcur. unfold scanVisit, scanEntry.
  destruct (String.prefix sub (tName f)); cbn [negb orb].
  2: { exists batch, w, cur. rewrite orb_false_r. repeat split. exact Hcur. }
  rewrite orb_true_r.
  destruct (IsDeleted (tFlags f)) eqn:Hdel; cbn [negb orb].
  { exists batch, w, cur. repeat split. exact Hcur. }
  change (isInvalid f) with (IsInvalid (tFlags f)).
  destruct (IsInvalid (tFlags f)) eqn:Hinv.
  { exists batch, w, cur. repeat split. exact Hcur. }
  destruct (flush_spec repo batch w cur Hcur)
    as (batch1 & w1 & cur1 & Hflush & Hcur1 & Hpend & Hclock & Hdisk).
  unfold bind at 1. rewrite Hflush.
  destruct (ignore.Match ignores (tName f)).
  - eexists _, _, cur1. split; [reflexivity|]. cbn.
    split; [exact Hcur1|]. split; [exact Hdisk|]. split; [|exact Hclock].
    rewrite pending_snoc, Hpend. reflexivity.
  - unfold bind, gets. rewrite Hdisk.
    destruct (disk w dir (tName f)).
    + exists batch1, w1, cur1. repeat split; assumption.
    + eexists _, _, cur1. split; [reflexivity|]. cbn.
      split; [exact Hcur1|]. split; [exact Hdisk|]. rewrite Hclock. split; [|reflexivity].
      rewrite pending_snoc, Hpend. reflexivity.
    + exists batch1, w1, cur1. repeat split; assumption.
Qed.

(** The traversal, against [scanAll]: the entries up to [l1] have been
    handled; it either came to the end or stopped behind the last entry of
    [l1], one outside the subpath met after one inside. *)
Lemma scanTraverse_spec (repo sub dir : string) (ignores : ignore.Patterns)
    (l : list FileInfoTruncated) :
  forall (batch : list FileInfo) (seen : bool) (w : World) (cur : files.Set_),
    repoFiles (mdl w) !! repo = Some cur ->
    exists batch' seen' w' cur' l1 l2,
      traverseM (scanVisit repo sub dir ignores) (batch, seen) l w
        = Some ((batch', seen'), w')
      /\ l = l1 ++ l2
      /\ repoFiles (mdl w') !! repo = Some cur'
      /\ disk w' = disk w
      /\ pending cur' batch'
         = files.insertAll (fst (scanAll sub dir ignores (disk w) l1 (lamportDefault w)))
             (pending cur batch)
      /\ lamportDefault w' = snd (scanAll sub dir ignores (disk w) l1 (lamportDefault w))
      /\ (l2 = []
          \/ exists l1' g, l1 = l1' ++ [g]
               /\ String.prefix sub (tName g) = false
               /\ (seen = true
                   \/ Exists (fun h => String.prefix sub (tName h) = true) l1')).
Proof.
  induction l as [|x l IH]; intros batch seen w cur Hcur.
  - exists batch, seen, w, cur, [], []. cbn. repeat split; auto.
  - destruct (scanVisit_spec repo sub dir ignores batch seen x w cur Hcur)
      as (batch1 & w1 & cur1 & Hstep & Hcur1 & Hdisk1 & Hpend1 & Hclock1).
    cbn [traverseM]. unfold bind at 1. rewrite Hstep. cbn [fst snd].
    destruct (String.prefix sub (tName x) || negb seen) eqn:Hcont.
    + destruct (IH batch1 (seen || String.prefix sub (tName x)) w1 cur1 Hcur1)
        as (batch' & seen' & w' & cur' & l1 & l2 & Hrun & Hl & Hcur' & Hdisk' & Hpend'
            & Hclock' & Hstop).
      exists batch', seen', w', cur', (x :: l1), l2.
      split; [exact Hrun|]. split; [rewrite Hl; reflexivity|].
      split; [exact Hcur'|]. split; [congruence|].
      rewrite Hdisk1, Hclock1 in Hpend', Hclock'. cbn [scanAll].
      destruct (scanEntry sub dir ignores (disk w) (lamportDefault w) x) as [ws c].
      cbn [fst snd] in *.
      destruct (scanAll sub dir ignores (disk w) l1 c) as [ws1 c1]. cbn [fst snd] in *.
      split; [rewrite Hpend', Hpend1, insertAll_app; reflexivity|].
      split; [exact Hclock'|].
      destruct Hstop as [->|(l1' & g & -> & Hg & Hseen)]; [left; reflexivity|].
      right. exists (x :: l1'), g. split; [reflexivity|]. split; [exact Hg|].
      destruct Hseen as [Hseen|Hex]; [|right; right; exact Hex].
      apply orb_true_iff in Hseen as [->|Hx]; [left; reflexivity|].
      right. left. exact Hx.
    + apply orb_false_iff in Hcont as [Hx Hseen].
      apply negb_false_iff in Hseen.
      exists batch1, (seen || String.prefix sub (tName x)), w1, cur1, [x], l.
      split; [reflexivity|]. split; [reflexivity|].
      split; [exact Hcur1|]. split; [exact Hdisk1|]. cbn [scanAll].
      destruct (scanEntry sub dir ignores (disk w) (lamportDefault w) x) as [ws c].
      cbn [fst snd] in *. rewrite app_nil_r.
      split; [exact Hpend1|]. split; [exact Hclock1|].
      right. exists [], x. split; [reflexivity|]. split; [exact Hx|]. left. exact Hseen.
Qed.

(** The replica lists its entries in strictly increasing order of name. *)
Definition sortedByName (l : list FileInfo) : Prop :=
  StronglySorted (fun a b => nameLt (Name a) (Name b)) l.

(** In an ordered view, an entry outside the subpath that follows one
    inside it is followed by entries outside only. *)
Lemma outside_after_inside (sub : string) (l1 : list FileInfoTruncated)
    (g : FileInfoTruncated) (l2 : list FileInfoTruncated) :
  StronglySorted (fun a b => nameLt (tName a) (tName b)) ((l1 ++ [g]) ++ l2) ->
  String.prefix sub (tName g) = false ->
  Exists (fun h => String.prefix sub (tName h) = true) l1 ->
  Forall (fun f => String.prefix sub (tName f) = false) l2.
Proof.
  intros Hsorted Hg Hex. apply Exists_exists in Hex as (h & Hh & Hpre).
  apply Forall_forall. intros f Hf.
  destruct (String.prefix sub (tName f)) eqn:Hpf; [|reflexivity].
  assert (Hhg : nameLt (tName h) (tName g)).
  { apply StronglySorted_app_1_l in Hsorted.
    apply (StronglySorted_app_1_elem_of _ _ _ _ _ Hsorted); [exact Hh | left]. }
  assert (Hgf : nameLt (tName g) (tName f)).
  { apply (StronglySorted_app_1_elem_of _ _ _ _ _ Hsorted); [|exact Hf].
    apply elem_of_app. right. left. }
  rewrite (prefix_between sub _ _ _ Hhg Hgf Hpre Hpf) in Hg. discriminate Hg.
Qed.

Lemma sortedByName_truncate (l : list FileInfo) :
  sortedByName l ->
  StronglySorted (fun a b => nameLt (tName a) (tName b)) (truncate <$> l).
Proof. apply StronglySorted_fmap. intros x y H. exact H. Qed.

(** The second pass on an ordered replica: it commits to the local replica
    exactly what [scanAll] writes for the whole replica, and leaves the
    clock where [scanAll] leaves it. *)
Lemma scanSecondPass_spec (repo sub dir : string) (ignores : ignore.Patterns)
    (w : World) (fs : files.Set_) :
  repoFiles (mdl w) !! repo = Some fs ->
  sortedByName (files.have fs LocalNodeID) ->
  exists w' fs',
    scanSecondPass repo sub dir ignores w = Some (tt, w')
    /\ repoFiles (mdl w') !! repo = Some fs'
    /\ (files.have fs' LocalNodeID, files.LocalVersion fs' LocalNodeID)
       = files.insertAll
           (fst (scanAll sub dir ignores (disk w) (truncate <$> files.have fs LocalNodeID)
                   (lamportDefault w)))
           (files.have fs LocalNodeID, files.LocalVersion fs LocalNodeID)
    /\ lamportDefault w'
       = snd (scanAll sub dir ignores (disk w) (truncate <$> files.have fs LocalNodeID)
                (lamportDefault w)).
Proof.
  intros Hfs Hsorted. apply sortedByName_truncate in Hsorted.
  unfold scanSecondPass, bind, gets. cbv beta. rewrite Hfs.
  cbn [from_option]. unfold id.
  destruct (scanTraverse_spec repo sub dir ignores (truncate <$> files.have fs LocalNodeID)
              [] false w fs Hfs)
    as (batch' & seen' & w1 & cur1 & l1 & l2 & Hrun & Hl & Hcur1 & Hdisk1 & Hpend & Hclock
        & Hstop).
  rewrite Hrun. cbn [fst].
  assert (Hall : scanAll sub dir ignores (disk w) (truncate <$> files.have fs LocalNodeID)
                   (lamportDefault w)
                 = scanAll sub dir ignores (disk w) l1 (lamportDefault w)).
  { rewrite Hl in *. destruct Hstop as [->|(l1' & g & -> & Hg & [Hseen|Hex])].
    - rewrite app_nil_r. reflexivity.
    - discriminate Hseen.
    - rewrite scanAll_app.
      rewrite (scanAll_outside sub dir ignores (disk w) l2)
        by exact (outside_after_inside sub l1' g l2 Hsorted Hg Hex).
      cbn [fst snd]. rewrite app_nil_r.
      destruct (scanAll sub dir ignores (disk w) (l1' ++ [g]) (lamportDefault w));
        reflexivity. }
  rewrite Hall. change (files.have fs LocalNodeID, files.LocalVersion fs LocalNodeID)
    with (pending fs []). rewrite <- Hpend, <- Hclock.
  destruct (0 <? length batch')%nat eqn:Hlen.
  - destruct (updateLocalSet_spec repo batch' w1 cur1 Hcur1)
      as (w' & Hupd & Hcur' & Hclock' & _).
    exists w', (files.Update cur1 LocalNodeID batch').
    split; [exact Hupd|]. split; [exact Hcur'|]. split; [|exact Hclock'].
    rewrite <- pending_Update. reflexivity.
  - exists w1, cur1. split; [reflexivity|]. split; [exact Hcur1|]. split; [|reflexivity].
    destruct batch'; [reflexivity | discriminate Hlen].
Qed.

(** An entry under the subpath, neither deleted nor invalid nor ignored,
    whose file is no longer on disk. *)
Definition vanished (sub dir : string) (ignores : ignore.Patterns)
    (d : string -> string -> DiskEntry) (f : FileInfo) : bool :=
  String.prefix sub (Name f)
  && negb (IsDeleted (Flags f)) && negb (IsInvalid (Flags f))
  && negb (ignore.Match ignores (Name f))
  && match d dir (Name f) with NotExist => true | File _ | Unreadable => false end.

(** An entry under the subpath, neither deleted nor invalid, that the
    patterns now ignore. *)
Definition ignoredNow (sub : string) (ignores : ignore.Patterns) (f : FileInfo) : bool :=
  String.prefix sub (Name f)
  && negb (IsDeleted (Flags f)) && negb (IsInvalid (Flags f))
  && ignore.Match ignores (Name f).

Lemma scanEntry_vanished (sub dir : string) (ignores : ignore.Patterns)
    (d : string -> string -> DiskEntry) (clock : Z) (f : FileInfo) :
  vanished sub dir ignores d f = true ->
  scanEntry sub dir ignores d clock (truncate f) =
    ([mkFile (Name f) (Z.lor (Flags f) FlagDeleted) (Modified f)
        (lamport.Tick clock (Version f)) 0 []],
     lamport.Tick clock (Version f)).
Proof.
  unfold vanished, scanEntry. cbn [truncate tName tFlags tModified tVersion].
  intros H. repeat (apply andb_true_iff in H as [H ?]).
  rewrite H. cbn [negb].
  destruct (IsDeleted (Flags f)); [discriminate|].
  destruct (IsInvalid (Flags f)); [discriminate|].
  destruct (ignore.Match ignores (Name f)); [discriminate|]. cbn [orb].
  destruct (d dir (Name f)); [discriminate | reflexivity | discriminate].
Qed.

Lemma scanEntry_not_vanished (sub dir : string) (ignores : ignore.Patterns)
    (d : string -> string -> DiskEntry) (clock : Z) (f : FileInfo) :
  vanished sub dir ignores d f = false ->
  snd (scanEntry sub dir ignores d clock (truncate f)) = clock.
Proof.
  unfold vanished, scanEntry. cbn [truncate tName tFlags tModified tVersion].
  destruct (String.prefix sub (Name f)); [|reflexivity].
  destruct (IsDeleted (Flags f)); [reflexivity|].
  destruct (IsInvalid (Flags f)); [reflexivity|].
  destruct (ignore.Match ignores (Name f)); [reflexivity|].
  destruct (d dir (Name f)); [reflexivity | discriminate | reflexivity].
Qed.

Lemma scanEntry_ignoredNow (sub dir : string) (ignores : ignore.Patterns)
    (d : string -> string -> DiskEntry) (clock : Z) (f : FileInfo) :
  ignoredNow sub ignores f = true ->
  scanEntry sub dir ignores d clock (truncate f) =
    ([mkFile (Name f) (Z.lor (Flags f) FlagInvalid) (Modified f) (Version f) 0 []], clock).
Proof.
  unfold ignoredNow, scanEntry. cbn [truncate tName tFlags tModified tVersion].
  intros H. repeat (apply andb_true_iff in H as [H ?]).
  rewrite H. cbn [negb].
  destruct (IsDeleted (Flags f)); [discriminate|].
  destruct (IsInvalid (Flags f)); [discriminate|].
  destruct (ignore.Match ignores (Name f)); [reflexivity | discriminate].
Qed.

(** The clock after a pass: ticked with the version of every vanished entry,
    in order. *)
Lemma scanAll_clock (sub dir : string) (ignores : ignore.Patterns)
    (d : string -> string -> DiskEntry) (l : list FileInfo) :
  forall clock : Z,
    snd (scanAll sub dir ignores d (truncate <$> l) clock)
    = fold_left lamport.Tick (Version <$> List.filter (vanished sub dir ignores d) l) clock.
Proof.
  induction l as [|f l IH]; intros clock; [reflexivity|].
  rewrite fmap_cons. cbn [scanAll List.filter].
  destruct (vanished sub dir ignores d f) eqn:Hv.
  - rewrite (scanEntry_vanished _ _ _ _ _ _ Hv).
    specialize (IH (lamport.Tick clock (Version f))).
    destruct (scanAll sub dir ignores d (truncate <$> l) _) as [ws c].
    cbn [snd] in *. rewrite IH. reflexivity.
  - pose proof (scanEntry_not_vanished _ _ _ _ clock _ Hv) as Hc.
    destruct (scanEntry sub dir ignores d clock (truncate f)) as [ws c]. cbn [snd] in Hc.
    subst c. specialize (IH clock).
    destruct (scanAll sub dir ignores d (truncate <$> l) clock) as [ws' c'].
    cbn [snd] in *. exact IH.
Qed.

Lemma scanAll_names_of (sub dir : string) (ignores : ignore.Patterns)
    (d : string -> string -> DiskEntry) (l : list FileInfo) (clock : Z) (nf : FileInfo) :
  nf ∈ fst (scanAll sub dir ignores d (truncate <$> l) clock) ->
  exists g, g ∈ l /\ Name g = Name nf /\ String.prefix sub (Name g) = true.
Proof.
  intros Hin. apply scanAll_names in Hin as (t & Ht & Hname & Hpre).
  apply list_elem_of_fmap in Ht as (g & -> & Hg). exists g. auto.
Qed.

(** What a lookup finds after the pass for an entry [f] of an ordered
    replica for which the visitor writes the single entry [nf]. *)
Lemma scanSecondPass_entry (repo sub dir : string) (ignores : ignore.Patterns)
    (w : World) (fs : files.Set_) (before : list FileInfo) (f : FileInfo)
    (rest : list FileInfo) (nf : FileInfo) (c : Z) :
  repoFiles (mdl w) !! repo = Some fs ->
  files.have fs LocalNodeID = before ++ f :: rest ->
  sortedByName (files.have fs LocalNodeID) ->
  scanEntry sub dir ignores (disk w)
    (fold_left lamport.Tick
       (Version <$> List.filter (vanished sub dir ignores (disk w)) before) (lamportDefault w))
    (truncate f) = ([nf], c) ->
  Name nf = Name f ->
  exists w' fs' lv,
    scanSecondPass repo sub dir ignores w = Some (tt, w')
    /\ repoFiles (mdl w') !! repo = Some fs'
    /\ files.Get fs' LocalNodeID (Name f) = files.withLocalVersion lv nf.
Proof.
  intros Hfs Hsplit Hsorted Hentry Hname.
  destruct (scanSecondPass_spec repo sub dir ignores w fs Hfs Hsorted)
    as (w' & fs' & Hrun & Hfs' & Hhave & _).
  rewrite Hsplit in Hhave, Hsorted.
  rewrite fmap_app, fmap_cons, scanAll_app in Hhave. cbn [fst scanAll] in Hhave.
  rewrite scanAll_clock, Hentry in Hhave.
  set (wsb := fst (scanAll sub dir ignores (disk w) (truncate <$> before) (lamportDefault w)))
    in *.
  destruct (scanAll sub dir ignores (disk w) (truncate <$> rest) c) as [wsa ca] eqn:Hrest.
  cbn [fst] in Hhave. rewrite !insertAll_app in Hhave.
  exists w', fs'. eexists. split; [exact Hrun|]. split; [exact Hfs'|].
  unfold files.Get. apply (f_equal fst) in Hhave. cbn [fst] in Hhave. rewrite Hhave.
  rewrite lookupName_insertAll_other.
  - cbn [files.insertAll fst]. rewrite lookupName_upsert.
    cbn [files.withLocalVersion Name]. rewrite Hname, String.eqb_refl. reflexivity.
  - intros g Hg Heq.
    assert (Hg' : g ∈ fst (scanAll sub dir ignores (disk w) (truncate <$> rest) c))
      by (rewrite Hrest; exact Hg).
    apply scanAll_names_of in Hg' as (e & He & Hename & _).
    assert (Hlt : nameLt (Name f) (Name e)).
    { apply StronglySorted_app_1_r, StronglySorted_cons in Hsorted as [Hall _].
      rewrite Forall_forall in Hall. exact (Hall e He). }
    apply nameLt_neq in Hlt. rewrite Hename, Heq, String.eqb_refl in Hlt. discriminate Hlt.
Qed.

Lemma IsDeleted_set (flags : Z) : IsDeleted (Z.lor flags FlagDeleted) = true.
Proof.
  unfold IsDeleted. apply negb_true_iff, Z.eqb_neq. intros H.
  apply (f_equal (fun z => Z.testbit z 12)) in H.
  rewrite Z.land_spec, Z.lor_spec, orb_true_r in H. discriminate H.
Qed.

Lemma IsInvalid_set (flags : Z) : IsInvalid (Z.lor flags FlagInvalid) = true.
Proof.
  unfold IsInvalid. apply negb_true_iff, Z.eqb_neq. intros H.
  apply (f_equal (fun z => Z.testbit z 13)) in H.
  rewrite Z.land_spec, Z.lor_spec, orb_true_r in H. discriminate H.
Qed.

(** The second pass of a scan marks a vanished file deleted: the entry the
    local replica holds for its name afterwards has the Deleted flag added to
    the old flags, the old modification time, no blocks, and the version the
    lamport clock gives when ticked with the old version, the clock having
    been ticked before with the versions of the vanished entries that precede
    it in the replica. *)
Theorem scanSecondPass_marks_deleted (repo sub dir : string) (ignores : ignore.Patterns)
    (w : World) (fs : files.Set_) (before : list FileInfo) (f : FileInfo)
    (rest : list FileInfo) :
  repoFiles (mdl w) !! repo = Some fs ->
  files.have fs LocalNodeID = before ++ f :: rest ->
  sortedByName (files.have fs LocalNodeID) ->
  vanished sub dir ignores (disk w) f = true ->
  exists w' fs',
    scanSecondPass repo sub dir ignores w = Some (tt, w')
    /\ repoFiles (mdl w') !! repo = Some fs'
    /\ let nf := files.Get fs' LocalNodeID (Name f) in
       Name nf = Name f
       /\ Flags nf = Z.lor (Flags f) FlagDeleted
       /\ IsDeleted (Flags nf) = true
       /\ Modified nf = Modified f
       /\ Version nf =
            lamport.Tick
              (fold_left lamport.Tick
                 (Version <$> List.filter (vanished sub dir ignores (disk w)) before)
                 (lamportDefault w))
              (Version f)
       /\ Blocks nf = [].
Proof.
  intros Hfs Hsplit Hsorted Hgone.
  destruct (scanSecondPass_entry repo sub dir ignores w fs before f rest _ _
              Hfs Hsplit Hsorted (scanEntry_vanished _ _ _ _ _ _ Hgone) eq_refl)
    as (w' & fs' & lv & Hrun & Hfs' & Hget).
  exists w', fs'. split; [exact Hrun|]. split; [exact Hfs'|].
  cbv zeta. rewrite Hget. cbn [files.withLocalVersion Name Flags Modified Version Blocks].
  repeat split. apply IsDeleted_set.
Qed.

Lemma scanSecondPass_marks_deleted_witness :
  exists fs f,
    repoFiles (mdl (withDisk noDisk world2)) !! "photos" = Some fs
    /\ files.have fs LocalNodeID = [] ++ f :: []
    /\ sortedByName (files.have fs LocalNodeID)
    /\ vanished "" "/data/photos" ignore.nilPatterns (disk (withDisk noDisk world2)) f = true
    /\ exists w' fs',
         scanSecondPass "photos" "" "/data/photos" ignore.nilPatterns (withDisk noDisk world2)
           = Some (tt, w')
         /\ repoFiles (mdl w') !! "photos" = Some fs'
         /\ Version (files.Get fs' LocalNodeID (Name f)) = 2
         /\ IsDeleted (Flags (files.Get fs' LocalNodeID (Name f))) = true.
Proof.
  destruct (repoFiles (mdl (withDisk noDisk world2)) !! "photos") as [fs|] eqn:Hfs;
    [|vm_compute in Hfs; discriminate Hfs].
  assert (Hhave : files.have fs LocalNodeID
                  = [] ++ mkFile "a.jpg" 420 1400000000 1 1 [mkBlock 0 10 []] :: []).
  { vm_compute in Hfs. injection Hfs as <-. vm_compute. reflexivity. }
  assert (Hsorted : sortedByName (files.have fs LocalNodeID)).
  { rewrite Hhave. repeat constructor. }
  assert (Hgone : vanished "" "/data/photos" ignore.nilPatterns
                    (disk (withDisk noDisk world2))
                    (mkFile "a.jpg" 420 1400000000 1 1 [mkBlock 0 10 []]) = true)
    by (vm_compute; reflexivity).
  exists fs, (mkFile "a.jpg" 420 1400000000 1 1 [mkBlock 0 10 []]).
  split; [reflexivity|]. split; [exact Hhave|]. split; [exact Hsorted|].
  split; [exact Hgone|].
  destruct (scanSecondPass_marks_deleted "photos" "" "/data/photos" ignore.nilPatterns
              (withDisk noDisk world2) fs [] _ [] Hfs Hhave Hsorted Hgone)
    as (w' & fs' & Hrun & Hfs' & _ & _ & Hdel & _ & Hver & _).
  exists w', fs'. split; [exact Hrun|]. split; [exact Hfs'|]. split; [|exact Hdel].
  rewrite Hver. vm_compute. reflexivity.
Defined.

(** The second pass marks a newly ignored file invalid: the entry the local
    replica holds for its name afterwards has the Invalid flag added to the
    old flags, the old modification time and the old version, and no blocks. *)
Theorem scanSecondPass_marks_invalid (repo sub dir : string) (ignores : ignore.Patterns)
    (w : World) (fs : files.Set_) (before : list FileInfo) (f : FileInfo)
    (rest : list FileInfo) :
  repoFiles (mdl w) !! repo = Some fs ->
  files.have fs LocalNodeID = before ++ f :: rest ->
  sortedByName (files.have fs LocalNodeID) ->
  ignoredNow sub ignores f = true ->
  exists w' fs',
    scanSecondPass repo sub dir ignores w = Some (tt, w')
    /\ repoFiles (mdl w') !! repo = Some fs'
    /\ let nf := files.Get fs' LocalNodeID (Name f) in
       Name nf = Name f
       /\ Flags nf = Z.lor (Flags f) FlagInvalid
       /\ IsInvalid (Flags nf) = true
       /\ Modified nf = Modified f
       /\ Version nf = Version f
       /\ Blocks nf = [].
Proof.
  intros Hfs Hsplit Hsorted Hign.
  destruct (scanSecondPass_entry repo sub dir ignores w fs before f rest _ _
              Hfs Hsplit Hsorted (scanEntry_ignoredNow _ _ _ _ _ _ Hign) eq_refl)
    as (w' & fs' & lv & Hrun & Hfs' & Hget).
  exists w', fs'. split; [exact Hrun|]. split; [exact Hfs'|].
  cbv zeta. rewrite Hget. cbn [files.withLocalVersion Name Flags Modified Version Blocks].
  repeat split. apply IsInvalid_set.
Qed.

Lemma scanSecondPass_marks_invalid_witness :
  exists fs f,
    repoFiles (mdl world2) !! "photos" = Some fs
    /\ files.have fs LocalNodeID = [] ++ f :: []
    /\ sortedByName (files.have fs LocalNodeID)
    /\ ignoredNow "" jpgPatterns f = true
    /\ exists w' fs',
         scanSecondPass "photos" "" "/data/photos" jpgPatterns world2 = Some (tt, w')
         /\ repoFiles (mdl w') !! "photos" = Some fs'
         /\ Version (files.Get fs' LocalNodeID (Name f)) = Version f
         /\ IsInvalid (Flags (files.Get fs' LocalNodeID (Name f))) = true.
Proof.
  destruct (repoFiles (mdl world2) !! "photos") as [fs|] eqn:Hfs;
    [|vm_compute in Hfs; discriminate Hfs].
  assert (Hhave : files.have fs LocalNodeID
                  = [] ++ mkFile "a.jpg" 420 1400000000 1 1 [mkBlock 0 10 []] :: []).
  { vm_compute in Hfs. injection Hfs as <-. vm_compute. reflexivity. }
  assert (Hsorted : sortedByName (files.have fs LocalNodeID)).
  { rewrite Hhave. repeat constructor. }
  assert (Hign : ignoredNow "" jpgPatterns
                   (mkFile "a.jpg" 420 1400000000 1 1 [mkBlock 0 10 []]) = true)
    by (vm_compute; reflexivity).
  exists fs, (mkFile "a.jpg" 420 1400000000 1 1 [mkBlock 0 10 []]).
  split; [reflexivity|]. split; [exact Hhave|]. split; [exact Hsorted|].
  split; [exact Hign|].
  destruct (scanSecondPass_marks_invalid "photos" "" "/data/photos" jpgPatterns
              world2 fs [] _ [] Hfs Hhave Hsorted Hign)
    as (w' & fs' & Hrun & Hfs' & _ & _ & Hinv & _ & Hver & _).
  exists w', fs'. split; [exact Hrun|]. split; [exact Hfs'|]. split; [exact Hver | exact Hinv].
Defined.

(** *** What the second pass leaves alone *)

(** Every entry written comes from an entry that vanished or is now ignored. *)
Lemma scanAll_sources (sub dir : string) (ignores : ignore.Patterns)
    (d : string -> string -> DiskEntry) (l : list FileInfo) :
  forall (clock : Z) (nf : FileInfo),
    nf ∈ fst (scanAll sub dir ignores d (truncate <$> l) clock) ->
    exists e, e ∈ l /\ Name e = Name nf
      /\ (vanished sub dir ignores d e = true \/ ignoredNow sub ignores e = true).
Proof.
  induction l as [|e l IH]; intros clock nf Hin.
  - inversion Hin.
  - rewrite fmap_cons in Hin. cbn [scanAll] in Hin.
    destruct (scanEntry sub dir ignores d clock (truncate e)) as [ws c] eqn:Hentry.
    destruct (scanAll sub dir ignores d (truncate <$> l) c) as [ws' c'] eqn:Hrest.
    cbn [fst] in Hin. apply elem_of_app in Hin as [Hin|Hin].
    + exists e. split; [left|].
      destruct (vanished sub dir ignores d e) eqn:Hv.
      * rewrite (scanEntry_vanished _ _ _ _ _ _ Hv) in Hentry. injection Hentry as <- <-.
        apply list_elem_of_singleton in Hin as ->. split; [reflexivity | left; reflexivity].
      * destruct (ignoredNow sub ignores e) eqn:Hi.
        -- rewrite (scanEntry_ignoredNow _ _ _ _ _ _ Hi) in Hentry. injection Hentry as <- <-.
           apply list_elem_of_singleton in Hin as ->. split; [reflexivity | right; reflexivity].
        -- exfalso. unfold vanished, ignoredNow in Hv, Hi. unfold scanEntry in Hentry.
           cbn [truncate tName tFlags tModified tVersion] in Hentry.
           destruct (String.prefix sub (Name e)); cbn [negb andb] in *;
             [|injection Hentry as <- <-; inversion Hin].
           destruct (IsDeleted (Flags e)); cbn [negb andb orb] in *;
             [injection Hentry as <- <-; inversion Hin|].
           destruct (IsInvalid (Flags e)); cbn [negb andb orb] in *;
             [injection Hentry as <- <-; inversion Hin|].
           destruct (ignore.Match ignores (Name e)); cbn [negb andb] in *; [discriminate Hi|].
           destruct (d dir (Name e)); try discriminate Hv;
             injection Hentry as <- <-; inversion Hin.
    + destruct (IH c nf) as (g & Hg & Hname & Hwhy); [rewrite Hrest; exact Hin|].
      exists g. split; [right; exact Hg | split; assumption].
Qed.

Lemma nameLt_irrefl (a : string) : ~ nameLt a a.
Proof.
  intros H. apply nameLt_neq in H. rewrite String.eqb_refl in H. discriminate H.
Qed.

(** In an ordered replica a name identifies its entry. *)
Lemma sortedByName_unique (l : list FileInfo) (e f : FileInfo) :
  sortedByName l -> e ∈ l -> f ∈ l -> Name e = Name f -> e = f.
Proof.
  intros Hsorted. induction Hsorted as [|x l Hsorted IH Hall]; intros He Hf Hname.
  - inversion He.
  - rewrite Forall_forall in Hall.
    apply elem_of_cons in He as [->|He]; apply elem_of_cons in Hf as [->|Hf].
    + reflexivity.
    + exfalso. specialize (Hall f Hf). rewrite Hname in Hall. exact (nameLt_irrefl _ Hall).
    + exfalso. specialize (Hall e He). rewrite Hname in Hall. exact (nameLt_irrefl _ Hall).
    + exact (IH He Hf Hname).
Qed.

Lemma sortedByName_lookup (l : list FileInfo) (f : FileInfo) :
  sortedByName l -> f ∈ l -> files.lookupName (Name f) l = Some f.
Proof.
  intros Hsorted. induction Hsorted as [|x l Hsorted IH Hall]; intros Hf.
  - inversion Hf.
  - cbn [files.lookupName]. apply elem_of_cons in Hf as [->|Hf].
    + rewrite String.eqb_refl. reflexivity.
    + rewrite Forall_forall in Hall. rewrite (nameLt_neq _ _ (Hall f Hf)). exact (IH Hf).
Qed.

(** The second pass changes no other entry of an ordered local replica: an
    entry that did not vanish and is not newly ignored (outside the subpath,
    already deleted or invalid, or with its file still on disk) is what the
    replica holds for its name afterwards, and a name the replica does not
    hold is not held afterwards. *)
Theorem scanSecondPass_keeps_others (repo sub dir : string) (ignores : ignore.Patterns)
    (w : World) (fs : files.Set_) :
  repoFiles (mdl w) !! repo = Some fs ->
  sortedByName (files.have fs LocalNodeID) ->
  exists w' fs',
    scanSecondPass repo sub dir ignores w = Some (tt, w')
    /\ repoFiles (mdl w') !! repo = Some fs'
    /\ (forall f, f ∈ files.have fs LocalNodeID ->
          vanished sub dir ignores (disk w) f = false ->
          ignoredNow sub ignores f = false ->
          files.lookupName (Name f) (files.have fs' LocalNodeID) = Some f)
    /\ (forall name, files.lookupName name (files.have fs LocalNodeID) = None ->
          files.lookupName name (files.have fs' LocalNodeID) = None).
Proof.
  intros Hfs Hsorted.
  destruct (scanSecondPass_spec repo sub dir ignores w fs Hfs Hsorted)
    as (w' & fs' & Hrun & Hfs' & Hhave & _).
  exists w', fs'. split; [exact Hrun|]. split; [exact Hfs'|].
  apply (f_equal fst) in Hhave. cbn [fst] in Hhave. rewrite Hhave.
  split.
  - intros f Hf Hv Hi. rewrite lookupName_insertAll_other.
    + cbn [fst]. exact (sortedByName_lookup _ _ Hsorted Hf).
    + intros nf Hnf Hname.
      apply scanAll_sources in Hnf as (e & He & Hename & Hwhy).
      assert (e = f) by (apply (sortedByName_unique _ _ _ Hsorted He Hf); congruence).
      subst e. destruct Hwhy; congruence.
  - intros name Hnone. rewrite lookupName_insertAll_other; [exact Hnone|].
    intros nf Hnf Hname.
    apply scanAll_sources in Hnf as (e & He & Hename & _).
    pose proof (sortedByName_lookup _ _ Hsorted He) as Hfound.
    rewrite Hename, Hname, Hnone in Hfound. discriminate Hfound.
Qed.

Lemma scanSecondPass_keeps_others_witness :
  exists fs,
    repoFiles (mdl world2) !! "photos" = Some fs
    /\ sortedByName (files.have fs LocalNodeID)
    /\ exists w' fs',
         scanSecondPass "photos" "" "/data/photos" ignore.nilPatterns world2 = Some (tt, w')
         /\ repoFiles (mdl w') !! "photos" = Some fs'
         /\ files.lookupName "b.jpg" (files.have fs' LocalNodeID) = None.
Proof.
  destruct (repoFiles (mdl world2) !! "photos") as [fs|] eqn:Hfs;
    [|vm_compute in Hfs; discriminate Hfs].
  assert (Hhave : files.have fs LocalNodeID
                  = [mkFile "a.jpg" 420 1400000000 1 1 [mkBlock 0 10 []]]).
  { vm_compute in Hfs. injection Hfs as <-. vm_compute. reflexivity. }
  assert (Hsorted : sortedByName (files.have fs LocalNodeID)).
  { rewrite Hhave. repeat constructor. }
  exists fs. split; [reflexivity|]. split; [exact Hsorted|].
  destruct (scanSecondPass_keeps_others "photos" "" "/data/photos" ignore.nilPatterns
              world2 fs Hfs Hsorted) as (w' & fs' & Hrun & Hfs' & _ & Habsent).
  exists w', fs'. split; [exact Hrun|]. split; [exact Hfs'|].
  apply Habsent. rewrite Hhave. reflexivity.
Defined.

(** ** IndexUpdate from a node that shares the repo *)

(** An authorized IndexUpdate ticks every incoming version into the clock
    once, drops the ignored entries, hands the others, as a set, to Update
    for the node's replica (so nothing the replica holds is removed), and
    reports their number as the items of RemoteIndexUpdated. *)
Theorem IndexUpdate_authorized (w : World) (nodeID : NodeID) (repo : string)
    (fs : list FileInfo) (rf : files.Set_) :
  repoSharedWith (mdl w) repo nodeID = true ->
  repoFiles (mdl w) !! repo = Some rf ->
  let ignores := default ignore.nilPatterns (repoIgnores (mdl w) !! repo) in
  exists remaining order w',
    IndexUpdate nodeID repo fs w = Some (tt, w')
    /\ order ≡ₚ fs
    /\ lamportDefault w' = fold_left lamport.Tick (Version <$> order) (lamportDefault w)
    /\ remaining ≡ₚ List.filter (kept ignores) fs
    /\ repoFiles (mdl w') = <[repo := files.Update rf nodeID remaining]> (repoFiles (mdl w))
    /\ eventsDefault w' = eventsDefault w ++
         [events.RemoteIndexUpdated nodeID repo
            (Z.of_nat (length (List.filter (kept ignores) fs)))
            (files.LocalVersion (files.Update rf nodeID remaining) nodeID)].
Proof.
  intros Hshared Hrf ignores.
  destruct (dropIgnored_spec ignores (length fs) [] fs (lamportDefault w) eq_refl)
    as (remaining & order & Hloop & Hord & Hrem).
  cbn [app length] in Hloop.
  exists remaining, order.
  unfold IndexUpdate, bind, gets. cbv beta. rewrite Hshared. cbn [negb]. cbv beta iota.
  rewrite Hrf. fold ignores. cbv beta iota. rewrite Hloop.
  eexists. split; [reflexivity|]. cbn.
  repeat split; try assumption.
  rewrite (Permutation_length Hrem). reflexivity.
Qed.

Lemma IndexUpdate_authorized_witness :
  repoSharedWith (mdl world1) "photos" nodeN = true
  /\ exists rf remaining order w',
       repoFiles (mdl world1) !! "photos" = Some rf
       /\ IndexUpdate nodeN "photos" [a_jpg] world1 = Some (tt, w')
       /\ order ≡ₚ [a_jpg]
       /\ remaining ≡ₚ [a_jpg]
       /\ repoFiles (mdl w') !! "photos" = Some (files.Update rf nodeN remaining).
Proof.
  split; [vm_compute; reflexivity|].
  destruct (repoFiles (mdl world1) !! "photos") as [rf|] eqn:Hrf;
    [|vm_compute in Hrf; discriminate Hrf].
  destruct (IndexUpdate_authorized world1 nodeN "photos" [a_jpg] rf)
    as (remaining & order & w' & Hrun & Hord & _ & Hrem & Hfiles & _);
    [vm_compute; reflexivity | exact Hrf |].
  exists rf, remaining, order, w'. split; [reflexivity|]. split; [exact Hrun|].
  split; [exact Hord|]. split; [exact Hrem|].
  rewrite Hfiles. apply lookup_insert_eq.
Defined.

(** ** NeedFilesRepoLimited within its limits *)

Lemma NeedFilesRepoLimited_bounds_witness :
  exists rf fs,
    repoFiles (mdl world1) !! "photos" = Some rf
    /\ 0 <= 1
    /\ totalBlocks (files.needView rf LocalNodeID) < 2 ^ 63
    /\ NeedFilesRepoLimited (mdl world1) "photos" 1 1 = Some (Some fs)
    /\ Z.of_nat (length fs) <= 1.
Proof.
  destruct (repoFiles (mdl world1) !! "photos") as [rf|] eqn:Hrf;
    [|vm_compute in Hrf; discriminate Hrf].
  assert (Hrange : totalBlocks (files.needView rf LocalNodeID) < 2 ^ 63).
  { vm_compute in Hrf. injection Hrf as <-. vm_compute. reflexivity. }
  destruct (NeedFilesRepoLimited_bounds (mdl world1) "photos" rf 1 1 Hrf ltac:(lia) Hrange)
    as (fs & Hrun & _ & Hfiles & _).
  exists rf, fs. split; [reflexivity|]. split; [lia|]. split; [exact Hrange|].
  split; [exact Hrun|]. apply Hfiles. lia.
Defined.

(** ** The index sender on a connection that does not fail *)

Definition batchOf (c : Message * bool) : list FileInfo :=
  match fst c with
  | MsgIndex _ batch | MsgIndexUpdate _ batch => batch
  end.

(** No call on the connection is going to fail. *)
Definition healthy (conn : Connection) : Prop :=
  Forall (fun ok => ok = true) (verdicts conn).

(** The entries a run has to send: newer than the watermark, not ignored. *)
Definition toSend (minLocalVer : Z) (ignores : ignore.Patterns) (f : FileInfo) : bool :=
  (minLocalVer <? LocalVersion f) && negb (ignore.Match ignores (Name f)).

Definition watermarkOf (minLocalVer : Z) (l : list FileInfo) : Z :=
  fold_left Z.max (LocalVersion <$> List.filter (fun f => minLocalVer <? LocalVersion f) l) 0.

Lemma send_healthy (msg : Message) (conn : Connection) :
  healthy conn ->
  snd (send msg conn) = true
  /\ healthy (fst (send msg conn))
  /\ calls (fst (send msg conn)) = calls conn ++ [(msg, true)].
Proof.
  unfold healthy, send. intros H. destruct (verdicts conn) as [|ok rest].
  - repeat split. constructor.
  - apply Forall_cons in H as [-> Hrest]. repeat split. exact Hrest.
Qed.

(** The state of a run after the entries [seen] of the replica, none of its
    sends having failed. *)
Definition delivering (minLocalVer : Z) (ignores : ignore.Patterns)
    (before : list (Message * bool)) (seen : list FileInfo) (st : sender) : Prop :=
  sErr st = false
  /\ healthy (sConn st)
  /\ (length (sBatch st) <= indexBatchSize)%nat
  /\ (sBatch st = [] -> sCurrentBatchSize st = 0)
  /\ sMaxLocalVer st = watermarkOf minLocalVer seen
  /\ exists sent,
       calls (sConn st) = before ++ sent
       /\ Forall (fun c => snd c = true
                           /\ (length (batchOf c) <= indexBatchSize)%nat
                           /\ batchOf c <> []) sent
       /\ concat (batchOf <$> sent) ++ sBatch st
          = List.filter (toSend minLocalVer ignores) seen.

Lemma watermarkOf_snoc (minLocalVer : Z) (seen : list FileInfo) (f : FileInfo) :
  watermarkOf minLocalVer (seen ++ [f]) =
    if minLocalVer <? LocalVersion f
    then Z.max (watermarkOf minLocalVer seen) (LocalVersion f)
    else watermarkOf minLocalVer seen.
Proof.
  unfold watermarkOf. rewrite List.filter_app. cbn [List.filter].
  destruct (minLocalVer <? LocalVersion f).
  - rewrite fmap_app, fold_left_app. reflexivity.
  - rewrite app_nil_r. reflexivity.
Qed.

Lemma sendIndexVisit_delivering (minLocalVer : Z) (repo : string) (ignores : ignore.Patterns)
    (before : list (Message * bool)) (seen : list FileInfo) (st : sender) (f : FileInfo) :
  delivering minLocalVer ignores before seen st ->
  snd (sendIndexVisit minLocalVer repo ignores st f) = true
  /\ delivering minLocalVer ignores before (seen ++ [f])
       (fst (sendIndexVisit minLocalVer repo ignores st f)).
Proof.
  intros (Herr & Hconn & Hlen & Hsize & Hmax & sent & Hcalls & Hsent & Hcat).
  unfold sendIndexVisit, delivering.
  rewrite watermarkOf_snoc, List.filter_app. cbn [List.filter]. unfold toSend at 2.
  destruct (LocalVersion f <=? minLocalVer) eqn:Hold.
  { apply Z.leb_le in Hold. assert (Hnew : (minLocalVer <? LocalVersion f) = false)
      by (apply Z.ltb_ge; lia).
    rewrite Hnew. cbn [andb fst snd]. rewrite app_nil_r.
    split; [reflexivity|]. repeat split; try assumption. exists sent. auto. }
  apply Z.leb_gt in Hold.
  assert (Hnew : (minLocalVer <? LocalVersion f) = true) by (apply Z.ltb_lt; lia).
  rewrite Hnew. cbn [andb].
  set (st1 := if sMaxLocalVer st <? LocalVersion f then _ else st).
  assert (Hst1 : sErr st1 = sErr st /\ sInitial st1 = sInitial st /\ sConn st1 = sConn st
                 /\ sBatch st1 = sBatch st /\ sCurrentBatchSize st1 = sCurrentBatchSize st
                 /\ sMaxLocalVer st1 = Z.max (watermarkOf minLocalVer seen) (LocalVersion f)).
  { subst st1. destruct (sMaxLocalVer st <? LocalVersion f) eqn:Hlt; cbn;
      repeat split; rewrite <- ?Hmax.
    - apply Z.ltb_lt in Hlt. lia.
    - apply Z.ltb_ge in Hlt. lia. }
  destruct Hst1 as (He1 & Hi1 & Hc1 & Hb1 & Hs1 & Hm1).
  clearbody st1.
  destruct (ignore.Match ignores (Name f)); cbn [negb fst snd].
  { rewrite app_nil_r. split; [reflexivity|]. rewrite He1, Hc1, Hb1, Hs1.
    repeat split; try assumption. exists sent. auto. }
  destruct ((length (sBatch st1) =? indexBatchSize)%nat
            || (indexTargetSize <? sCurrentBatchSize st1)) eqn:Hfull.
  - (* the batch goes out *)
    assert (Hne : sBatch st <> []).
    { intros Hnil. rewrite Hb1, Hs1, Hnil, (Hsize Hnil) in Hfull. discriminate Hfull. }
    set (msg := if sInitial st1 then MsgIndex repo (sBatch st1)
                else MsgIndexUpdate repo (sBatch st1)).
    assert (Hmsg : batchOf (msg, true) = sBatch st).
    { subst msg. rewrite Hb1. destruct (sInitial st1); reflexivity. }
    destruct (send_healthy msg (sConn st1)) as (Hok & Hconn' & Hcalls');
      [rewrite Hc1; exact Hconn|].
    destruct (send msg (sConn st1)) as [conn ok]. cbn [fst snd] in Hok, Hconn', Hcalls'.
    subst ok. cbn [fst snd sErr sConn sBatch sCurrentBatchSize sMaxLocalVer].
    split; [reflexivity|]. rewrite He1.
    split; [exact Herr|]. split; [exact Hconn'|].
    split; [cbn; unfold indexBatchSize; lia|].
    split; [intros H; discriminate H|].
    split; [exact Hm1|].
    exists (sent ++ [(msg, true)]).
    split; [rewrite Hcalls', Hc1, Hcalls, app_assoc; reflexivity|].
    split.
    + apply Forall_app. split; [exact Hsent|]. constructor; [|constructor].
      rewrite Hmsg. repeat split; assumption.
    + rewrite fmap_app, concat_app. cbn [fmap list_fmap concat].
      rewrite Hmsg, app_nil_r, <- Hcat, <- !app_assoc. reflexivity.
  - apply orb_false_iff in Hfull as [Hfull _]. apply Nat.eqb_neq in Hfull.
    rewrite Hb1 in Hfull.
    cbn [fst snd sErr sConn sBatch sCurrentBatchSize sMaxLocalVer].
    split; [reflexivity|]. rewrite He1, Hc1, Hb1.
    split; [exact Herr|]. split; [exact Hconn|].
    split; [rewrite length_app; cbn [length]; lia|].
    split; [intros H; apply app_eq_nil in H as [_ H]; discriminate H|].
    split; [exact Hm1|].
    exists sent. split; [exact Hcalls|]. split; [exact Hsent|].
    rewrite app_assoc, Hcat. reflexivity.
Qed.

Lemma traverse_delivering (minLocalVer : Z) (repo : string) (ignores : ignore.Patterns)
    (before : list (Message * bool)) (l : list FileInfo) :
  forall (seen : list FileInfo) (st : sender),
    delivering minLocalVer ignores before seen st ->
    delivering minLocalVer ignores before (seen ++ l)
      (files.traverse (sendIndexVisit minLocalVer repo ignores) st l).
Proof.
  induction l as [|f l IH]; intros seen st Hst; cbn [files.traverse].
  - rewrite app_nil_r. exact Hst.
  - destruct (sendIndexVisit_delivering minLocalVer repo ignores before seen st f Hst)
      as [Hcont Hst'].
    destruct (sendIndexVisit minLocalVer repo ignores st f) as [st' continue].
    cbn [fst snd] in Hcont, Hst'. subst continue.
    replace (seen ++ f :: l) with ((seen ++ [f]) ++ l) by (rewrite <- app_assoc; reflexivity).
    apply IH. exact Hst'.
Qed.

Lemma sendIndexVisit_not_initial (minLocalVer : Z) (repo : string) (ignores : ignore.Patterns)
    (l : list FileInfo) :
  forall st : sender,
    sInitial st = false ->
    sInitial (files.traverse (sendIndexVisit minLocalVer repo ignores) st l) = false.
Proof.
  induction l as [|f l IH]; intros st Hst; cbn [files.traverse]; [exact Hst|].
  assert (Hstep : sInitial (fst (sendIndexVisit minLocalVer repo ignores st f)) = false).
  { unfold sendIndexVisit.
    destruct (LocalVersion f <=? minLocalVer); [exact Hst|].
    set (st1 := if sMaxLocalVer st <? LocalVersion f then _ else st).
    assert (Hi1 : sInitial st1 = false)
      by (subst st1; destruct (sMaxLocalVer st <? LocalVersion f); exact Hst).
    clearbody st1.
    destruct (ignore.Match ignores (Name f)); [exact Hi1|].
    destruct ((length (sBatch st1) =? indexBatchSize)%nat
              || (indexTargetSize <? sCurrentBatchSize st1)); [|exact Hi1].
    rewrite Hi1. destruct (send (MsgIndexUpdate repo (sBatch st1)) (sConn st1)) as [c [|]];
      reflexivity. }
  destruct (sendIndexVisit minLocalVer repo ignores st f) as [st' [|]]; cbn [fst] in Hstep;
    [apply IH; exact Hstep | exact Hstep].
Qed.

(** On a connection whose calls all succeed, a run of sendIndexTo sends the
    entries of the local replica that are newer than the watermark and not
    ignored, each once and in the order of the replica, in batches of at most
    1000 files; it reports no error and returns the highest local version
    among the newer entries, ignored or not (0 if there is none).  A run that
    is not the initial one sends no empty batch, hence nothing at all when
    nothing is to be sent. *)
Theorem sendIndexTo_delivers (initial : bool) (minLocalVer : Z) (conn : Connection)
    (repo : string) (fs : files.Set_) (ignores : ignore.Patterns) :
  healthy conn ->
  exists sent conn',
    sendIndexTo initial minLocalVer conn repo fs ignores
      = (watermarkOf minLocalVer (files.have fs LocalNodeID), false, conn')
    /\ calls conn' = calls conn ++ sent
    /\ Forall (fun c => snd c = true /\ (length (batchOf c) <= indexBatchSize)%nat) sent
    /\ concat (batchOf <$> sent)
       = List.filter (toSend minLocalVer ignores) (files.have fs LocalNodeID)
    /\ (initial = false -> Forall (fun c => batchOf c <> []) sent).
Proof.
  intros Hconn. unfold sendIndexTo, files.WithHave.
  pose proof (traverse_delivering minLocalVer repo ignores (calls conn)
                (files.have fs LocalNodeID) [] (mkSender [] 0 0 false initial conn)) as Hrun.
  pose proof (sendIndexVisit_not_initial minLocalVer repo ignores
                (files.have fs LocalNodeID) (mkSender [] 0 0 false initial conn)) as Hinit.
  cbn [app sInitial] in Hrun, Hinit.
  set (st := files.traverse _ _ _) in *.
  destruct Hrun as (Herr & Hst & Hlen & _ & Hmax & sent & Hcalls & Hsent & Hcat).
  { split; [reflexivity|]. split; [exact Hconn|]. split; [cbn; lia|].
    split; [reflexivity|]. split; [reflexivity|].
    exists []. rewrite app_nil_r. repeat split. constructor. }
  assert (Hweak : Forall (fun c => snd c = true /\ (length (batchOf c) <= indexBatchSize)%nat)
                    sent).
  { eapply Forall_impl; [exact Hsent|]. intros c (H1 & H2 & _). split; assumption. }
  assert (Hfull : Forall (fun c => batchOf c <> []) sent).
  { eapply Forall_impl; [exact Hsent|]. intros c (_ & _ & H3). exact H3. }
  rewrite Herr, Hmax. cbn [negb]. rewrite !andb_true_r.
  destruct (sInitial st) eqn:Hi.
  - destruct (send_healthy (MsgIndex repo (sBatch st)) (sConn st) Hst) as (Hok & _ & Hc).
    destruct (send (MsgIndex repo (sBatch st)) (sConn st)) as [conn' ok].
    cbn [fst snd] in Hok, Hc. subst ok.
    exists (sent ++ [(MsgIndex repo (sBatch st), true)]), conn'.
    split; [reflexivity|]. split; [rewrite Hc, Hcalls, app_assoc; reflexivity|].
    split; [apply Forall_app; split; [exact Hweak|];
            constructor; [split; [reflexivity | exact Hlen] | constructor]|].
    split.
    + rewrite fmap_app, concat_app. cbn. rewrite app_nil_r. exact Hcat.
    + intros Hf. discriminate (Hinit Hf).
  - destruct (0 <? length (sBatch st))%nat eqn:Hpos.
    + destruct (send_healthy (MsgIndexUpdate repo (sBatch st)) (sConn st) Hst)
        as (Hok & _ & Hc).
      destruct (send (MsgIndexUpdate repo (sBatch st)) (sConn st)) as [conn' ok].
      cbn [fst snd] in Hok, Hc. subst ok.
      exists (sent ++ [(MsgIndexUpdate repo (sBatch st), true)]), conn'.
      split; [reflexivity|]. split; [rewrite Hc, Hcalls, app_assoc; reflexivity|].
      split; [apply Forall_app; split; [exact Hweak|];
              constructor; [split; [reflexivity | exact Hlen] | constructor]|].
      split.
      * rewrite fmap_app, concat_app. cbn. rewrite app_nil_r. exact Hcat.
      * intros _. apply Forall_app. split; [exact Hfull|]. constructor; [|constructor].
        cbn. intros Hnil. rewrite Hnil in Hpos. discriminate Hpos.
    + exists sent, (sConn st). split; [reflexivity|]. split; [exact Hcalls|].
      split; [exact Hweak|]. split; [|intros _; exact Hfull].
      destruct (sBatch st); [|discriminate Hpos]. rewrite app_nil_r in Hcat. exact Hcat.
Qed.

Lemma sendIndexTo_delivers_witness :
  healthy (mkConn nodeN [] [])
  /\ exists rf sent conn',
       repoFiles (mdl world2) !! "photos" = Some rf
       /\ sendIndexTo false 1 (mkConn nodeN [] []) "photos" rf ignore.nilPatterns
          = (watermarkOf 1 (files.have rf LocalNodeID), false, conn')
       /\ calls conn' = [] ++ sent
       /\ sent = [].
Proof.
  assert (Hconn : healthy (mkConn nodeN [] [])) by constructor.
  split; [exact Hconn|].
  destruct (repoFiles (mdl world2) !! "photos") as [rf|] eqn:Hrf;
    [|vm_compute in Hrf; discriminate Hrf].
  destruct (sendIndexTo_delivers false 1 (mkConn nodeN [] []) "photos" rf
              ignore.nilPatterns Hconn)
    as (sent & conn' & Hrun & Hcalls & _ & Hcat & Hfull).
  exists rf, sent, conn'. split; [reflexivity|]. split; [exact Hrun|].
  split; [exact Hcalls|].
  assert (Hnone : List.filter (toSend 1 ignore.nilPatterns) (files.have rf LocalNodeID) = []).
  { vm_compute in Hrf. injection Hrf as <-. vm_compute. reflexivity. }
  rewrite Hnone in Hcat. specialize (Hfull eq_refl).
  destruct sent as [|c sent]; [reflexivity|].
  apply Forall_cons in Hfull as [Hc _]. cbn in Hcat.
  apply app_eq_nil in Hcat as [Hcat _]. contradiction.
Defined.

(** ** Close *)

Definition withFiles (rf : gmap string files.Set_) (w : World) : World :=
  mkWorld (with_repoFiles rf (mdl w)) (lamportDefault w) (eventsDefault w)
    (timeReads w) (wall w) (disk w).

Lemma have_Replace_nil (s : files.Set_) (node n : NodeID) :
  files.have (files.Replace s node []) n = if decide (node = n) then [] else files.have s n.
Proof.
  unfold files.Replace, files.have. cbn.
  destruct (decide (node = n)) as [->|Hne].
  - rewrite lookup_insert_eq. reflexivity.
  - rewrite lookup_insert_ne by exact Hne. reflexivity.
Qed.

(** The loop of Close over the repos of the node: only the index sets
    change; in each, the replica of the node is emptied at the repos the
    loop passes and every other replica is left as it was. *)
Lemma close_loop_spec (node : NodeID) (repos : list string) :
  forall w : World,
    (forall r, r ∈ repos -> is_Some (repoFiles (mdl w) !! r)) ->
    exists rf',
      forEach repos (fun repo =>
        do s <- gets (fun w => repoFiles (mdl w) !! repo);
        match s with
        | None => panic
        | Some s =>
            setModel (fun m =>
              with_repoFiles (<[repo := files.Replace s node []]> (repoFiles m)) m)
        end) w = Some (tt, withFiles rf' w)
      /\ forall r,
           match repoFiles (mdl w) !! r with
           | Some s =>
               exists s', rf' !! r = Some s'
                 /\ (forall n, n <> node -> files.have s' n = files.have s n)
                 /\ (r ∈ repos -> files.have s' node = [])
                 /\ (r ∉ repos -> s' = s)
           | None => rf' !! r = None
           end.
Proof.
  induction repos as [|repo repos IH]; intros w Hpresent; cbn [forEach].
  - exists (repoFiles (mdl w)). split; [destruct w as [[] ? ? ? ? ?]; reflexivity|].
    intros r. destruct (repoFiles (mdl w) !! r) as [s|]; [|reflexivity].
    exists s. repeat split; auto. intros H; inversion H.
  - destruct (Hpresent repo) as [s Hs]; [left|].
    unfold bind at 1. unfold bind at 1. unfold gets at 1. rewrite Hs.
    unfold setModel at 1, modify at 1.
    set (w1 := mkWorld _ _ _ _ _ _).
    destruct (IH w1) as (rf' & Hrun & Hrf').
    { intros r Hr. subst w1. cbn. destruct (decide (repo = r)) as [->|Hne].
      - rewrite lookup_insert_eq. eauto.
      - rewrite lookup_insert_ne by exact Hne. apply Hpresent. right. exact Hr. }
    exists rf'. split; [rewrite Hrun; reflexivity|].
    intros r. specialize (Hrf' r). subst w1. cbn [mdl with_repoFiles repoFiles] in Hrf'.
    destruct (decide (repo = r)) as [->|Hne].
    + rewrite lookup_insert_eq in Hrf'. rewrite Hs.
      destruct Hrf' as (s' & Hs' & Hothers & Hin & Hout).
      exists s'. split; [exact Hs'|]. split; [|split].
      * intros n Hn. rewrite (Hothers n Hn), have_Replace_nil.
        destruct (decide (node = n)); [congruence | reflexivity].
      * intros _. destruct (decide (r ∈ repos)) as [Hr|Hr]; [exact (Hin Hr)|].
        rewrite (Hout Hr), have_Replace_nil. destruct (decide (node = node)); congruence.
      * intros Hnot. exfalso. apply Hnot. left.
    + rewrite lookup_insert_ne in Hrf' by exact Hne.
      destruct (repoFiles (mdl w) !! r) as [s0|]; [|exact Hrf'].
      destruct Hrf' as (s' & Hs' & Hothers & Hin & Hout).
      exists s'. split; [exact Hs'|]. split; [exact Hothers|]. split.
      * intros Hr. apply Hin. apply elem_of_cons in Hr as [->|Hr]; [congruence | exact Hr].
      * intros Hr. apply Hout. intros Hr'. apply Hr. right. exact Hr'.
Qed.

(** Close retracts the peer: it logs NodeDisconnected, empties the replica of
    the node in the index set of every repo the node shares, leaves every
    other replica and every other index set as it was, and drops the node
    from the three connection maps; the sharing graph is not touched. *)
Theorem Close_retracts (w : World) (node : NodeID) (err : string) :
  (forall r, r ∈ default [] (nodeRepos (mdl w) !! node) ->
             is_Some (repoFiles (mdl w) !! r)) ->
  exists w',
    Close node err w = Some (tt, w')
    /\ eventsDefault w' = eventsDefault w ++ [events.NodeDisconnected node err]
    /\ protoConn (mdl w') = delete node (protoConn (mdl w))
    /\ rawConn (mdl w') = delete node (rawConn (mdl w))
    /\ nodeVer (mdl w') = delete node (nodeVer (mdl w))
    /\ graphOf w' = graphOf w
    /\ forall r,
         match repoFiles (mdl w) !! r with
         | Some s =>
             exists s', repoFiles (mdl w') !! r = Some s'
               /\ (forall n, n <> node -> files.have s' n = files.have s n)
               /\ (r ∈ default [] (nodeRepos (mdl w) !! node) -> files.have s' node = [])
               /\ (r ∉ default [] (nodeRepos (mdl w) !! node) -> s' = s)
         | None => repoFiles (mdl w') !! r = None
         end.
Proof.
  intros Hpresent. unfold Close.
  unfold bind at 1. unfold Log at 1, modify at 1.
  set (w0 := mkWorld _ _ _ _ _ _).
  unfold bind at 1. unfold gets at 1.
  change (nodeRepos (mdl w0)) with (nodeRepos (mdl w)).
  destruct (close_loop_spec node (default [] (nodeRepos (mdl w) !! node)) w0 Hpresent)
    as (rf' & Hloop & Hrf').
  unfold bind at 1. rewrite Hloop.
  eexists. split; [reflexivity|]. cbn. repeat split. exact Hrf'.
Qed.

Lemma Close_retracts_witness :
  (forall r, r ∈ default [] (nodeRepos (mdl world1) !! nodeN) ->
             is_Some (repoFiles (mdl world1) !! r))
  /\ exists w' s',
       Close nodeN "EOF" world1 = Some (tt, w')
       /\ repoFiles (mdl w') !! "photos" = Some s'
       /\ files.have s' nodeN = []
       /\ protoConn (mdl w') !! nodeN = None.
Proof.
  assert (Hpresent : forall r, r ∈ default [] (nodeRepos (mdl world1) !! nodeN) ->
                       is_Some (repoFiles (mdl world1) !! r)).
  { intros r Hr. vm_compute in Hr. apply list_elem_of_singleton in Hr as ->.
    vm_compute. eauto. }
  split; [exact Hpresent|].
  destruct (Close_retracts world1 nodeN "EOF" Hpresent)
    as (w' & Hrun & _ & Hconn & _ & _ & _ & Hfiles).
  specialize (Hfiles "photos").
  destruct (repoFiles (mdl world1) !! "photos") as [s|] eqn:Hs;
    [|vm_compute in Hs; discriminate Hs].
  destruct Hfiles as (s' & Hs' & _ & Hempty & _).
  exists w', s'. split; [exact Hrun|]. split; [exact Hs'|]. split.
  - apply Hempty. vm_compute. left.
  - rewrite Hconn. apply lookup_delete_eq.
Defined.

(** ** ClusterConfig *)

Lemma containsRepo_elem_of (repo : string) (l : list string) :
  containsRepo repo l = true <-> repo ∈ l.
Proof.
  induction l as [|x l IH]; cbn [containsRepo].
  - split; [discriminate | intros H; inversion H].
  - rewrite elem_of_cons. destruct (String.eqb x repo) eqn:Hx.
    + apply String.eqb_eq in Hx. split; [intros _; left; congruence | reflexivity].
    + apply String.eqb_neq in Hx. rewrite IH. split; [auto | intros [H|H]; congruence].
Qed.

(** The node has an entry in the configuration. *)
Definition knows (w : World) (id : NodeID) : Prop :=
  is_Some (config.GetNodeConfiguration (cfg (mdl w)) id).

(** No authorization, known node or known repo is lost from [w] to [w']. *)
Definition grows (w w' : World) : Prop :=
  (forall r n, repoSharedWith (mdl w) r n = true -> repoSharedWith (mdl w') r n = true)
  /\ (forall id, knows w id -> knows w' id)
  /\ (forall r, is_Some (repoNodes (mdl w) !! r) -> is_Some (repoNodes (mdl w') !! r)).

Lemma grows_refl (w : World) : grows w w.
Proof. repeat split; auto. Qed.

Lemma grows_trans (w1 w2 w3 : World) : grows w1 w2 -> grows w2 w3 -> grows w1 w3.
Proof.
  intros (A1 & B1 & C1) (A2 & B2 & C2). repeat split; auto.
Qed.

Lemma find_is_Some_app {A} (p : A -> bool) (l k : list A) :
  is_Some (List.find p l) -> is_Some (List.find p (l ++ k)).
Proof.
  induction l as [|x l IH]; cbn [List.find app]; [intros [? H]; discriminate H|].
  destruct (p x); [eauto | exact IH].
Qed.

Lemma find_snoc_hit {A} (p : A -> bool) (l : list A) (x : A) :
  p x = true -> is_Some (List.find p (l ++ [x])).
Proof.
  intros Hx. induction l as [|y l IH]; cbn [List.find app].
  - rewrite Hx. eauto.
  - destruct (p y); [eauto | exact IH].
Qed.

(** One announced node: afterwards it is known to the configuration and
    authorized for the repo, and nothing was lost. *)
Lemma introduceNode_grows (nodeID : NodeID) (repoID : string) (node : Node)
    (changed b : bool) (w w' : World) :
  is_Some (repoNodes (mdl w) !! repoID) ->
  introduceNode nodeID repoID node changed w = Some (b, w') ->
  grows w w'
  /\ knows w' (copyNodeID (nID node))
  /\ repoSharedWith (mdl w') repoID (copyNodeID (nID node)) = true.
Proof.
  intros Hrepo Hrun.
  unfold introduceNode, bind, gets, setModel, modify, ret in Hrun.
  set (peer := copyNodeID (nID node)) in *.
  unfold grows, knows, repoSharedWith.
  assert (Hadd : forall (nr : gmap NodeID (list string)) r n,
            containsRepo r (default [] (nr !! n)) = true ->
            containsRepo r (default []
              (<[peer := default [] (nr !! peer) ++ [repoID]]> nr !! n)) = true).
  { intros nr r n H. destruct (decide (peer = n)) as [->|Hne].
    - rewrite lookup_insert_eq. cbn [default from_option]. unfold id.
      apply containsRepo_elem_of, elem_of_app. left. apply containsRepo_elem_of, H.
    - rewrite lookup_insert_ne by exact Hne. exact H. }
  assert (Hnew : forall nr : gmap NodeID (list string),
            containsRepo repoID (default []
              (<[peer := default [] (nr !! peer) ++ [repoID]]> nr !! peer)) = true).
  { intros nr. rewrite lookup_insert_eq. cbn [default from_option]. unfold id.
    apply containsRepo_elem_of, elem_of_app. right. left. }
  assert (Hkey : forall (rn : gmap string (list NodeID)) r,
            is_Some (rn !! r) ->
            is_Some (<[repoID := default [] (rn !! repoID) ++ [peer]]> rn !! r)).
  { intros rn r H. destruct (decide (repoID = r)) as [->|Hne].
    - rewrite lookup_insert_eq. eauto.
    - rewrite lookup_insert_ne by exact Hne. exact H. }
  destruct (config.GetNodeConfiguration (cfg (mdl w)) peer) as [known|] eqn:Hknown;
    cbn [mdl] in Hrun.
  - destruct (containsRepo repoID (default [] (nodeRepos (mdl w) !! peer))) eqn:Hshared.
    + injection Hrun as <- <-. rewrite Hknown, Hshared. repeat split; eauto.
    + cbn in Hrun.
      match type of Hrun with
      | match ?x with _ => _ end _ = _ => destruct x; [|discriminate Hrun]
      end.
      injection Hrun as <- <-. cbn.
      split; [|split; [|apply Hnew]].
      * split; [apply Hadd|]. split; [|apply Hkey].
        intros id H. exact H.
      * unfold config.GetNodeConfiguration in Hknown. rewrite Hknown. eauto.
  - cbn in Hrun.
    assert (Hfound : forall l : list config.NodeConfiguration,
              is_Some (List.find (fun n => bool_decide (config.nodeID n = peer))
                         (l ++ [config.mkNodeCfg peer ""
                                  (negb (Z.land (nFlags node) FlagIntroducer =? 0))]))).
    { intros l. apply find_snoc_hit. cbn. apply bool_decide_eq_true_2. reflexivity. }
    destruct (containsRepo repoID (default [] (nodeRepos (mdl w) !! peer))) eqn:Hshared.
    + injection Hrun as <- <-. cbn. rewrite Hshared.
      split; [|split; [apply Hfound | reflexivity]].
      split; [auto|]. split; [|auto].
      intros id H. apply find_is_Some_app. exact H.
    + cbn in Hrun.
      match type of Hrun with
      | match ?x with _ => _ end _ = _ => destruct x; [|discriminate Hrun]
      end.
      injection Hrun as <- <-. cbn.
      split; [|split; [apply Hfound | apply Hnew]].
      split; [apply Hadd|]. split; [|apply Hkey].
      intros id H. apply find_is_Some_app. exact H.
Qed.

Lemma introduceNodes_grows (nodeID : NodeID) (repoID : string) (nodes : list Node) :
  forall (changed b : bool) (w w' : World),
    is_Some (repoNodes (mdl w) !! repoID) ->
    introduceNodes nodeID repoID nodes changed w = Some (b, w') ->
    grows w w'
    /\ forall nd, nd ∈ nodes ->
         knows w' (copyNodeID (nID nd))
         /\ repoSharedWith (mdl w') repoID (copyNodeID (nID nd)) = true.
Proof.
  induction nodes as [|node nodes IH]; intros changed b w w' Hrepo Hrun;
    cbn [introduceNodes] in Hrun.
  - injection Hrun as <- <-. split; [apply grows_refl|]. intros nd H; inversion H.
  - unfold bind in Hrun.
    destruct (introduceNode nodeID repoID node changed w) as [[c w1]|] eqn:Hstep;
      [|discriminate Hrun].
    destruct (introduceNode_grows _ _ _ _ _ _ _ Hrepo Hstep) as (Hg1 & Hk1 & Hs1).
    destruct (IH _ _ _ _ (proj2 (proj2 Hg1) _ Hrepo) Hrun) as (Hg2 & Hall).
    split; [exact (grows_trans _ _ _ Hg1 Hg2)|].
    intros nd Hnd. apply elem_of_cons in Hnd as [->|Hnd]; [|exact (Hall nd Hnd)].
    destruct Hg2 as (Hshare & Hknow & _). split; [apply Hknow, Hk1 | apply Hshare, Hs1].
Qed.

Lemma introduceRepos_grows (nodeID : NodeID) (repos : list Repository) :
  forall (changed b : bool) (w w' : World),
    introduceRepos nodeID repos changed w = Some (b, w') ->
    grows w w'
    /\ forall repo nd, repo ∈ repos -> is_Some (repoNodes (mdl w) !! rID repo) ->
         nd ∈ rNodes repo ->
         knows w' (copyNodeID (nID nd))
         /\ repoSharedWith (mdl w') (rID repo) (copyNodeID (nID nd)) = true.
Proof.
  induction repos as [|repo repos IH]; intros changed b w w' Hrun;
    cbn [introduceRepos] in Hrun.
  - injection Hrun as <- <-. split; [apply grows_refl|]. intros repo nd H; inversion H.
  - unfold bind, gets in Hrun.
    destruct (repoNodes (mdl w) !! rID repo) as [l|] eqn:Hrepo.
    + destruct (introduceNodes nodeID (rID repo) (rNodes repo) changed w)
        as [[c w1]|] eqn:Hnodes; [|discriminate Hrun].
      destruct (introduceNodes_grows _ _ _ _ _ _ _ (mk_is_Some _ _ Hrepo) Hnodes)
        as (Hg1 & Hall1).
      destruct (IH _ _ _ _ Hrun) as (Hg2 & Hall2).
      split; [exact (grows_trans _ _ _ Hg1 Hg2)|].
      intros r nd Hr Hkey Hnd. apply elem_of_cons in Hr as [->|Hr].
      * destruct (Hall1 nd Hnd) as [Hk Hs]. destruct Hg2 as (Hshare & Hknow & _).
        split; [apply Hknow, Hk | apply Hshare, Hs].
      * apply (Hall2 r nd Hr); [|exact Hnd]. apply (proj2 (proj2 Hg1)), Hkey.
    + destruct (IH _ _ _ _ Hrun) as (Hg2 & Hall2).
      split; [exact Hg2|].
      intros r nd Hr Hkey Hnd. apply elem_of_cons in Hr as [->|Hr].
      * rewrite Hrepo in Hkey. destruct Hkey as [? Hkey]. discriminate Hkey.
      * exact (Hall2 r nd Hr Hkey Hnd).
Qed.

(** Renaming a node changes neither which nodes are known nor which are
    introducers. *)
Lemma find_setName (id id' : NodeID) (name : string) (l : list config.NodeConfiguration) :
  config.Introducer <$>
    List.find (fun n => bool_decide (config.nodeID n = id')) (config.setName id name l)
  = config.Introducer <$> List.find (fun n => bool_decide (config.nodeID n = id')) l.
Proof.
  induction l as [|n l IH]; cbn [config.setName List.find]; [reflexivity|].
  destruct (bool_decide (config.nodeID n = id)) eqn:Hn; cbn [List.find config.nodeID].
  - destruct (bool_decide (config.nodeID n = id')); reflexivity.
  - destruct (bool_decide (config.nodeID n = id')); [reflexivity | exact IH].
Qed.

(** The part of ClusterConfig before the introducer test: the client version
    is recorded and the node possibly named; the sharing graph, the index
    sets and the repositories of the configuration stay, and so do the known
    nodes and their introducer flags. *)
Definition preludeOf (nodeID : NodeID) (cm : ClusterConfigMessage) (w w2 : World) : Prop :=
  graphOf w2 = graphOf w
  /\ repoFiles (mdl w2) = repoFiles (mdl w)
  /\ config.Repositories (cfg (mdl w2)) = config.Repositories (cfg (mdl w))
  /\ nodeVer (mdl w2) =
       <[nodeID := if String.eqb (ClientName cm) "syncthing" then ClientVersion cm
                   else (ClientName cm +:+ " " +:+ ClientVersion cm)%string]> (nodeVer (mdl w))
  /\ protoConn (mdl w2) = protoConn (mdl w)
  /\ eventsDefault w2 = eventsDefault w
  /\ forall id,
       config.Introducer <$> config.GetNodeConfiguration (cfg (mdl w2)) id
       = config.Introducer <$> config.GetNodeConfiguration (cfg (mdl w)) id.

Lemma ClusterConfig_unfold (nodeID : NodeID) (cm : ClusterConfigMessage) (w : World) :
  exists w2,
    preludeOf nodeID cm w w2
    /\ ClusterConfig nodeID cm w =
         match config.GetNodeConfiguration (cfg (mdl w2)) nodeID with
         | None => None
         | Some n =>
             if config.Introducer n then
               match introduceRepos nodeID (cmRepositories cm) false w2 with
               | Some (true, w3) => saveCfg w3
               | Some (false, w3) => Some (tt, w3)
               | None => None
               end
             else Some (tt, w2)
         end.
Proof.
  unfold ClusterConfig. unfold bind at 1. unfold setModel at 1, modify at 1.
  set (w1 := mkWorld _ _ _ _ _ _).
  assert (H1 : preludeOf nodeID cm w w1) by (subst w1; repeat split).
  clearbody w1. unfold bind at 1.
  assert (Hname : exists w2,
    (if negb (String.eqb (GetOption cm "name") "") then
       do node <- gets (fun w => config.GetNodeConfiguration (cfg (mdl w)) nodeID);
       match node with
       | Some n =>
           if String.eqb (config.nodeName n) "" then
             run setModel (fun m =>
               with_cfg (config.mkCfg (config.Repositories (cfg m))
                           (config.setName nodeID (GetOption cm "name")
                              (config.cfgNodes (cfg m)))
                           (config.saves (cfg m))) m);
             saveCfg
           else ret tt
       | None => ret tt
       end
     else ret tt) w1 = Some (tt, w2) /\ preludeOf nodeID cm w w2).
  { destruct (negb (String.eqb (GetOption cm "name") "")); [|exists w1; split; [reflexivity|exact H1]].
    unfold bind, gets.
    destruct (config.GetNodeConfiguration (cfg (mdl w1)) nodeID) as [n|];
      [|exists w1; split; [reflexivity|exact H1]].
    destruct (String.eqb (config.nodeName n) ""); [|exists w1; split; [reflexivity|exact H1]].
    eexists. split; [reflexivity|].
    destruct H1 as (A & B & C & D & E & F & G). unfold preludeOf, graphOf in *. cbn.
    repeat split; try assumption.
    intros id. rewrite <- G. unfold config.GetNodeConfiguration. cbn. apply find_setName. }
  destruct Hname as (w2 & Hrun & H2). rewrite Hrun.
  exists w2. split; [exact H2|].
  unfold bind, gets.
  destruct (config.GetNodeConfiguration (cfg (mdl w2)) nodeID) as [n|]; [|reflexivity].
  destruct (config.Introducer n); [|reflexivity].
  destruct (introduceRepos nodeID (cmRepositories cm) false w2) as [[[|] w3]|]; reflexivity.
Qed.

(** A ClusterConfig message from an introducer that is taken in without a
    panic makes every node announced for a repository we have known to the
    configuration and authorized for that repository, and takes no
    authorization, known node or repository away. *)
Theorem ClusterConfig_introduces (w w' : World) (nodeID : NodeID)
    (cm : ClusterConfigMessage) (n : config.NodeConfiguration) :
  config.GetNodeConfiguration (cfg (mdl w)) nodeID = Some n ->
  config.Introducer n = true ->
  ClusterConfig nodeID cm w = Some (tt, w') ->
  grows w w'
  /\ forall repo nd,
       repo ∈ cmRepositories cm -> is_Some (repoNodes (mdl w) !! rID repo) ->
       nd ∈ rNodes repo ->
       knows w' (copyNodeID (nID nd))
       /\ repoSharedWith (mdl w') (rID repo) (copyNodeID (nID nd)) = true.
Proof.
  intros Hn Hintro Hrun.
  destruct (ClusterConfig_unfold nodeID cm w) as (w2 & (Hgraph & _ & _ & _ & _ & _ & Hcfg) & Heq).
  rewrite Heq in Hrun. clear Heq.
  assert (Hg02 : grows w w2).
  { unfold graphOf in Hgraph. injection Hgraph as Hrn Hnr.
    unfold grows, knows, repoSharedWith. rewrite Hrn, Hnr. split; [auto|]. split; [|auto].
    intros id [x Hx]. specialize (Hcfg id). rewrite Hx in Hcfg.
    destruct (config.GetNodeConfiguration (cfg (mdl w2)) id); [eauto | discriminate Hcfg]. }
  pose proof (Hcfg nodeID) as Hme. rewrite Hn in Hme.
  destruct (config.GetNodeConfiguration (cfg (mdl w2)) nodeID) as [n2|]; [|discriminate Hme].
  injection Hme as Hme. rewrite Hme, Hintro in Hrun.
  destruct (introduceRepos nodeID (cmRepositories cm) false w2) as [[c w3]|] eqn:Hrepos;
    [|discriminate Hrun].
  destruct (introduceRepos_grows _ _ _ _ _ _ Hrepos) as (Hg23 & Hall).
  assert (Hfinal : grows w3 w'
                   /\ (forall id, knows w3 id -> knows w' id)
                   /\ (forall r x, repoSharedWith (mdl w3) r x = true ->
                                   repoSharedWith (mdl w') r x = true)).
  { destruct c; injection Hrun as <-; repeat split; auto. }
  destruct Hfinal as (Hg3 & Hk3 & Hs3).
  split; [exact (grows_trans _ _ _ Hg02 (grows_trans _ _ _ Hg23 Hg3))|].
  intros repo nd Hrepo Hkey Hnd.
  destruct (Hall repo nd Hrepo (proj2 (proj2 Hg02) _ Hkey) Hnd) as [Hk Hs].
  split; [apply Hk3, Hk | apply Hs3, Hs].
Qed.

Lemma ClusterConfig_introduces_witness :
  exists n w',
    config.GetNodeConfiguration (cfg (mdl (after [OpAddRepo photosCfg] introWorld0))) nodeN
      = Some n
    /\ config.Introducer n = true
    /\ ClusterConfig nodeN announcePhotos (after [OpAddRepo photosCfg] introWorld0)
       = Some (tt, w')
    /\ knows w' (copyNodeID nodeM)
    /\ repoSharedWith (mdl w') "photos" (copyNodeID nodeM) = true.
Proof.
  exists (config.mkNodeCfg nodeN "" true), introWorld1.
  assert (Hn : config.GetNodeConfiguration
                 (cfg (mdl (after [OpAddRepo photosCfg] introWorld0))) nodeN
               = Some (config.mkNodeCfg nodeN "" true)) by (vm_compute; reflexivity).
  assert (Hrun : ClusterConfig nodeN announcePhotos (after [OpAddRepo photosCfg] introWorld0)
                 = Some (tt, introWorld1)) by (vm_compute; reflexivity).
  split; [exact Hn|]. split; [reflexivity|]. split; [exact Hrun|].
  destruct (ClusterConfig_introduces _ _ _ _ _ Hn eq_refl Hrun) as [_ Hall].
  apply (Hall (mkRepository "photos"
                 [mkNode nodeN FlagShareTrusted; mkNode nodeM FlagShareTrusted])
              (mkNode nodeM FlagShareTrusted)).
  - left.
  - vm_compute. eauto.
  - right. left.
Defined.

(** A ClusterConfig message from a configured peer that is not an introducer
    only records the peer's client version (and possibly its name): the
    sharing graph, the index sets, the connections, the event log and the
    repositories of the configuration are left as they were. *)
Theorem ClusterConfig_plain_peer (w : World) (nodeID : NodeID) (cm : ClusterConfigMessage)
    (n : config.NodeConfiguration) :
  config.GetNodeConfiguration (cfg (mdl w)) nodeID = Some n ->
  config.Introducer n = false ->
  exists w',
    ClusterConfig nodeID cm w = Some (tt, w')
    /\ graphOf w' = graphOf w
    /\ repoFiles (mdl w') = repoFiles (mdl w)
    /\ config.Repositories (cfg (mdl w')) = config.Repositories (cfg (mdl w))
    /\ protoConn (mdl w') = protoConn (mdl w)
    /\ eventsDefault w' = eventsDefault w
    /\ nodeVer (mdl w') !! nodeID =
         Some (if String.eqb (ClientName cm) "syncthing" then ClientVersion cm
               else (ClientName cm +:+ " " +:+ ClientVersion cm)%string).
Proof.
  intros Hn Hplain.
  destruct (ClusterConfig_unfold nodeID cm w)
    as (w2 & (Hgraph & Hfiles & Hrepos & Hver & Hconn & Hev & Hcfg) & Heq).
  rewrite Heq. clear Heq.
  pose proof (Hcfg nodeID) as Hme. rewrite Hn in Hme.
  destruct (config.GetNodeConfiguration (cfg (mdl w2)) nodeID) as [n2|]; [|discriminate Hme].
  injection Hme as Hme. rewrite Hme, Hplain.
  exists w2. repeat split; try assumption.
  rewrite Hver. apply lookup_insert_eq.
Qed.

Lemma ClusterConfig_plain_peer_witness :
  exists n w',
    config.GetNodeConfiguration (cfg (mdl world1)) nodeN = Some n
    /\ config.Introducer n = false
    /\ ClusterConfig nodeN announcePhotos world1 = Some (tt, w')
    /\ graphOf w' = graphOf world1
    /\ nodeVer (mdl w') !! nodeN = Some "v0.9".
Proof.
  assert (Hn : config.GetNodeConfiguration (cfg (mdl world1)) nodeN
               = Some (config.mkNodeCfg nodeN "" false)) by (vm_compute; reflexivity).
  destruct (ClusterConfig_plain_peer world1 nodeN announcePhotos _ Hn eq_refl)
    as (w' & Hrun & Hgraph & _ & _ & _ & _ & Hver).
  exists (config.mkNodeCfg nodeN "" false), w'.
  split; [exact Hn|]. split; [reflexivity|]. split; [exact Hrun|].
  split; [exact Hgraph | exact Hver].
Defined.

(** A ClusterConfig message from a peer that has no entry in the
    configuration panics: the introducer flag is read through a nil pointer. *)
Theorem ClusterConfig_unknown_peer (w : World) (nodeID : NodeID) (cm : ClusterConfigMessage) :
  config.GetNodeConfiguration (cfg (mdl w)) nodeID = None ->
  ClusterConfig nodeID cm w = None.
Proof.
  intros Hn.
  destruct (ClusterConfig_unfold nodeID cm w) as (w2 & (_ & _ & _ & _ & _ & _ & Hcfg) & Heq).
  rewrite Heq. specialize (Hcfg nodeID). rewrite Hn in Hcfg.
  destruct (config.GetNodeConfiguration (cfg (mdl w2)) nodeID); [discriminate Hcfg|].
  reflexivity.
Qed.

Lemma ClusterConfig_unknown_peer_witness :
  config.GetNodeConfiguration (cfg (mdl world1)) nodeM = None
  /\ ClusterConfig nodeM announcePhotos world1 = None.
Proof.
  assert (Hn : config.GetNodeConfiguration (cfg (mdl world1)) nodeM = None)
    by (vm_compute; reflexivity).
  split; [exact Hn|]. exact (ClusterConfig_unknown_peer world1 nodeM announcePhotos Hn).
Defined.

(** ** Outcomes of a scan *)

(** A computation that always returns and leaves a part of the world alone. *)
Definition steady {X A} (part : World -> X) (c : M A) : Prop :=
  forall w, exists a w', c w = Some (a, w') /\ part w' = part w.

Lemma steady_ret {X A} (part : World -> X) (a : A) : steady part (ret a).
Proof. intros w. exists a, w. split; reflexivity. Qed.

Lemma steady_gets {X A} (part : World -> X) (f : World -> A) : steady part (gets f).
Proof. intros w. exists (f w), w. split; reflexivity. Qed.

Lemma steady_bind {X A B} (part : World -> X) (c : M A) (k : A -> M B) :
  steady part c -> (forall a, steady part (k a)) -> steady part (bind c k).
Proof.
  intros Hc Hk w. destruct (Hc w) as (a & w1 & Hrun & Hpart).
  destruct (Hk a w1) as (b & w2 & Hrun2 & Hpart2).
  exists b, w2. unfold bind. rewrite Hrun. split; [exact Hrun2 | congruence].
Qed.

Lemma steady_modify {X} (part : World -> X) (f : World -> World) :
  (forall w, part (f w) = part w) -> steady part (modify f).
Proof. intros Hf w. exists tt, (f w). split; [reflexivity | apply Hf]. Qed.

Lemma steady_traverseM {X A S} (part : World -> X) (fn : S -> A -> M (S * bool))
    (l : list A) (st : S) :
  (forall st x, steady part (fn st x)) -> steady part (traverseM fn st l).
Proof.
  intros Hfn. revert st. induction l as [|x l IH]; intros st; cbn [traverseM].
  - apply steady_ret.
  - apply steady_bind; [apply Hfn|]. intros [st' [|]]; cbn [fst snd];
      [apply IH | apply steady_ret].
Qed.

(** The state machine's part of the world, and with it the ignore patterns. *)
Definition stateOf (w : World) : gmap string repoState * gmap string Z :=
  (repoStates (mdl w), repoStateChanged (mdl w)).

Definition scanFrame (w : World)
  : gmap string repoState * gmap string Z * gmap string ignore.Patterns :=
  (stateOf w, repoIgnores (mdl w)).

(** The state a repository is in: a repository without an entry is Idle. *)
Definition currentState (m : Model) (repo : string) : repoState :=
  default RepoIdle (repoStates m !! repo).

Lemma steady_Log {X} (part : World -> X) (e : events.Event) :
  (forall w es, part (mkWorld (mdl w) (lamportDefault w) es (timeReads w) (wall w) (disk w))
                = part w) ->
  steady part (Log e).
Proof. intros H. apply steady_modify. intros w. apply H. Qed.

Lemma steady_updateLocalSet (repo : string) (batch : list FileInfo) :
  steady scanFrame (updateLocalSet repo batch).
Proof. apply steady_modify. reflexivity. Qed.

Lemma steady_Tick (v : Z) : steady scanFrame (Tick v).
Proof. intros w. eexists _, _. split; reflexivity. Qed.

Lemma steady_scanFirstPass (repo : string) (fchan : list FileInfo) :
  forall batch, steady scanFrame (scanFirstPass repo fchan batch).
Proof.
  induction fchan as [|f fchan IH]; intros batch; cbn [scanFirstPass].
  - apply steady_ret.
  - apply steady_bind; [apply steady_Log; reflexivity | intros _].
    apply steady_bind; [|intros b; apply IH].
    destruct (length batch =? batchSize)%nat; [|apply steady_ret].
    apply steady_bind; [apply steady_updateLocalSet | intros _; apply steady_ret].
Qed.

Lemma steady_scanVisit (repo sub dir : string) (ignores : ignore.Patterns)
    (st : list FileInfo * bool) (f : FileInfoTruncated) :
  steady scanFrame (scanVisit repo sub dir ignores st f).
Proof.
  unfold scanVisit. destruct st as [batch seenPrefix].
  destruct (negb (String.prefix sub (tName f))); [apply steady_ret|].
  destruct (negb (IsDeleted (tFlags f))); [|apply steady_ret].
  destruct (isInvalid f); [apply steady_ret|].
  apply steady_bind.
  { destruct (length batch =? batchSize)%nat; [|apply steady_ret].
    apply steady_bind; [apply steady_updateLocalSet | intros _; apply steady_ret]. }
  intros b. destruct (ignore.Match ignores (tName f)).
  - apply steady_bind; [apply steady_Log; reflexivity | intros _; apply steady_ret].
  - apply steady_bind; [apply steady_gets|]. intros [content| |]; try apply steady_ret.
    apply steady_bind; [apply steady_Tick | intros v].
    apply steady_bind; [apply steady_Log; reflexivity | intros _; apply steady_ret].
Qed.

Lemma steady_scanSecondPass (repo sub dir : string) (ignores : ignore.Patterns) :
  steady scanFrame (scanSecondPass repo sub dir ignores).
Proof.
  unfold scanSecondPass.
  apply steady_bind; [apply steady_gets | intros snapshot].
  apply steady_bind; [apply steady_traverseM; intros; apply steady_scanVisit | intros st].
  destruct (0 <? length (fst st))%nat; [apply steady_updateLocalSet | apply steady_ret].
Qed.

(** A scan of a subpath that escapes the repository, or of a repository the
    model does not have, fails; the second records the ignore patterns under
    the unknown name all the same, and changes nothing else. *)
Theorem ScanRepoSub_rejected (w : World) (repo sub : string) (escapes : bool)
    (ignores : ignore.Patterns) (walk : option (list FileInfo)) :
  escapes = true \/ repoFiles (mdl w) !! repo = None ->
  exists err w',
    ScanRepoSub repo sub escapes ignores walk w = Some (Some err, w')
    /\ (if escapes then w' = w
        else repoIgnores (mdl w') = <[repo := ignores]> (repoIgnores (mdl w)))
    /\ repoFiles (mdl w') = repoFiles (mdl w)
    /\ stateOf w' = stateOf w
    /\ eventsDefault w' = eventsDefault w
    /\ lamportDefault w' = lamportDefault w.
Proof.
  intros Hwhy. unfold ScanRepoSub. destruct escapes.
  - exists "invalid subpath", w. repeat split.
  - destruct Hwhy as [Hesc|Hnone]; [discriminate Hesc|].
    unfold bind, gets. rewrite Hnone.
    eexists _, _. split; [reflexivity|]. repeat split.
Qed.

Lemma ScanRepoSub_rejected_witness :
  (false = true \/ repoFiles (mdl world1) !! "music" = None)
  /\ exists err w',
       ScanRepoSub "music" "" false jpgPatterns (Some []) world1 = Some (Some err, w')
       /\ is_Some (repoIgnores (mdl w') !! "music")
       /\ repoFiles (mdl w') = repoFiles (mdl world1).
Proof.
  assert (Hwhy : false = true \/ repoFiles (mdl world1) !! "music" = None)
    by (right; vm_compute; reflexivity).
  split; [exact Hwhy|].
  destruct (ScanRepoSub_rejected world1 "music" "" false jpgPatterns (Some []) Hwhy)
    as (err & w' & Hrun & Hign & Hfiles & _).
  exists err, w'. split; [exact Hrun|]. split; [|exact Hfiles].
  rewrite Hign, lookup_insert_eq. eauto.
Defined.

Lemma setState_total (repo : string) (s : repoState) (w : World) :
  exists w', setState repo s w = Some (tt, w')
    /\ currentState (mdl w') repo = s
    /\ repoIgnores (mdl w') = repoIgnores (mdl w).
Proof.
  unfold setState, bind, gets, currentState.
  destruct (bool_decide (s <> default RepoIdle (repoStates (mdl w) !! repo))) eqn:Hne.
  - destruct (repoStateChanged (mdl w) !! repo);
      (eexists; split; [reflexivity|]); cbn; rewrite lookup_insert_eq; split; reflexivity.
  - apply bool_decide_eq_false in Hne. exists w. split; [reflexivity|]. split; [|reflexivity].
    destruct (decide (default RepoIdle (repoStates (mdl w) !! repo) = s)) as [H|H];
      [exact H | exfalso; apply Hne; congruence].
Qed.

(** A scan whose walker fails returns the error with the repository still in
    the Scanning state; a scan that completes returns no error and leaves the
    repository Idle.  Either way the patterns loaded are the repository's
    current ignore patterns afterwards. *)
Theorem ScanRepoSub_final_state (w : World) (repo sub : string)
    (ignores : ignore.Patterns) (walk : option (list FileInfo)) :
  is_Some (repoFiles (mdl w) !! repo) ->
  exists err w',
    ScanRepoSub repo sub false ignores walk w = Some (err, w')
    /\ repoIgnores (mdl w') !! repo = Some ignores
    /\ match walk with
       | None => is_Some err /\ currentState (mdl w') repo = RepoScanning
       | Some _ => err = None /\ currentState (mdl w') repo = RepoIdle
       end.
Proof.
  intros [fs Hfs]. unfold ScanRepoSub.
  unfold bind at 1, gets at 1. rewrite Hfs.
  unfold bind at 1, gets at 1. unfold bind at 1, setModel at 1, modify at 1.
  set (w1 := mkWorld _ _ _ _ _ _).
  destruct (setState_total repo RepoScanning w1) as (w2 & Hscan & Hstate2 & Hign2).
  unfold bind at 1. rewrite Hscan.
  assert (Hign : repoIgnores (mdl w2) !! repo = Some ignores).
  { rewrite Hign2. subst w1. cbn. apply lookup_insert_eq. }
  destruct walk as [fchan|].
  2: { exists (Some "walk failed"), w2. split; [reflexivity|]. split; [exact Hign|].
       split; [eauto | exact Hstate2]. }
  destruct (steady_scanFirstPass repo fchan [] w2) as (batch & w3 & Hfirst & Hf3).
  unfold bind at 1. rewrite Hfirst.
  assert (Hflush : steady scanFrame
            (if (0 <? length batch)%nat then updateLocalSet repo batch else ret tt)).
  { destruct (0 <? length batch)%nat; [apply steady_updateLocalSet | apply steady_ret]. }
  destruct (Hflush w3) as ([] & w4 & Hrun4 & Hf4).
  unfold bind at 1. rewrite Hrun4.
  destruct (steady_scanSecondPass repo sub
              (config.Directory (default config.zeroRepoCfg (repoCfgs (mdl w) !! repo)))
              ignores w4) as ([] & w5 & Hsecond & Hf5).
  unfold bind at 1. rewrite Hsecond.
  destruct (setState_total repo RepoIdle w5) as (w6 & Hidle & Hstate6 & Hign6).
  unfold bind at 1. rewrite Hidle.
  exists None, w6. split; [reflexivity|]. split; [|split; [reflexivity | exact Hstate6]].
  rewrite Hign6.
  assert (Hframe : scanFrame w5 = scanFrame w2) by congruence.
  apply (f_equal snd) in Hframe. cbn [scanFrame snd] in Hframe. rewrite Hframe. exact Hign.
Qed.

Lemma ScanRepoSub_final_state_witness :
  is_Some (repoFiles (mdl world2) !! "photos")
  /\ exists err w',
       ScanRepoSub "photos" "" false ignore.nilPatterns None world2 = Some (err, w')
       /\ is_Some err
       /\ currentState (mdl w') "photos" = RepoScanning.
Proof.
  assert (Hrepo : is_Some (repoFiles (mdl world2) !! "photos")) by (vm_compute; eauto).
  split; [exact Hrepo|].
  destruct (ScanRepoSub_final_state world2 "photos" "" ignore.nilPatterns None Hrepo)
    as (err & w' & Hrun & _ & Herr & Hstate).
  exists err, w'. split; [exact Hrun|]. split; assumption.
Defined.

(** *** The first pass *)

Definition walkedEvent (repo : string) (f : FileInfo) : events.Event :=
  events.LocalIndexUpdated repo (Name f) (Modified f) (Flags f) (Size f).

Lemma scanFirstPass_spec (repo : string) (fchan : list FileInfo) :
  forall (batch : list FileInfo) (w : World) (cur : files.Set_),
    repoFiles (mdl w) !! repo = Some cur ->
    exists batch' w' cur',
      scanFirstPass repo fchan batch w = Some (batch', w')
      /\ repoFiles (mdl w') !! repo = Some cur'
      /\ pending cur' batch' = files.insertAll fchan (pending cur batch)
      /\ eventsDefault w' = eventsDefault w ++ (walkedEvent repo <$> fchan)
      /\ lamportDefault w' = lamportDefault w.
Proof.
  induction fchan as [|f fchan IH]; intros batch w cur Hcur; cbn [scanFirstPass].
  - exists batch, w, cur. rewrite app_nil_r. repeat split. exact Hcur.
  - unfold bind at 1. unfold Log at 1, modify at 1.
    set (w0 := mkWorld _ _ _ _ _ _).
    destruct (flush_spec repo batch w0 cur Hcur)
      as (batch1 & w1 & cur1 & Hflush & Hcur1 & Hpend1 & Hclock1 & _).
    assert (Hev1 : eventsDefault w1 = eventsDefault w ++ [walkedEvent repo f]).
    { destruct (length batch =? batchSize)%nat.
      - unfold bind, updateLocalSet, setModel, modify, ret in Hflush.
        injection Hflush as _ <-. reflexivity.
      - injection Hflush as _ <-. reflexivity. }
    unfold bind at 1. rewrite Hflush.
    destruct (IH (batch1 ++ [f]) w1 cur1 Hcur1)
      as (batch' & w' & cur' & Hrun & Hcur' & Hpend' & Hev' & Hclock').
    exists batch', w', cur'. split; [exact Hrun|]. split; [exact Hcur'|].
    split; [|split].
    + rewrite Hpend', pending_snoc, Hpend1. reflexivity.
    + rewrite Hev', Hev1, <- app_assoc. reflexivity.
    + rewrite Hclock', Hclock1. reflexivity.
Qed.

(** The first pass of a scan, with the commit of the last batch: the local
    replica ends as one Update with all the files the walker delivered would
    leave it, however they were batched, and one LocalIndexUpdated event is
    logged per file, in the walker's order. *)
Theorem scanFirstPass_commits_all (repo : string) (fchan : list FileInfo) (w : World)
    (fs : files.Set_) :
  repoFiles (mdl w) !! repo = Some fs ->
  exists w' fs',
    (do batch <- scanFirstPass repo fchan [];
     if (0 <? length batch)%nat then updateLocalSet repo batch else ret tt) w
      = Some (tt, w')
    /\ repoFiles (mdl w') !! repo = Some fs'
    /\ files.have fs' LocalNodeID = files.have (files.Update fs LocalNodeID fchan) LocalNodeID
    /\ files.LocalVersion fs' LocalNodeID
       = files.LocalVersion (files.Update fs LocalNodeID fchan) LocalNodeID
    /\ eventsDefault w' = eventsDefault w ++ (walkedEvent repo <$> fchan).
Proof.
  intros Hfs.
  destruct (scanFirstPass_spec repo fchan [] w fs Hfs)
    as (batch & w1 & cur1 & Hrun & Hcur1 & Hpend & Hev & _).
  unfold bind. rewrite Hrun.
  assert (Hgoal : forall fs', pending fs' [] = pending cur1 batch ->
            files.have fs' LocalNodeID
              = files.have (files.Update fs LocalNodeID fchan) LocalNodeID
            /\ files.LocalVersion fs' LocalNodeID
               = files.LocalVersion (files.Update fs LocalNodeID fchan) LocalNodeID).
  { intros fs' Hfs'. rewrite Hpend in Hfs'.
    change (files.insertAll fchan (pending fs [])) with (pending fs fchan) in Hfs'.
    rewrite <- (pending_Update fs fchan) in Hfs'.
    unfold pending in Hfs'. cbn [files.insertAll] in Hfs'.
    injection Hfs' as H1 H2. split; assumption. }
  destruct (0 <? length batch)%nat eqn:Hlen.
  - destruct (updateLocalSet_spec repo batch w1 cur1 Hcur1) as (w' & Hupd & Hcur' & _ & _).
    exists w', (files.Update cur1 LocalNodeID batch).
    split; [exact Hupd|]. split; [exact Hcur'|].
    destruct (Hgoal _ (pending_Update cur1 batch)) as [H1 H2].
    split; [exact H1|]. split; [exact H2|].
    unfold updateLocalSet, setModel, modify in Hupd. injection Hupd as <-. exact Hev.
  - exists w1, cur1. split; [reflexivity|]. split; [exact Hcur1|].
    destruct batch; [|discriminate Hlen].
    destruct (Hgoal cur1 eq_refl) as [H1 H2].
    split; [exact H1|]. split; [exact H2 | exact Hev].
Qed.

Lemma scanFirstPass_commits_all_witness :
  exists fs w' fs',
    repoFiles (mdl world1) !! "photos" = Some fs
    /\ (do batch <- scanFirstPass "photos" [a_jpg] [];
        if (0 <? length batch)%nat then updateLocalSet "photos" batch else ret tt) world1
       = Some (tt, w')
    /\ repoFiles (mdl w') !! "photos" = Some fs'
    /\ files.have fs' LocalNodeID
       = files.have (files.Update fs LocalNodeID [a_jpg]) LocalNodeID.
Proof.
  destruct (repoFiles (mdl world1) !! "photos") as [fs|] eqn:Hfs;
    [|vm_compute in Hfs; discriminate Hfs].
  destruct (scanFirstPass_commits_all "photos" [a_jpg] world1 fs Hfs)
    as (w' & fs' & Hrun & Hfs' & Hhave & _).
  exists fs, w', fs'. split; [reflexivity|]. split; [exact Hrun|].
  split; [exact Hfs' | exact Hhave].
Defined.

(** ** GlobalSize and NeedSize *)

Definition globalSizeStep {F} `{FileIntf F} : Z * Z * Z -> F -> Z * Z * Z :=
  fun '(files, deleted, bytes) f =>
    let '(fs, de, by_) := sizeOfFile f in
    (int64 (files + fs), int64 (deleted + de), int64 (bytes + by_)).

Lemma global_size_fold {F} `{FileIntf F} (l : list F) (a b c : Z) :
  fold_left globalSizeStep l (int64 a, int64 b, int64 c)
  = (int64 (a + countOf present l), int64 (b + countOf isDeleted l), int64 (c + bytesOf l)).
Proof.
  revert a b c. induction l as [|f l IH]; intros a b c; cbn [fold_left].
  - unfold countOf; cbn. repeat f_equal; lia.
  - assert (Hstep : globalSizeStep (int64 a, int64 b, int64 c) f
                    = (int64 (a + if isDeleted f then 0 else 1),
                       int64 (b + if isDeleted f then 1 else 0),
                       int64 (c + Size f))).
    { unfold globalSizeStep, sizeOfFile.
      destruct (isDeleted f); cbn [negb]; rewrite ?int64_add_l, ?int64_add_r; reflexivity. }
    rewrite Hstep, IH, !countOf_cons, bytesOf_cons.
    assert (Hp : present f = negb (isDeleted f)) by reflexivity. rewrite Hp.
    destruct (isDeleted f); cbn [negb]; (f_equal; [f_equal|]); f_equal; lia.
Qed.

(** GlobalSize counts over the whole global view, Invalid entries included:
    the files that are not deleted, the deleted ones, and the bytes of both
    (each as the 64-bit accumulator holds it); an unknown repo has size zero. *)
Theorem GlobalSize_totals (m : Model) (repo : string) :
  GlobalSize m repo =
    match repoFiles m !! repo with
    | None => (0, 0, 0)
    | Some rf =>
        let view := files.globalView rf in
        (int64 (countOf present view), int64 (countOf isDeleted view), int64 (bytesOf view))
    end.
Proof.
  unfold GlobalSize. destruct (repoFiles m !! repo) as [rf|]; [|reflexivity].
  unfold files.WithGlobalTruncated. cbv zeta.
  erewrite (traverse_ext _ (fun st f => (globalSizeStep st f, true))).
  2: { intros [[a b] c] f. unfold globalSizeStep.
       destruct (sizeOfFile f) as [[? ?] ?]. reflexivity. }
  rewrite traverse_all.
  change (0, 0, 0) with (int64 0, int64 0, int64 0).
  rewrite global_size_fold, !Z.add_0_l.
  rewrite (countOf_truncate _ present present) by reflexivity.
  rewrite (countOf_truncate _ isDeleted isDeleted) by reflexivity.
  rewrite bytesOf_fmap_truncate. reflexivity.
Qed.

Definition needSizeStep {F} `{FileIntf F} : Z * Z -> F -> Z * Z :=
  fun '(files, bytes) f =>
    let '(fs, de, by_) := sizeOfFile f in
    (int64 (files + int64 (fs + de)), int64 (bytes + by_)).

Lemma need_size_fold {F} `{FileIntf F} (l : list F) (a c : Z) :
  fold_left needSizeStep l (int64 a, int64 c)
  = (int64 (a + Z.of_nat (length l)), int64 (c + bytesOf l)).
Proof.
  revert a c. induction l as [|f l IH]; intros a c; cbn [fold_left].
  - cbn. repeat f_equal; lia.
  - assert (Hstep : needSizeStep (int64 a, int64 c) f
                    = (int64 (a + 1), int64 (c + Size f))).
    { unfold needSizeStep, sizeOfFile.
      destruct (isDeleted f); cbn [negb]; rewrite ?int64_add_l, ?int64_add_r; reflexivity. }
    rewrite Hstep, IH, bytesOf_cons. cbn [length]. f_equal; f_equal; lia.
Qed.

(** NeedSize counts every entry of the local need view as a file, deleted
    or not, and adds up the bytes of all of them. *)
Theorem NeedSize_totals (m : Model) (repo : string) :
  NeedSize m repo =
    match repoFiles m !! repo with
    | None => (0, 0)
    | Some rf =>
        let view := files.needView rf LocalNodeID in
        (int64 (Z.of_nat (length view)), int64 (bytesOf view))
    end.
Proof.
  unfold NeedSize. destruct (repoFiles m !! repo) as [rf|]; [|reflexivity].
  unfold files.WithNeedTruncated. cbv zeta.
  erewrite (traverse_ext _ (fun st f => (needSizeStep st f, true))).
  2: { intros [a c] f. unfold needSizeStep.
       destruct (sizeOfFile f) as [[? ?] ?]. reflexivity. }
  rewrite traverse_all.
  change (0, 0) with (int64 0, int64 0).
  rewrite need_size_fold, !Z.add_0_l, length_fmap, bytesOf_fmap_truncate. reflexivity.
Qed.

(** ** What AddRepo registers *)

Lemma addRepoNodes_frame (repoID : string) (nodes : list NodeID) :
  forall (i : nat) (w w' : World),
    addRepoNodes repoID i nodes w = Some (tt, w') ->
    repoCfgs (mdl w') = repoCfgs (mdl w)
    /\ repoFiles (mdl w') = repoFiles (mdl w)
    /\ addedRepo (mdl w') = addedRepo (mdl w)
    /\ started (mdl w') = started (mdl w).
Proof.
  induction nodes as [|node nodes IH]; intros i w w' Hrun; cbn [addRepoNodes] in Hrun.
  - injection Hrun as <-. auto.
  - unfold bind, setModel, modify in Hrun. apply IH in Hrun. exact Hrun.
Qed.


(** ** A served request *)

(** When Request returns a buffer, the repo is known, the local entry of the
    name is neither Invalid nor Deleted, the offset is not beyond the size
    the index records, the file is on disk under the repo's directory, and
    the buffer is exactly the [size] bytes of the file that start at
    [offset]; the model is left as it was. *)
Theorem Request_returns_segment (w w' : World) (nodeID : NodeID) (repo name : string)
    (offset size : Z) (buf : list N) :
  Request nodeID repo name offset size w = Some (inl buf, w') ->
  w' = w /\ 0 <= offset /\ Z.of_nat (length buf) = size
  /\ exists r content,
       repoFiles (mdl w) !! repo = Some r
       /\ flagged (files.Get r LocalNodeID name) = false
       /\ offset <= Size (files.Get r LocalNodeID name)
       /\ disk w (config.Directory (default config.zeroRepoCfg (repoCfgs (mdl w) !! repo)))
            name = File content
       /\ buf = take (Z.to_nat size) (drop (Z.to_nat offset) content).
Proof.
  unfold Request, bind, gets, ret, panic. intros Hrun.
  destruct (repoFiles (mdl w) !! repo) as [r|] eqn:Hr; [|discriminate Hrun].
  fold (flagged (files.Get r LocalNodeID name)) in Hrun.
  destruct (flagged (files.Get r LocalNodeID name)) eqn:Hflag; [discriminate Hrun|].
  destruct (Z.ltb_spec (Size (files.Get r LocalNodeID name)) offset) as [|Hoff];
    [discriminate Hrun|].
  destruct (disk w _ name) as [content| |] eqn:Hdisk; try discriminate Hrun.
  destruct (Z.ltb_spec size 0) as [|Hsize]; [discriminate Hrun|].
  destruct (Z.ltb_spec offset 0) as [|Hpos]; [discriminate Hrun|].
  destruct (Z.eqb_spec size 0) as [->|Hnz].
  - injection Hrun as <- <-.
    split; [reflexivity|]. split; [exact Hpos|]. split; [reflexivity|].
    exists r, content. auto.
  - destruct (Z.leb_spec (offset + size) (Z.of_nat (length content))) as [Hfit|];
      [|discriminate Hrun].
    injection Hrun as <- <-.
    split; [reflexivity|]. split; [exact Hpos|]. split.
    + rewrite length_take, length_drop. lia.
    + exists r, content. auto.
Qed.

Lemma Request_returns_segment_witness :
  Request nodeN "photos" "a.jpg" 2 3 world2 = Some (inl [50; 51; 52]%N, world2)
  /\ world2 = world2 /\ 0 <= 2 /\ Z.of_nat (length [50; 51; 52]%N) = 3
  /\ exists r content,
       repoFiles (mdl world2) !! "photos" = Some r
       /\ flagged (files.Get r LocalNodeID "a.jpg") = false
       /\ 2 <= Size (files.Get r LocalNodeID "a.jpg")
       /\ disk world2
            (config.Directory (default config.zeroRepoCfg (repoCfgs (mdl world2) !! "photos")))
            "a.jpg" = File content
       /\ [50; 51; 52]%N = take (Z.to_nat 3) (drop (Z.to_nat 2) content).
Proof.
  split; [vm_compute; reflexivity|].
  apply (Request_returns_segment world2 world2 nodeN "photos" "a.jpg" 2 3 [50; 51; 52]%N).
  vm_compute; reflexivity.
Defined.

(** ** Every shared repo has an index set *)

(** The repos with a sharing list have an index set, and the repos listed
    for a node have a sharing list. *)
Definition indexed (m : Model) : Prop :=
  (forall r, is_Some (repoNodes m !! r) -> is_Some (repoFiles m !! r))
  /\ (forall n r, r ∈ default [] (nodeRepos m !! n) -> is_Some (repoNodes m !! r)).

(** A computation that maintains [indexed]. *)
Definition safe {A} (c : M A) : Prop :=
  forall w a w', indexed (mdl w) -> c w = Some (a, w') -> indexed (mdl w').

Lemma safe_ret {A} (a : A) : safe (ret a).
Proof. intros w a' w' Hi H. injection H as <- <-. exact Hi. Qed.

Lemma safe_panic {A} : safe (@panic A).
Proof. intros w a w' _ H. discriminate H. Qed.

Lemma safe_gets {A} (f : World -> A) : safe (gets f).
Proof. intros w a w' Hi H. injection H as <- <-. exact Hi. Qed.

Lemma safe_bind {A B} (c : M A) (k : A -> M B) :
  safe c -> (forall a, safe (k a)) -> safe (bind c k).
Proof.
  intros Hc Hk w b w' Hi H. unfold bind in H.
  destruct (c w) as [[a w1]|] eqn:Hcw; [|discriminate H].
  exact (Hk a _ _ _ (Hc _ _ _ Hi Hcw) H).
Qed.

Lemma safe_Log (e : events.Event) : safe (Log e).
Proof. intros w a w' Hi H. injection H as <- <-. exact Hi. Qed.

Lemma safe_Tick (v : Z) : safe (Tick v).
Proof. intros w a w' Hi H. injection H as <- <-. exact Hi. Qed.

Lemma safe_Now : safe Now.
Proof. intros w a w' Hi H. injection H as <- <-. exact Hi. Qed.

Lemma safe_setClock (c : Z) : safe (setClock c).
Proof. intros w a w' Hi H. injection H as <- <-. exact Hi. Qed.

Lemma safe_setModel (f : Model -> Model) :
  (forall m, indexed m -> indexed (f m)) -> safe (setModel f).
Proof. intros Hf w a w' Hi H. injection H as <- <-. apply Hf, Hi. Qed.

Lemma indexed_files (m m' : Model) :
  repoNodes m' = repoNodes m -> nodeRepos m' = nodeRepos m ->
  (forall r, is_Some (repoFiles m !! r) -> is_Some (repoFiles m' !! r)) ->
  indexed m -> indexed m'.
Proof.
  unfold indexed. intros -> -> Hfiles [Hn Hr]. split; auto.
Qed.

Lemma safe_forEach {A} (l : list A) (body : A -> M unit) :
  (forall x, safe (body x)) -> safe (forEach l body).
Proof.
  intros Hbody. induction l as [|x l IH]; cbn [forEach].
  - apply safe_ret.
  - apply safe_bind; [apply Hbody | intros _; exact IH].
Qed.

Lemma safe_traverseM {A S} (fn : S -> A -> M (S * bool)) (l : list A) (st : S) :
  (forall st x, safe (fn st x)) -> safe (traverseM fn st l).
Proof.
  intros Hfn. revert st. induction l as [|x l IH]; intros st; cbn [traverseM].
  - apply safe_ret.
  - apply safe_bind; [apply Hfn|]. intros [st' [|]]; cbn [fst snd];
      [apply IH | apply safe_ret].
Qed.

Create HintDb safe.
#[local] Hint Resolve safe_ret safe_panic safe_gets safe_Log safe_Tick safe_Now
  safe_setClock : safe.

Ltac safe_step :=
  first
    [ solve [auto with safe nocore]
    | apply safe_setModel; intros ?; apply indexed_files;
        [ reflexivity | reflexivity
        | intros ?; cbn;
          first [ exact (fun H => H)
                | rewrite lookup_insert_is_Some'; auto
                | rewrite lookup_alter_is_Some; auto ] ]
    | apply safe_bind; [|intros ?]
    | match goal with
      | |- safe (if ?b then _ else _) => destruct b
      | |- safe (match ?x with _ => _ end) => destruct x
      end ].

Ltac safe_auto := repeat safe_step.

Lemma safe_updateLocalSet (repo : string) (batch : list FileInfo) :
  safe (updateLocalSet repo batch).
Proof. unfold updateLocalSet. safe_auto. Qed.
#[local] Hint Resolve safe_updateLocalSet : safe.

Lemma safe_setState (repo : string) (s : repoState) : safe (setState repo s).
Proof. unfold setState. safe_auto. Qed.
#[local] Hint Resolve safe_setState : safe.

Lemma safe_Request (nodeID : NodeID) (repo name : string) (offset size : Z) :
  safe (Request nodeID repo name offset size).
Proof. unfold Request. safe_auto. Qed.

Lemma safe_Index (nodeID : NodeID) (repo : string) (fs : list FileInfo) :
  safe (Index nodeID repo fs).
Proof. unfold Index. safe_auto. Qed.

Lemma safe_IndexUpdate (nodeID : NodeID) (repo : string) (fs : list FileInfo) :
  safe (IndexUpdate nodeID repo fs).
Proof. unfold IndexUpdate. safe_auto. Qed.

Lemma safe_Close (node : NodeID) (err : string) : safe (Close node err).
Proof.
  unfold Close. safe_auto. apply safe_forEach. intros repo. safe_auto.
Qed.

Lemma safe_scanFirstPass (repo : string) (fchan batch : list FileInfo) :
  safe (scanFirstPass repo fchan batch).
Proof.
  revert batch. induction fchan as [|f fchan IH]; intros batch; cbn [scanFirstPass].
  - apply safe_ret.
  - safe_auto.
Qed.
#[local] Hint Resolve safe_scanFirstPass : safe.

Lemma safe_scanVisit (repo sub dir : string) (ignores : ignore.Patterns)
    (st : list FileInfo * bool) (f : FileInfoTruncated) :
  safe (scanVisit repo sub dir ignores st f).
Proof.
  unfold scanVisit. destruct st as [batch seenPrefix].
  safe_auto.
Qed.
#[local] Hint Resolve safe_scanVisit : safe.

Lemma safe_scanSecondPass (repo sub dir : string) (ignores : ignore.Patterns) :
  safe (scanSecondPass repo sub dir ignores).
Proof.
  unfold scanSecondPass.
  apply safe_bind; [apply safe_gets | intros snapshot].
  apply safe_bind; [apply safe_traverseM; intros; apply safe_scanVisit | intros st].
  destruct (0 <? length (fst st))%nat; [apply safe_updateLocalSet | apply safe_ret].
Qed.
#[local] Hint Resolve safe_scanSecondPass : safe.

Lemma safe_ScanRepoSub (repo sub : string) (escapes : bool) (ignores : ignore.Patterns)
    (walk : option (list FileInfo)) :
  safe (ScanRepoSub repo sub escapes ignores walk).
Proof.
  unfold ScanRepoSub. safe_auto.
Qed.

Lemma safe_AddRepo (c : config.RepositoryConfiguration) : safe (AddRepo c).
Proof.
  intros w [] w' [Hfiles Hlisted] Hrun. unfold AddRepo, bind, gets in Hrun.
  destruct (started (mdl w)); [discriminate Hrun|].
  destruct (String.length (config.ID c) =? 0)%nat; [discriminate Hrun|].
  unfold setModel, modify in Hrun. cbn [mdl] in Hrun.
  match type of Hrun with
  | match addRepoNodes _ _ _ ?x with _ => _ end = _ => set (w1 := x) in *
  end.
  destruct (addRepoNodes_spec (config.ID c) (config.Nodes c) [] w1)
    as (w2 & Hloop & Hnodes & Hrepos).
  { subst w1. cbn. rewrite lookup_insert_eq. reflexivity. }
  cbn [length] in Hloop. rewrite Hloop in Hrun. injection Hrun as <-.
  destruct (addRepoNodes_frame _ _ _ _ _ Hloop) as (_ & Hrf & _).
  cbn [mdl app] in Hnodes. subst w1. cbn in Hnodes, Hrepos, Hrf.
  rewrite insert_insert_eq in Hnodes.
  split; cbn.
  - intros r. rewrite Hnodes, Hrf, !lookup_insert_is_Some'. intuition auto.
  - intros n r. rewrite Hnodes, Hrepos, lookup_insert_is_Some'.
    intros [H|[-> _]]; [right; eapply Hlisted, H | left; reflexivity].
Qed.

Lemma introduceNode_indexed (nodeID : NodeID) (repoID : string)
    (node : Node) (changed b : bool) (w w' : World) :
  indexed (mdl w) -> is_Some (repoNodes (mdl w) !! repoID) ->
  introduceNode nodeID repoID node changed w = Some (b, w') ->
  indexed (mdl w') /\ is_Some (repoNodes (mdl w') !! repoID).
Proof.
  intros [Hfiles Hlisted] Hrepo Hrun.
  unfold introduceNode, bind, gets, setModel, modify, ret in Hrun.
  set (peer := copyNodeID (nID node)) in *.
  assert (Hshare : forall m : Model,
    repoNodes m = repoNodes (mdl w) -> nodeRepos m = nodeRepos (mdl w) ->
    repoFiles m = repoFiles (mdl w) ->
    forall m' : Model,
    repoNodes m' = <[repoID := default [] (repoNodes m !! repoID) ++ [peer]]> (repoNodes m) ->
    nodeRepos m' = <[peer := default [] (nodeRepos m !! peer) ++ [repoID]]> (nodeRepos m) ->
    repoFiles m' = repoFiles m ->
    indexed m' /\ is_Some (repoNodes m' !! repoID)).
  { intros m Hrn Hnr Hrf m' Hrn' Hnr' Hrf'. split; [split|].
    - intros r. rewrite Hrn', Hrf', Hrn, Hrf, lookup_insert_is_Some'.
      intros [<-|H]; auto.
    - intros n r. rewrite Hrn', Hnr', Hrn, Hnr, lookup_insert_is_Some'.
      destruct (decide (peer = n)) as [<-|Hne].
      + rewrite lookup_insert_eq.
        change (default [] (Some ?l)) with l.
        rewrite elem_of_app, list_elem_of_singleton.
        intros [H| ->]; [right; eapply Hlisted, H | left; reflexivity].
      + rewrite lookup_insert_ne by exact Hne. intros H. right. eapply Hlisted, H.
    - rewrite Hrn', lookup_insert_eq. eauto. }
  destruct (config.GetNodeConfiguration (cfg (mdl w)) peer); cbn [mdl] in Hrun.
  - destruct (containsRepo repoID (default [] (nodeRepos (mdl w) !! peer))).
    + injection Hrun as <- <-. split; [split|]; assumption.
    + cbn in Hrun.
      match type of Hrun with
      | match ?x with _ => _ end _ = _ => destruct x; [|discriminate Hrun]
      end.
      injection Hrun as <- <-. cbn [mdl].
      eapply (Hshare (mdl w)); reflexivity.
  - cbn in Hrun.
    destruct (containsRepo repoID (default [] (nodeRepos (mdl w) !! peer))).
    + injection Hrun as <- <-. split; [split|]; assumption.
    + cbn in Hrun.
      match type of Hrun with
      | match ?x with _ => _ end _ = _ => destruct x; [|discriminate Hrun]
      end.
      injection Hrun as <- <-. cbn [mdl].
      eapply (Hshare (mdl w)); reflexivity.
Qed.

Lemma introduceNodes_indexed (nodeID : NodeID) (repoID : string) (nodes : list Node) :
  forall (changed b : bool) (w w' : World),
    indexed (mdl w) -> is_Some (repoNodes (mdl w) !! repoID) ->
    introduceNodes nodeID repoID nodes changed w = Some (b, w') ->
    indexed (mdl w') /\ is_Some (repoNodes (mdl w') !! repoID).
Proof.
  induction nodes as [|node nodes IH]; intros changed b w w' Hi Hrepo Hrun;
    cbn [introduceNodes] in Hrun.
  - injection Hrun as <- <-. split; assumption.
  - unfold bind in Hrun.
    destruct (introduceNode nodeID repoID node changed w) as [[c w1]|] eqn:Hstep;
      [|discriminate Hrun].
    destruct (introduceNode_indexed _ _ _ _ _ _ _ Hi Hrepo Hstep) as [Hi1 Hrepo1].
    exact (IH _ _ _ _ Hi1 Hrepo1 Hrun).
Qed.

Lemma safe_introduceRepos (nodeID : NodeID) (repos : list Repository) (changed : bool) :
  safe (introduceRepos nodeID repos changed).
Proof.
  revert changed. induction repos as [|repo repos IH]; intros changed w b w' Hi Hrun;
    cbn [introduceRepos] in Hrun.
  - injection Hrun as <- <-. exact Hi.
  - unfold bind, gets in Hrun.
    destruct (repoNodes (mdl w) !! rID repo) as [l|] eqn:Hrepo.
    + destruct (introduceNodes nodeID (rID repo) (rNodes repo) changed w)
        as [[c w1]|] eqn:Hnodes; [|discriminate Hrun].
      destruct (introduceNodes_indexed _ _ _ _ _ _ _ Hi (mk_is_Some _ _ Hrepo) Hnodes)
        as [Hi1 _].
      exact (IH _ _ _ _ Hi1 Hrun).
    + exact (IH _ _ _ _ Hi Hrun).
Qed.
#[local] Hint Resolve safe_introduceRepos : safe.

Lemma safe_saveCfg : safe saveCfg.
Proof. unfold saveCfg. safe_auto. Qed.
#[local] Hint Resolve safe_saveCfg : safe.

Lemma safe_ClusterConfig (nodeID : NodeID) (cm : ClusterConfigMessage) :
  safe (ClusterConfig nodeID cm).
Proof. unfold ClusterConfig. safe_auto. Qed.

Lemma safe_exec (op : Op) : safe (exec op).
Proof.
  destruct op; cbn [exec].
  - apply safe_AddRepo.
  - apply safe_ClusterConfig.
  - apply safe_Close.
  - apply safe_Index.
  - apply safe_IndexUpdate.
  - apply safe_bind; [apply safe_Request | intros; apply safe_ret].
  - apply safe_setState.
  - apply safe_bind; [apply safe_ScanRepoSub | intros; apply safe_ret].
Qed.

Lemma safe_execAll (ops : list Op) : safe (execAll ops).
Proof.
  induction ops as [|op ops IH]; cbn [execAll].
  - apply safe_ret.
  - apply safe_bind; [apply safe_exec | intros _; exact IH].
Qed.

Lemma indexed_NewModel (c : config.Configuration) : indexed (NewModel c).
Proof.
  split; cbn.
  - intros r H. rewrite lookup_empty in H. destruct H as [? H]. discriminate H.
  - intros n r H. rewrite lookup_empty in H. inversion H.
Qed.

Lemma indexed_shared (m : Model) (repo : string) (nodeID : NodeID) :
  indexed m -> repoSharedWith m repo nodeID = true -> is_Some (repoFiles m !! repo).
Proof.
  intros [Hfiles Hlisted] Hshared. unfold repoSharedWith in Hshared.
  apply containsRepo_elem_of in Hshared. eapply Hfiles, Hlisted, Hshared.
Qed.

(** Whatever operations a fresh model has gone through, every repo a node
    is authorized for has an index set.  So the fatal branch of Index and of
    IndexUpdate ("nonexistant repo") is never taken, and Close, which
    dereferences the index set of each of the node's repos, does not panic. *)
Theorem reachable_never_fatal (c : config.Configuration) (wallClock : nat -> Z)
    (d : string -> string -> DiskEntry) (ops : list Op) (w : World) :
  execAll ops (initWorld c wallClock d) = Some (tt, w) ->
  (forall repo nodeID,
     repoSharedWith (mdl w) repo nodeID = true -> is_Some (repoFiles (mdl w) !! repo))
  /\ forall nodeID repo fs err,
       is_Some (Index nodeID repo fs w)
       /\ is_Some (IndexUpdate nodeID repo fs w)
       /\ is_Some (Close nodeID err w).
Proof.
  intros Hrun.
  assert (Hi : indexed (mdl w)).
  { eapply (safe_execAll ops); [|exact Hrun]. apply indexed_NewModel. }
  split; [intros repo nodeID; apply indexed_shared, Hi|].
  intros nodeID repo fs err. split; [|split].
  - unfold Index, bind, gets.
    destruct (repoSharedWith (mdl w) repo nodeID) eqn:Hshared; cbn [negb].
    + destruct (indexed_shared _ _ _ Hi Hshared) as [s ->].
      destruct (dropIgnored _ 0 fs (lamportDefault w)) as [fs' clock']. cbn. eauto.
    + cbn. eauto.
  - unfold IndexUpdate, bind, gets.
    destruct (repoSharedWith (mdl w) repo nodeID) eqn:Hshared; cbn [negb].
    + destruct (indexed_shared _ _ _ Hi Hshared) as [s ->].
      destruct (dropIgnored _ 0 fs (lamportDefault w)) as [fs' clock']. cbn. eauto.
    + cbn. eauto.
  - unfold Close. unfold bind at 1. cbn [Log modify].
    unfold bind at 1, gets at 1. cbn [mdl]. unfold bind at 1.
    match goal with
    | |- context [forEach ?l _ ?x] =>
        destruct (close_loop_spec nodeID l x) as (rf' & -> & _)
    end.
    + intros r Hr. cbn [mdl]. eapply indexed_shared; [exact Hi|].
      apply containsRepo_elem_of. exact Hr.
    + cbn. eauto.
Qed.

Lemma reachable_never_fatal_witness :
  execAll [OpAddRepo photosCfg; OpIndex nodeN "photos" [b_jpg]]
      (initWorld cfg0 wall0 photosDisk) = Some (tt, world1)
  /\ (forall repo nodeID,
        repoSharedWith (mdl world1) repo nodeID = true
        -> is_Some (repoFiles (mdl world1) !! repo))
  /\ forall nodeID repo fs err,
       is_Some (Index nodeID repo fs world1)
       /\ is_Some (IndexUpdate nodeID repo fs world1)
       /\ is_Some (Close nodeID err world1).
Proof.
  assert (Hrun : execAll [OpAddRepo photosCfg; OpIndex nodeN "photos" [b_jpg]]
                   (initWorld cfg0 wall0 photosDisk) = Some (tt, world1))
    by (vm_compute; reflexivity).
  split; [exact Hrun|].
  exact (reachable_never_fatal cfg0 wall0 photosDisk _ world1 Hrun).
Defined.

(** ** The announcement to a peer *)

(** What the announcement says of one node: the node is trusted, and the
    introducer flag, as the receiver reads it, is the one of the node's
    configuration entry. *)
Definition announcedAs (c : config.Configuration) (nd : Node) : Prop :=
  exists nodeCfg,
    config.GetNodeConfiguration c (nID nd) = Some nodeCfg
    /\ negb (Z.land (nFlags nd) FlagShareTrusted =? 0) = true
    /\ negb (Z.land (nFlags nd) FlagIntroducer =? 0) = config.Introducer nodeCfg.

Lemma announceNodes_spec (c : config.Configuration) (nodes : list NodeID) :
  forall crNodes : list Node,
    match announceNodes c nodes crNodes with
    | Some l => exists l', l = crNodes ++ l' /\ nID <$> l' = nodes /\ Forall (announcedAs c) l'
    | None => exists nd, nd ∈ nodes /\ config.GetNodeConfiguration c nd = None
    end.
Proof.
  induction nodes as [|node nodes IH]; intros crNodes; cbn [announceNodes].
  - exists []. rewrite app_nil_r. repeat split. constructor.
  - destruct (config.GetNodeConfiguration c node) as [nodeCfg|] eqn:Hcfg.
    + specialize (IH (crNodes ++
        [mkNode node (if config.Introducer nodeCfg
                      then Z.lor FlagShareTrusted FlagIntroducer else FlagShareTrusted)])).
      cbv zeta.
      destruct (announceNodes c nodes _) as [l|].
      * destruct IH as (l' & -> & Hids & Hall).
        eexists (_ :: l'). rewrite <- app_assoc. split; [reflexivity|].
        split; [rewrite fmap_cons, Hids; reflexivity|].
        constructor; [|exact Hall].
        exists nodeCfg. cbn [nID nFlags]. split; [exact Hcfg|].
        destruct (config.Introducer nodeCfg); split; reflexivity.
      * destruct IH as (nd & Hin & Hnone). exists nd. split; [right; exact Hin | exact Hnone].
    + exists node. split; [left | exact Hcfg].
Qed.

Lemma announceRepos_spec (m : Model) (repos : list string) :
  forall cmRepos : list Repository,
    match announceRepos m repos cmRepos with
    | Some l =>
        exists l', l = cmRepos ++ l' /\ rID <$> l' = repos
          /\ Forall (fun r => nID <$> rNodes r = default [] (repoNodes m !! rID r)
                              /\ Forall (announcedAs (cfg m)) (rNodes r)) l'
    | None =>
        exists repo nd, repo ∈ repos /\ nd ∈ default [] (repoNodes m !! repo)
          /\ config.GetNodeConfiguration (cfg m) nd = None
    end.
Proof.
  induction repos as [|repo repos IH]; intros cmRepos; cbn [announceRepos].
  - exists []. rewrite app_nil_r. repeat split. constructor.
  - pose proof (announceNodes_spec (cfg m) (default [] (repoNodes m !! repo)) []) as Hnodes.
    destruct (announceNodes (cfg m) (default [] (repoNodes m !! repo)) []) as [crNodes|].
    + destruct Hnodes as (l0 & -> & Hids & Hall). cbn [app].
      specialize (IH (cmRepos ++ [mkRepository repo l0])).
      destruct (announceRepos m repos _) as [l|].
      * destruct IH as (l' & -> & Hrepos & Hrest).
        eexists (_ :: l'). rewrite <- app_assoc. split; [reflexivity|].
        split; [rewrite fmap_cons, Hrepos; reflexivity|].
        constructor; [|exact Hrest]. cbn [rID rNodes]. split; assumption.
      * destruct IH as (r & nd & Hr & Hnd & Hnone).
        exists r, nd. split; [right; exact Hr | split; assumption].
    + destruct Hnodes as (nd & Hnd & Hnone).
      exists repo, nd. split; [left | split; assumption].
Qed.

(** The announcement for a peer lists the repos the peer is listed for, in
    that order and no other; each with the nodes of its sharing list, every
    one marked trusted and marked introducer exactly when its configuration
    entry says so.  clusterConfig panics exactly when one of these nodes has
    no configuration entry. *)
Theorem clusterConfig_announces (clientName clientVersion nodeName : string) (m : Model)
    (node : NodeID) :
  match clusterConfig clientName clientVersion nodeName m node with
  | Some cm =>
      ClientName cm = clientName /\ ClientVersion cm = clientVersion
      /\ GetOption cm "name" = nodeName
      /\ rID <$> cmRepositories cm = default [] (nodeRepos m !! node)
      /\ Forall (fun r => nID <$> rNodes r = default [] (repoNodes m !! rID r)
                          /\ Forall (announcedAs (cfg m)) (rNodes r)) (cmRepositories cm)
  | None =>
      exists repo nd,
        repoSharedWith m repo node = true
        /\ nd ∈ default [] (repoNodes m !! repo)
        /\ config.GetNodeConfiguration (cfg m) nd = None
  end.
Proof.
  unfold clusterConfig.
  pose proof (announceRepos_spec m (default [] (nodeRepos m !! node)) []) as Hrepos.
  destruct (announceRepos m (default [] (nodeRepos m !! node)) []) as [l|].
  - destruct Hrepos as (l' & -> & Hids & Hall). cbn [app].
    cbn [ClientName ClientVersion cmRepositories].
    repeat split; try assumption.
  - destruct Hrepos as (repo & nd & Hrepo & Hnd & Hnone).
    exists repo, nd. split; [|split; assumption].
    apply containsRepo_elem_of. exact Hrepo.
Qed.

(** ** What State reports *)

(** After setState, State reports the new state.  The time it reports is
    the reading of the clock taken at this call if the state changed, and
    the time reported before if the call repeated the current state; the
    report on every other repo is as before. *)
Theorem State_after_setState (repo : string) (s : repoState) (w : World) :
  exists w', setState repo s w = Some (tt, w')
    /\ fst (State (mdl w') repo) = repoState_String s
    /\ snd (State (mdl w') repo)
       = (if bool_decide (s = currentState (mdl w) repo)
          then snd (State (mdl w) repo)
          else Some (wall w (timeReads w)))
    /\ forall other, other <> repo -> State (mdl w') other = State (mdl w) other.
Proof.
  unfold setState, bind, gets, currentState, State.
  destruct (decide (s = default RepoIdle (repoStates (mdl w) !! repo))) as [Heq|Hne].
  - rewrite (bool_decide_eq_false_2 (s <> _)) by (intros H; apply H, Heq).
    rewrite (bool_decide_eq_true_2 _ Heq).
    exists w. cbn [fst snd]. rewrite <- Heq. repeat split.
  - rewrite (bool_decide_eq_true_2 (s <> _) Hne).
    rewrite (bool_decide_eq_false_2 _ Hne).
    destruct (repoStateChanged (mdl w) !! repo);
      (eexists; split; [reflexivity|]); cbn;
      rewrite !lookup_insert_eq; (split; [reflexivity|]); (split; [reflexivity|]);
      intros other Hother; rewrite !lookup_insert_ne by congruence; reflexivity.
Qed.

(** ** Override *)

Lemma nameLt_trans (a b c : string) : nameLt a b -> nameLt b c -> nameLt a c.
Proof.
  unfold nameLt. revert b c. induction a as [|x a IH]; intros [|y b] [|z c];
    cbn [String.compare]; try discriminate; try reflexivity.
  unfold Ascii.compare. intros Hab Hbc.
  destruct (N_of_ascii x ?= N_of_ascii y)%N eqn:Hxy; try discriminate Hab;
    destruct (N_of_ascii y ?= N_of_ascii z)%N eqn:Hyz; try discriminate Hbc.
  - apply N.compare_eq_iff in Hxy, Hyz. rewrite Hxy, Hyz, N.compare_refl.
    exact (IH _ _ Hab Hbc).
  - apply N.compare_eq_iff in Hxy. rewrite Hxy, Hyz. reflexivity.
  - apply N.compare_eq_iff in Hyz. rewrite <- Hyz, Hxy. reflexivity.
  - rewrite (N.lt_trans _ _ _ Hxy Hyz). reflexivity.
Qed.

(** Candidates of the global view in strictly increasing order of name. *)
Definition sortedCandidates (l : list (NodeID * FileInfo)) : Prop :=
  StronglySorted (fun a b => nameLt (Name (snd a)) (Name (snd b))) l.

Lemma offer_elem_of (c x : NodeID * FileInfo) (l : list (NodeID * FileInfo)) :
  x ∈ files.offer c l -> x = c \/ x ∈ l.
Proof.
  induction l as [|g l IH]; cbn [files.offer]; intros Hx.
  - apply list_elem_of_singleton in Hx. left. exact Hx.
  - destruct (String.compare (Name (snd c)) (Name (snd g))).
    + apply elem_of_cons in Hx as [->|Hx].
      * destruct (files.beats c g); [left; reflexivity | right; left].
      * right. right. exact Hx.
    + apply elem_of_cons in Hx as [->|Hx]; [left; reflexivity | right; exact Hx].
    + apply elem_of_cons in Hx as [->|Hx]; [right; left|].
      destruct (IH Hx) as [->|H]; [left; reflexivity | right; right; exact H].
Qed.

Lemma offer_sorted (c : NodeID * FileInfo) (l : list (NodeID * FileInfo)) :
  sortedCandidates l -> sortedCandidates (files.offer c l).
Proof.
  unfold sortedCandidates. induction 1 as [|g l Hsorted IH Hall]; cbn [files.offer].
  - repeat constructor.
  - rewrite Forall_forall in Hall.
    destruct (String.compare (Name (snd c)) (Name (snd g))) eqn:Hcmp.
    + apply String.compare_eq_iff in Hcmp.
      constructor; [exact Hsorted|]. apply Forall_forall. intros x Hx.
      destruct (files.beats c g); [rewrite Hcmp|]; exact (Hall x Hx).
    + constructor; [constructor; [exact Hsorted | apply Forall_forall; exact Hall]|].
      apply Forall_forall. intros x Hx. apply elem_of_cons in Hx as [->|Hx]; [exact Hcmp|].
      exact (nameLt_trans _ _ _ Hcmp (Hall x Hx)).
    + constructor; [exact IH|]. apply Forall_forall. intros x Hx.
      apply offer_elem_of in Hx as [->|Hx]; [|exact (Hall x Hx)].
      unfold nameLt. rewrite String.compare_antisym, Hcmp. reflexivity.
Qed.

Lemma sorted_filter {A} (R : A -> A -> Prop) (P : A -> Prop) `{forall x, Decision (P x)}
    (l : list A) :
  StronglySorted R l -> StronglySorted R (filter P l).
Proof.
  induction 1 as [|x l Hsorted IH Hall]; [constructor|].
  rewrite filter_cons. destruct (decide (P x)); [|exact IH].
  constructor; [exact IH|]. rewrite Forall_forall in Hall. apply Forall_forall.
  intros y Hy. apply list_elem_of_filter in Hy as [_ Hy]. exact (Hall y Hy).
Qed.

(** The global view, and with it every need view, lists each name once, in
    increasing order. *)
Lemma globalView_sorted (s : files.Set_) : sortedByName (files.globalView s).
Proof.
  unfold files.globalView, sortedByName.
  apply (StronglySorted_fmap snd (fun a b => nameLt (Name (snd a)) (Name (snd b)))).
  - intros a b Hab. exact Hab.
  - induction (flat_map _ _) as [|c l IH]; cbn [foldr]; [constructor|].
    apply offer_sorted, IH.
Qed.

Lemma needView_sorted (s : files.Set_) (node : NodeID) :
  sortedByName (files.needView s node).
Proof. unfold files.needView. apply sorted_filter, globalView_sorted. Qed.

(** What Override starts from for a needed entry: the local entry of the
    name, or the needed entry as deleted where the replica has none. *)
Definition overrideBase (fs : files.Set_) (need : FileInfo) : FileInfo :=
  let have := files.Get fs LocalNodeID (Name need) in
  if negb (String.eqb (Name have) (Name need)) then
    mkFile (Name need) (Z.lor (Flags need) FlagDeleted) (Modified need) (Version need)
      (LocalVersion need) []
  else have.

(** The entry Override writes, and the clock it leaves. *)
Definition overrideEntry (fs : files.Set_) (clock : Z) (need : FileInfo) : FileInfo * Z :=
  let base := overrideBase fs need in
  let v := lamport.Tick clock (Version base) in
  (mkFile (Name base) (Flags base) (Modified base) v 0 (Blocks base), v).

Fixpoint overrideAll (fs : files.Set_) (l : list FileInfo) (clock : Z) : list FileInfo * Z :=
  match l with
  | [] => ([], clock)
  | need :: l' =>
      let '(e, c) := overrideEntry fs clock need in
      let '(es, c') := overrideAll fs l' c in
      (e :: es, c')
  end.

Lemma overrideBase_name (fs : files.Set_) (need : FileInfo) :
  Name (overrideBase fs need) = Name need.
Proof.
  unfold overrideBase. cbv zeta.
  destruct (String.eqb (Name (files.Get fs LocalNodeID (Name need))) (Name need)) eqn:Heq;
    cbn [negb]; [apply String.eqb_eq, Heq | reflexivity].
Qed.

Lemma overrideAll_app (fs : files.Set_) (l1 l2 : list FileInfo) (clock : Z) :
  overrideAll fs (l1 ++ l2) clock =
    let '(es1, c1) := overrideAll fs l1 clock in
    let '(es2, c2) := overrideAll fs l2 c1 in
    (es1 ++ es2, c2).
Proof.
  revert clock. induction l1 as [|g l1 IH]; intros clock; cbn [app overrideAll].
  - destruct (overrideAll fs l2 clock). reflexivity.
  - destruct (overrideEntry fs clock g) as [e c]. rewrite IH.
    destruct (overrideAll fs l1 c) as [es1 c1].
    destruct (overrideAll fs l2 c1) as [es2 c2]. reflexivity.
Qed.

(** Every entry written carries the name of a needed entry. *)
Lemma overrideAll_names (fs : files.Set_) (l : list FileInfo) :
  forall (clock : Z) (e : FileInfo),
    e ∈ fst (overrideAll fs l clock) -> exists g, g ∈ l /\ Name g = Name e.
Proof.
  induction l as [|g l IH]; intros clock e He; cbn [overrideAll] in He.
  - inversion He.
  - destruct (overrideEntry fs clock g) as [e0 c] eqn:Hentry.
    destruct (overrideAll fs l c) as [es c'] eqn:Hrest. cbn [fst] in He.
    apply elem_of_cons in He as [->|He].
    + exists g. split; [left|]. unfold overrideEntry in Hentry. injection Hentry as <- _.
      cbn [Name]. symmetry. apply overrideBase_name.
    + destruct (IH c e) as (g' & Hg' & Hname); [rewrite Hrest; exact He|].
      exists g'. split; [right; exact Hg' | exact Hname].
Qed.

(** Committing a full batch before going on changes nothing that is pending. *)
Lemma flush_at (size : nat) (repo : string) (batch : list FileInfo) (w : World)
    (cur : files.Set_) :
  repoFiles (mdl w) !! repo = Some cur ->
  exists batch1 w1 cur1,
    (if (length batch =? size)%nat
     then run updateLocalSet repo batch; ret []
     else ret batch) w = Some (batch1, w1)
    /\ repoFiles (mdl w1) !! repo = Some cur1
    /\ pending cur1 batch1 = pending cur batch
    /\ (cur1 = cur \/ files.have cur1 LocalNodeID = fst (pending cur batch))
    /\ lamportDefault w1 = lamportDefault w.
Proof.
  intros Hcur. destruct (length batch =? size)%nat.
  - destruct (updateLocalSet_spec repo batch w cur Hcur) as (w' & Hrun & Hcur' & Hclock & _).
    exists [], w', (files.Update cur LocalNodeID batch).
    unfold bind. rewrite Hrun. split; [reflexivity|]. split; [exact Hcur'|].
    split; [apply pending_Update|]. split; [|exact Hclock].
    right. rewrite <- pending_Update. reflexivity.
  - exists batch, w, cur. repeat split; auto.
Qed.

(** The entries [written] so far, committed or pending, account for the
    replica: a name none of them carries is looked up as at the start. *)
Definition untouched (fs cur : files.Set_) (written : list FileInfo) : Prop :=
  forall name, (forall nf, nf ∈ written -> Name nf <> name) ->
    files.lookupName name (files.have cur LocalNodeID)
    = files.lookupName name (files.have fs LocalNodeID).

Lemma overrideVisit_spec (repo : string) (fs : files.Set_) (written batch : list FileInfo)
    (need : FileInfo) (w : World) (cur : files.Set_) :
  repoFiles (mdl w) !! repo = Some cur ->
  pending cur batch = files.insertAll written (pending fs []) ->
  untouched fs cur written ->
  (forall nf, nf ∈ written -> Name nf <> Name need) ->
  exists batch' w' cur',
    overrideVisit repo batch need w = Some ((batch', true), w')
    /\ repoFiles (mdl w') !! repo = Some cur'
    /\ pending cur' batch'
       = files.insertAll (written ++ [fst (overrideEntry fs (lamportDefault w) need)])
           (pending fs [])
    /\ untouched fs cur' (written ++ [fst (overrideEntry fs (lamportDefault w) need)])
    /\ lamportDefault w' = snd (overrideEntry fs (lamportDefault w) need).
Proof.
  intros Hcur Hpend Hun Hfresh. unfold overrideVisit.
  destruct (flush_at indexBatchSize repo batch w cur Hcur)
    as (batch1 & w1 & cur1 & Hflush & Hcur1 & Hpend1 & Hwhich & Hclock1).
  unfold bind at 1. rewrite Hflush.
  unfold bind at 1, gets at 1. rewrite Hcur1.
  change (default files.NewSet (Some cur1)) with cur1.
  assert (Hun1 : untouched fs cur1 written).
  { destruct Hwhich as [->|Hhave]; [exact Hun|].
    intros name Hname. rewrite Hhave, Hpend.
    rewrite lookupName_insertAll_other by exact Hname. reflexivity. }
  assert (Hget : files.Get cur1 LocalNodeID (Name need) = files.Get fs LocalNodeID (Name need)).
  { unfold files.Get. rewrite (Hun1 _ Hfresh). reflexivity. }
  rewrite Hget. fold (overrideBase fs need).
  unfold bind, Tick, ret.
  eexists _, _, cur1. split; [reflexivity|]. cbn [mdl lamportDefault].
  split; [exact Hcur1|]. rewrite Hclock1.
  split; [|split; [|reflexivity]].
  - rewrite pending_snoc, Hpend1, Hpend, insertAll_app. reflexivity.
  - intros name Hname. apply Hun1. intros nf Hnf. apply Hname, elem_of_app. left. exact Hnf.
Qed.

Lemma overrideTraverse_spec (repo : string) (fs : files.Set_) (l : list FileInfo) :
  forall (written batch : list FileInfo) (w : World) (cur : files.Set_),
    repoFiles (mdl w) !! repo = Some cur ->
    pending cur batch = files.insertAll written (pending fs []) ->
    untouched fs cur written ->
    (forall nf g, nf ∈ written -> g ∈ l -> Name nf <> Name g) ->
    sortedByName l ->
    exists batch' w' cur',
      traverseM (overrideVisit repo) batch l w = Some (batch', w')
      /\ repoFiles (mdl w') !! repo = Some cur'
      /\ pending cur' batch'
         = files.insertAll (written ++ fst (overrideAll fs l (lamportDefault w)))
             (pending fs [])
      /\ lamportDefault w' = snd (overrideAll fs l (lamportDefault w)).
Proof.
  induction l as [|g l IH]; intros written batch w cur Hcur Hpend Hun Hfresh Hsorted;
    cbn [traverseM overrideAll].
  - exists batch, w, cur. cbn [fst snd]. rewrite app_nil_r. auto.
  - destruct (overrideVisit_spec repo fs written batch g w cur Hcur Hpend Hun)
      as (batch1 & w1 & cur1 & Hvisit & Hcur1 & Hpend1 & Hun1 & Hclock1).
    { intros nf Hnf. apply (Hfresh nf g Hnf). left. }
    unfold bind. rewrite Hvisit. cbn [fst snd].
    destruct (overrideEntry fs (lamportDefault w) g) as [e c] eqn:Hentry.
    cbn [fst snd] in Hpend1, Hun1, Hclock1.
    apply StronglySorted_cons in Hsorted as [Hall Hsorted].
    rewrite Forall_forall in Hall.
    destruct (IH (written ++ [e]) batch1 w1 cur1 Hcur1 Hpend1 Hun1)
      as (batch' & w' & cur' & Hrun & Hcur' & Hpend' & Hclock'); [|exact Hsorted|].
    { intros nf g' Hnf Hg'. apply elem_of_app in Hnf as [Hnf|Hnf].
      - apply (Hfresh nf g' Hnf). right. exact Hg'.
      - apply list_elem_of_singleton in Hnf as ->.
        unfold overrideEntry in Hentry. injection Hentry as <- _. cbn [Name].
        rewrite overrideBase_name. intros Heq.
        pose proof (nameLt_neq _ _ (Hall g' Hg')) as Hne.
        rewrite Heq, String.eqb_refl in Hne. discriminate Hne. }
    rewrite Hclock1 in Hpend', Hclock'.
    destruct (overrideAll fs l c) as [es c'] eqn:Hrest. cbn [fst snd] in *.
    exists batch', w', cur'. split; [exact Hrun|]. split; [exact Hcur'|].
    split; [|exact Hclock']. rewrite Hpend', <- app_assoc. reflexivity.
Qed.

Lemma setState_run (repo : string) (s : repoState) (w : World) :
  exists w', setState repo s w = Some (tt, w')
    /\ currentState (mdl w') repo = s
    /\ repoFiles (mdl w') = repoFiles (mdl w)
    /\ lamportDefault w' = lamportDefault w.
Proof.
  unfold setState, bind, gets, currentState.
  destruct (bool_decide (s <> default RepoIdle (repoStates (mdl w) !! repo))) eqn:Hne.
  - destruct (repoStateChanged (mdl w) !! repo);
      (eexists; split; [reflexivity|]); cbn; rewrite lookup_insert_eq; repeat split.
  - apply bool_decide_eq_false in Hne. exists w. split; [reflexivity|]. split; [|split; reflexivity].
    destruct (decide (default RepoIdle (repoStates (mdl w) !! repo) = s)) as [H|H];
      [exact H | exfalso; apply Hne; congruence].
Qed.

(** Override as one step: the local replica ends as one Update with the
    entries written for the need view would leave it, the clock has been
    ticked once per needed entry, and the repo is Idle. *)
Lemma Override_spec (repo : string) (w : World) (fs : files.Set_) :
  repoFiles (mdl w) !! repo = Some fs ->
  exists w' fs',
    Override repo w = Some (tt, w')
    /\ repoFiles (mdl w') !! repo = Some fs'
    /\ (files.have fs' LocalNodeID, files.LocalVersion fs' LocalNodeID)
       = files.insertAll
           (fst (overrideAll fs (files.needView fs LocalNodeID) (lamportDefault w)))
           (files.have fs LocalNodeID, files.LocalVersion fs LocalNodeID)
    /\ lamportDefault w'
       = snd (overrideAll fs (files.needView fs LocalNodeID) (lamportDefault w))
    /\ currentState (mdl w') repo = RepoIdle.
Proof.
  intros Hfs. unfold Override. unfold bind at 1, gets at 1. rewrite Hfs.
  destruct (setState_run repo RepoScanning w) as (w1 & Hset & _ & Hrf1 & Hclock1).
  unfold bind at 1. rewrite Hset.
  unfold bind at 1, gets at 1. rewrite Hrf1, Hfs.
  change (default files.NewSet (Some fs)) with fs.
  destruct (overrideTraverse_spec repo fs (files.needView fs LocalNodeID) [] [] w1 fs)
    as (batch & w2 & cur & Hrun & Hcur & Hpend & Hclock2).
  { rewrite Hrf1. exact Hfs. }
  { reflexivity. }
  { intros name _. reflexivity. }
  { intros nf g Hnf. inversion Hnf. }
  { apply needView_sorted. }
  unfold bind at 1. rewrite Hrun. cbn [app] in Hpend. rewrite Hclock1 in Hpend, Hclock2.
  assert (Hcommit : exists w3 fs',
    (if (0 <? length batch)%nat then updateLocalSet repo batch else ret tt) w2 = Some (tt, w3)
    /\ repoFiles (mdl w3) !! repo = Some fs'
    /\ pending fs' [] = pending cur batch
    /\ lamportDefault w3 = lamportDefault w2).
  { destruct batch as [|f batch]; cbn [length Nat.ltb Nat.leb].
    - exists w2, cur. auto.
    - destruct (updateLocalSet_spec repo (f :: batch) w2 cur Hcur)
        as (w3 & Hupd & Hcur3 & Hclock3 & _).
      exists w3, (files.Update cur LocalNodeID (f :: batch)).
      split; [exact Hupd|]. split; [exact Hcur3|]. split; [apply pending_Update | exact Hclock3]. }
  destruct Hcommit as (w3 & fs' & Hupd & Hfs' & Hpend3 & Hclock3).
  unfold bind at 1. rewrite Hupd.
  destruct (setState_run repo RepoIdle w3) as (w4 & Hidle & Hstate & Hrf4 & Hclock4).
  exists w4, fs'. split; [exact Hidle|]. rewrite Hrf4, Hclock4, Hclock3, Hclock2.
  split; [exact Hfs'|]. split; [|split; [reflexivity | exact Hstate]].
  change (pending fs' []
          = files.insertAll
              (fst (overrideAll fs (files.needView fs LocalNodeID) (lamportDefault w)))
              (pending fs [])).
  rewrite Hpend3. exact Hpend.
Qed.

(** The clock when Override reaches an entry: ticked once for each needed
    entry [before] it, with the version Override started from there. *)
Definition clockAt (fs : files.Set_) (before : list FileInfo) (clock : Z) : Z :=
  fold_left lamport.Tick (Version <$> (overrideBase fs <$> before)) clock.

Lemma overrideAll_clock (fs : files.Set_) (l : list FileInfo) (clock : Z) :
  snd (overrideAll fs l clock) = clockAt fs l clock.
Proof.
  unfold clockAt. revert clock. induction l as [|g l IH]; intros clock;
    cbn [overrideAll]; [reflexivity|].
  unfold overrideEntry. cbv zeta.
  destruct (overrideAll fs l _) as [es c'] eqn:Hrest. cbn [snd].
  rewrite !fmap_cons. cbn [fold_left]. rewrite <- IH, Hrest. reflexivity.
Qed.

Lemma lookupName_name (name : string) (l : list FileInfo) (f : FileInfo) :
  files.lookupName name l = Some f -> Name f = name.
Proof.
  induction l as [|g l IH]; cbn [files.lookupName]; [discriminate|].
  destruct (String.eqb (Name g) name) eqn:Hg; [|exact IH].
  intros H. injection H as <-. apply String.eqb_eq, Hg.
Qed.

(** What a lookup finds after Override for the needed entry [g]. *)
Lemma Override_entry (repo : string) (w : World) (fs : files.Set_)
    (before : list FileInfo) (g : FileInfo) (rest : list FileInfo) :
  repoFiles (mdl w) !! repo = Some fs ->
  files.needView fs LocalNodeID = before ++ g :: rest ->
  exists w' fs' lv,
    Override repo w = Some (tt, w')
    /\ repoFiles (mdl w') !! repo = Some fs'
    /\ files.Get fs' LocalNodeID (Name g)
       = files.withLocalVersion lv
           (fst (overrideEntry fs (clockAt fs before (lamportDefault w)) g)).
Proof.
  intros Hfs Hsplit.
  destruct (Override_spec repo w fs Hfs) as (w' & fs' & Hrun & Hfs' & Hhave & _).
  pose proof (needView_sorted fs LocalNodeID) as Hsorted.
  rewrite Hsplit in Hhave, Hsorted.
  rewrite overrideAll_app in Hhave.
  pose proof (overrideAll_clock fs before (lamportDefault w)) as Hclock.
  destruct (overrideAll fs before (lamportDefault w)) as [esb cb]. cbn [snd] in Hclock.
  subst cb. cbn [overrideAll] in Hhave.
  destruct (overrideEntry fs (clockAt fs before (lamportDefault w)) g) as [e c] eqn:Hentry.
  destruct (overrideAll fs rest c) as [esa ca] eqn:Hrest.
  cbn [fst] in Hhave |- *.
  change (e :: esa) with ([e] ++ esa) in Hhave. rewrite !insertAll_app in Hhave.
  assert (Hname : Name e = Name g).
  { unfold overrideEntry in Hentry. injection Hentry as <- _. apply overrideBase_name. }
  exists w', fs'. eexists. split; [exact Hrun|]. split; [exact Hfs'|].
  unfold files.Get. apply (f_equal fst) in Hhave. cbn [fst] in Hhave. rewrite Hhave.
  rewrite lookupName_insertAll_other.
  - cbn [files.insertAll fst]. rewrite lookupName_upsert.
    cbn [files.withLocalVersion Name]. rewrite Hname, String.eqb_refl. reflexivity.
  - intros nf Hnf Heq.
    assert (Hnf' : nf ∈ fst (overrideAll fs rest c)) by (rewrite Hrest; exact Hnf).
    apply overrideAll_names in Hnf' as (x & Hx & Hxname).
    assert (Hlt : nameLt (Name g) (Name x)).
    { apply StronglySorted_app_1_r, StronglySorted_cons in Hsorted as [Hall _].
      rewrite Forall_forall in Hall. exact (Hall x Hx). }
    apply nameLt_neq in Hlt. rewrite Hxname, Heq, String.eqb_refl in Hlt. discriminate Hlt.
Qed.

(** Override writes a needed file the local replica does not have as
    deleted: afterwards the replica holds the needed entry under its name
    with the Deleted flag added, no blocks, and the version the lamport
    clock gives when ticked with the needed version. *)
Theorem Override_deletes_missing (repo : string) (w : World) (fs : files.Set_)
    (before : list FileInfo) (g : FileInfo) (rest : list FileInfo) :
  repoFiles (mdl w) !! repo = Some fs ->
  files.needView fs LocalNodeID = before ++ g :: rest ->
  files.lookupName (Name g) (files.have fs LocalNodeID) = None ->
  Name g <> ""%string ->
  exists w' fs',
    Override repo w = Some (tt, w')
    /\ repoFiles (mdl w') !! repo = Some fs'
    /\ let e := files.Get fs' LocalNodeID (Name g) in
       Name e = Name g
       /\ Flags e = Z.lor (Flags g) FlagDeleted
       /\ IsDeleted (Flags e) = true
       /\ Modified e = Modified g
       /\ Blocks e = []
       /\ Version e = lamport.Tick (clockAt fs before (lamportDefault w)) (Version g).
Proof.
  intros Hfs Hsplit Hmissing Hname.
  destruct (Override_entry repo w fs before g rest Hfs Hsplit)
    as (w' & fs' & lv & Hrun & Hfs' & Hget).
  exists w', fs'. split; [exact Hrun|]. split; [exact Hfs'|].
  cbv zeta. rewrite Hget. unfold overrideEntry, overrideBase. cbv zeta.
  rewrite (Get_absent _ _ _ Hmissing).
  assert (Hne : String.eqb (Name zeroFileInfo) (Name g) = false).
  { apply String.eqb_neq. intros Heq. apply Hname. rewrite <- Heq. reflexivity. }
  rewrite Hne. cbn [negb fst files.withLocalVersion Name Flags Modified Blocks Version].
  repeat split. apply IsDeleted_set.
Qed.

(** Override keeps a needed file the local replica has: afterwards the
    replica holds its own entry, flags, modification time and blocks as
    before, under the version the lamport clock gives when ticked with the
    version of that entry. *)
Theorem Override_reasserts_own (repo : string) (w : World) (fs : files.Set_)
    (before : list FileInfo) (g : FileInfo) (rest : list FileInfo) (h : FileInfo) :
  repoFiles (mdl w) !! repo = Some fs ->
  files.needView fs LocalNodeID = before ++ g :: rest ->
  files.lookupName (Name g) (files.have fs LocalNodeID) = Some h ->
  exists w' fs',
    Override repo w = Some (tt, w')
    /\ repoFiles (mdl w') !! repo = Some fs'
    /\ let e := files.Get fs' LocalNodeID (Name g) in
       Name e = Name g
       /\ Flags e = Flags h
       /\ Modified e = Modified h
       /\ Blocks e = Blocks h
       /\ Version e = lamport.Tick (clockAt fs before (lamportDefault w)) (Version h).
Proof.
  intros Hfs Hsplit Hhave.
  destruct (Override_entry repo w fs before g rest Hfs Hsplit)
    as (w' & fs' & lv & Hrun & Hfs' & Hget).
  exists w', fs'. split; [exact Hrun|]. split; [exact Hfs'|].
  cbv zeta. rewrite Hget. unfold overrideEntry, overrideBase. cbv zeta.
  rewrite (Get_present _ _ _ _ Hhave).
  pose proof (lookupName_name _ _ _ Hhave) as Hname.
  rewrite Hname, String.eqb_refl.
  cbn [negb fst files.withLocalVersion Name Flags Modified Blocks Version].
  repeat split. exact Hname.
Qed.

(** Override touches the local entries of the needed names only: a name
    that is not needed is looked up as before. *)
Theorem Override_keeps_others (repo : string) (w : World) (fs : files.Set_) :
  repoFiles (mdl w) !! repo = Some fs ->
  exists w' fs',
    Override repo w = Some (tt, w')
    /\ repoFiles (mdl w') !! repo = Some fs'
    /\ forall name,
         (forall g, g ∈ files.needView fs LocalNodeID -> Name g <> name) ->
         files.lookupName name (files.have fs' LocalNodeID)
         = files.lookupName name (files.have fs LocalNodeID).
Proof.
  intros Hfs.
  destruct (Override_spec repo w fs Hfs) as (w' & fs' & Hrun & Hfs' & Hhave & _).
  exists w', fs'. split; [exact Hrun|]. split; [exact Hfs'|].
  intros name Hother. apply (f_equal fst) in Hhave. cbn [fst] in Hhave. rewrite Hhave.
  rewrite lookupName_insertAll_other; [reflexivity|].
  intros nf Hnf Heq. apply overrideAll_names in Hnf as (g & Hg & Hname).
  apply (Hother g Hg). congruence.
Qed.

Lemma Tick_exact (c v B : Z) :
  0 <= c <= B -> v <= B -> B + 1 < 2 ^ 64 -> lamport.Tick c v = Z.max c v + 1.
Proof.
  intros Hc Hv HB. unfold lamport.Tick, uint64. apply Z.mod_small. lia.
Qed.

Lemma clockAt_bounds (fs : files.Set_) (before : list FileInfo) :
  forall clock B : Z,
    0 <= clock <= B ->
    (forall x, x ∈ before -> Version (overrideBase fs x) <= B) ->
    B + Z.of_nat (length before) < 2 ^ 64 ->
    clock <= clockAt fs before clock <= B + Z.of_nat (length before).
Proof.
  unfold clockAt. induction before as [|x before IH]; intros clock B Hc Hv HB.
  - cbn. lia.
  - rewrite !fmap_cons. cbn [fold_left]. cbn [length] in HB.
    assert (Hx : Version (overrideBase fs x) <= B) by (apply Hv; left).
    rewrite (Tick_exact clock _ B Hc Hx) by lia.
    specialize (IH (Z.max clock (Version (overrideBase fs x)) + 1) (B + 1)).
    cbn [length]. destruct IH as [Hlo Hhi]; [lia| |lia|lia].
    intros y Hy. specialize (Hv y). 
    assert (Version (overrideBase fs y) <= B) by (apply Hv; right; exact Hy). lia.
Qed.

(** With the lamport clock at or beyond the version of a needed entry,
    Override leaves the local replica with a greater version for that name
    than the needed one, so that the local entry now wins.  (Versions and
    clock are assumed far enough from the end of the 64-bit range for as
    many ticks as there are needed entries.) *)
Theorem Override_outranks (repo : string) (w : World) (fs : files.Set_)
    (before : list FileInfo) (g : FileInfo) (rest : list FileInfo) (B : Z) :
  repoFiles (mdl w) !! repo = Some fs ->
  files.needView fs LocalNodeID = before ++ g :: rest ->
  0 <= lamportDefault w <= B ->
  (forall x, x ∈ files.needView fs LocalNodeID ->
     Version x <= B /\ Version (files.Get fs LocalNodeID (Name x)) <= B) ->
  B + Z.of_nat (length (files.needView fs LocalNodeID)) < 2 ^ 64 ->
  Version g <= lamportDefault w ->
  exists w' fs',
    Override repo w = Some (tt, w')
    /\ repoFiles (mdl w') !! repo = Some fs'
    /\ Version g < Version (files.Get fs' LocalNodeID (Name g)).
Proof.
  intros Hfs Hsplit Hclock Hbound Hroom Hseen.
  destruct (Override_entry repo w fs before g rest Hfs Hsplit)
    as (w' & fs' & lv & Hrun & Hfs' & Hget).
  exists w', fs'. split; [exact Hrun|]. split; [exact Hfs'|].
  rewrite Hget. unfold overrideEntry. cbn [fst files.withLocalVersion Version].
  assert (Hbase : forall x, x ∈ files.needView fs LocalNodeID ->
                    Version (overrideBase fs x) <= B).
  { intros x Hx. destruct (Hbound x Hx) as [Hvx Hvh]. unfold overrideBase. cbv zeta.
    destruct (negb _); [exact Hvx | exact Hvh]. }
  rewrite Hsplit in Hbase, Hroom. rewrite length_app in Hroom. cbn [length] in Hroom.
  destruct (clockAt_bounds fs before (lamportDefault w) B Hclock) as [Hlo Hhi].
  { intros x Hx. apply Hbase, elem_of_app. left. exact Hx. }
  { lia. }
  assert (Hg : Version (overrideBase fs g) <= B).
  { apply Hbase, elem_of_app. right. left. }
  rewrite (Tick_exact _ _ (B + Z.of_nat (length before))) by lia. lia.
Qed.

Lemma Override_deletes_missing_witness :
  exists fs g w' fs',
    repoFiles (mdl world1) !! "photos" = Some fs
    /\ files.needView fs LocalNodeID = [] ++ g :: []
    /\ files.lookupName (Name g) (files.have fs LocalNodeID) = None
    /\ Name g <> ""%string
    /\ Override "photos" world1 = Some (tt, w')
    /\ repoFiles (mdl w') !! "photos" = Some fs'
    /\ Name g = "b.jpg"%string
    /\ IsDeleted (Flags (files.Get fs' LocalNodeID (Name g))) = true
    /\ Blocks (files.Get fs' LocalNodeID (Name g)) = [].
Proof.
  destruct (repoFiles (mdl world1) !! "photos") as [fs|] eqn:Hfs;
    [|vm_compute in Hfs; discriminate Hfs].
  pose (g := mkFile "b.jpg" 420 1400000000 7 1 [mkBlock 0 5 []]).
  assert (Hneed : files.needView fs LocalNodeID = [] ++ g :: []).
  { vm_compute in Hfs. injection Hfs as <-. vm_compute. reflexivity. }
  assert (Hmissing : files.lookupName (Name g) (files.have fs LocalNodeID) = None).
  { vm_compute in Hfs. injection Hfs as <-. vm_compute. reflexivity. }
  assert (Hname : Name g <> ""%string) by discriminate.
  destruct (Override_deletes_missing "photos" world1 fs [] g [] Hfs Hneed Hmissing Hname)
    as (w' & fs' & Hrun & Hfs' & _ & _ & Hdel & _ & Hblocks & _).
  exists fs, g, w', fs'. repeat split; assumption.
Defined.

Lemma Override_reasserts_own_witness :
  exists fs g h w' fs',
    repoFiles (mdl world5) !! "photos" = Some fs
    /\ files.needView fs LocalNodeID = [] ++ g :: []
    /\ files.lookupName (Name g) (files.have fs LocalNodeID) = Some h
    /\ Override "photos" world5 = Some (tt, w')
    /\ repoFiles (mdl w') !! "photos" = Some fs'
    /\ Version g = 5 /\ Version h = 1
    /\ Blocks (files.Get fs' LocalNodeID (Name g)) = [mkBlock 0 10 []]
    /\ Version (files.Get fs' LocalNodeID (Name g)) = 7.
Proof.
  destruct (repoFiles (mdl world5) !! "photos") as [fs|] eqn:Hfs;
    [|vm_compute in Hfs; discriminate Hfs].
  pose (g := mkFile "a.jpg" 420 1400000500 5 1 [mkBlock 0 12 []]).
  pose (h := mkFile "a.jpg" 420 1400000000 1 1 [mkBlock 0 10 []]).
  assert (Hneed : files.needView fs LocalNodeID = [] ++ g :: []).
  { vm_compute in Hfs. injection Hfs as <-. vm_compute. reflexivity. }
  assert (Hhave : files.lookupName (Name g) (files.have fs LocalNodeID) = Some h).
  { vm_compute in Hfs. injection Hfs as <-. vm_compute. reflexivity. }
  destruct (Override_reasserts_own "photos" world5 fs [] g [] h Hfs Hneed Hhave)
    as (w' & fs' & Hrun & Hfs' & _ & _ & _ & Hblocks & Hver).
  exists fs, g, h, w', fs'. repeat split; assumption.
Defined.

Lemma Override_keeps_others_witness :
  exists fs w' fs',
    repoFiles (mdl world5) !! "photos" = Some fs
    /\ Override "photos" world5 = Some (tt, w')
    /\ repoFiles (mdl w') !! "photos" = Some fs'
    /\ files.lookupName "b.jpg" (files.have fs' LocalNodeID) = None.
Proof.
  destruct (repoFiles (mdl world5) !! "photos") as [fs|] eqn:Hfs;
    [|vm_compute in Hfs; discriminate Hfs].
  assert (Hneed : files.needView fs LocalNodeID
                  = [mkFile "a.jpg" 420 1400000500 5 1 [mkBlock 0 12 []]]).
  { vm_compute in Hfs. injection Hfs as <-. vm_compute. reflexivity. }
  assert (Hnone : files.lookupName "b.jpg" (files.have fs LocalNodeID) = None).
  { vm_compute in Hfs. injection Hfs as <-. vm_compute. reflexivity. }
  destruct (Override_keeps_others "photos" world5 fs Hfs) as (w' & fs' & Hrun & Hfs' & Hkeep).
  exists fs, w', fs'. split; [reflexivity|]. split; [exact Hrun|]. split; [exact Hfs'|].
  rewrite (Hkeep "b.jpg"); [exact Hnone|].
  intros g Hg. rewrite Hneed in Hg. apply list_elem_of_singleton in Hg as ->. discriminate.
Defined.

Lemma Override_outranks_witness :
  exists fs g w' fs',
    repoFiles (mdl world5) !! "photos" = Some fs
    /\ files.needView fs LocalNodeID = [] ++ g :: []
    /\ Version g <= lamportDefault world5
    /\ Override "photos" world5 = Some (tt, w')
    /\ repoFiles (mdl w') !! "photos" = Some fs'
    /\ Version g < Version (files.Get fs' LocalNodeID (Name g)).
Proof.
  destruct (repoFiles (mdl world5) !! "photos") as [fs|] eqn:Hfs;
    [|vm_compute in Hfs; discriminate Hfs].
  pose (g := mkFile "a.jpg" 420 1400000500 5 1 [mkBlock 0 12 []]).
  assert (Hneed : files.needView fs LocalNodeID = [] ++ g :: []).
  { vm_compute in Hfs. injection Hfs as <-. vm_compute. reflexivity. }
  assert (Hclock : 0 <= lamportDefault world5 <= 6) by (vm_compute; split; discriminate).
  assert (Hseen : Version g <= lamportDefault world5) by (vm_compute; discriminate).
  assert (Hbound : forall x, x ∈ files.needView fs LocalNodeID ->
            Version x <= 6 /\ Version (files.Get fs LocalNodeID (Name x)) <= 6).
  { intros x Hx. rewrite Hneed in Hx. apply list_elem_of_singleton in Hx as ->.
    vm_compute in Hfs. injection Hfs as <-. vm_compute. split; discriminate. }
  assert (Hroom : 6 + Z.of_nat (length (files.needView fs LocalNodeID)) < 2 ^ 64)
    by (rewrite Hneed; vm_compute; reflexivity).
  destruct (Override_outranks "photos" world5 fs [] g [] 6 Hfs Hneed Hclock Hbound Hroom Hseen)
    as (w' & fs' & Hrun & Hfs' & Hwins).
  exists fs, g, w', fs'. repeat split; assumption.
Defined.

(** ** The clock has seen every received version *)

Lemma ticks_bounds (vs : list Z) :
  forall c B : Z,
    0 <= c <= B ->
    (forall v, v ∈ vs -> v <= B) ->
    B + Z.of_nat (length vs) < 2 ^ 64 ->
    c <= fold_left lamport.Tick vs c <= B + Z.of_nat (length vs)
    /\ forall v, v ∈ vs -> v < fold_left lamport.Tick vs c.
Proof.
  induction vs as [|x vs IH]; intros c B Hc Hv HB; cbn [fold_left length] in *.
  - split; [lia|]. intros v Hin. inversion Hin.
  - assert (Hx : x <= B) by (apply Hv; left).
    rewrite (Tick_exact c x B Hc Hx) by lia.
    destruct (IH (Z.max c x + 1) (B + 1)) as [[Hlo Hhi] Hall]; [lia| |lia|].
    { intros v Hin. assert (v <= B) by (apply Hv; right; exact Hin). lia. }
    split; [lia|]. intros v Hin. apply elem_of_cons in Hin as [->|Hin]; [lia|].
    exact (Hall v Hin).
Qed.

(** An index message from an authorized node, full or incremental, leaves
    the lamport clock beyond the version of every entry received, ignored
    entries included, and not behind where it was.  (Versions and clock are
    assumed far enough from the end of the 64-bit range for one tick per
    entry.) *)
Theorem index_versions_seen (w : World) (nodeID : NodeID) (repo : string)
    (fs : list FileInfo) (rf : files.Set_) (B : Z) :
  repoSharedWith (mdl w) repo nodeID = true ->
  repoFiles (mdl w) !! repo = Some rf ->
  0 <= lamportDefault w <= B ->
  (forall f, f ∈ fs -> Version f <= B) ->
  B + Z.of_nat (length fs) < 2 ^ 64 ->
  (exists w', Index nodeID repo fs w = Some (tt, w')
     /\ lamportDefault w <= lamportDefault w'
     /\ forall f, f ∈ fs -> Version f < lamportDefault w')
  /\ (exists w', IndexUpdate nodeID repo fs w = Some (tt, w')
        /\ lamportDefault w <= lamportDefault w'
        /\ forall f, f ∈ fs -> Version f < lamportDefault w').
Proof.
  intros Hshared Hrf Hc Hv HB.
  destruct (dropIgnored_spec (default ignore.nilPatterns (repoIgnores (mdl w) !! repo))
              (length fs) [] fs (lamportDefault w) eq_refl)
    as (remaining & order & Hloop & Hord & _).
  cbn [app length] in Hloop.
  destruct (ticks_bounds (Version <$> order) (lamportDefault w) B Hc) as [[Hlo _] Hall].
  { intros v Hin. apply list_elem_of_fmap in Hin as (f & -> & Hf).
    apply Hv. rewrite <- Hord. exact Hf. }
  { rewrite length_fmap, (Permutation_length Hord). exact HB. }
  assert (Hseen : forall f, f ∈ fs ->
            Version f < fold_left lamport.Tick (Version <$> order) (lamportDefault w)).
  { intros f Hf. apply Hall, list_elem_of_fmap. exists f. split; [reflexivity|].
    rewrite Hord. exact Hf. }
  split.
  - unfold Index, bind, gets. cbv beta. rewrite Hshared. cbn [negb]. cbv beta iota.
    rewrite Hrf. cbv beta iota. rewrite Hloop.
    eexists. split; [reflexivity|]. cbn [lamportDefault]. split; [exact Hlo | exact Hseen].
  - unfold IndexUpdate, bind, gets. cbv beta. rewrite Hshared. cbn [negb]. cbv beta iota.
    rewrite Hrf. cbv beta iota. rewrite Hloop.
    eexists. split; [reflexivity|]. cbn [lamportDefault]. split; [exact Hlo | exact Hseen].
Qed.

Lemma index_versions_seen_witness :
  exists rf w',
    repoSharedWith (mdl world2) "photos" nodeN = true
    /\ repoFiles (mdl world2) !! "photos" = Some rf
    /\ Index nodeN "photos" [a_jpg_new] world2 = Some (tt, w')
    /\ Version a_jpg_new < lamportDefault w'.
Proof.
  destruct (repoFiles (mdl world2) !! "photos") as [rf|] eqn:Hrf;
    [|vm_compute in Hrf; discriminate Hrf].
  assert (Hshared : repoSharedWith (mdl world2) "photos" nodeN = true)
    by (vm_compute; reflexivity).
  assert (Hc : 0 <= lamportDefault world2 <= 5) by (vm_compute; split; discriminate).
  assert (Hv : forall f, f ∈ [a_jpg_new] -> Version f <= 5).
  { intros f Hf. apply list_elem_of_singleton in Hf as ->. vm_compute. discriminate. }
  assert (HB : 5 + Z.of_nat (length [a_jpg_new]) < 2 ^ 64) by (vm_compute; reflexivity).
  destruct (index_versions_seen world2 nodeN "photos" [a_jpg_new] rf 5 Hshared Hrf Hc Hv HB)
    as [(w' & Hrun & _ & Hseen) _].
  exists rf, w'. split; [exact Hshared|]. split; [reflexivity|]. split; [exact Hrun|].
  apply Hseen. left.
Defined.
